(** * psj-hill-editor: geometry pipeline of the exporter

    A shallow embedding of [util.py], [clipper.py], [triangulator.py] and
    of the two flattening loops of [psjhill_exporter.py].

    Numbers.  Python numbers are modelled as exact rationals [Q]; the
    comparisons the code performs ([<], [>], [==]) are the boolean tests
    [Qltb] and [Qeq_bool].  Results that the code computes by repeated
    addition are kept in that form, so statements about them use [==].

    Control.  A Python call either returns, raises, or loops for ever.
    [outcome] keeps the three apart: loops take a fuel argument and answer
    [Timeout] when it runs out.

    Libraries outside the repository ([pyclipper], [tripy], [inkex.bezier],
    [math.sqrt]) are Section variables; the calls into [pyclipper], which
    raises on the paths it refuses, answer an [outcome]. *)

From Stdlib Require Import ZArith QArith Qround Qabs Lia Lqa List Bool Arith.
From Stdlib Require String.
Import ListNotations.

Set Implicit Arguments.

(* ------------------------------------------------------------------ *)
(** ** Numbers *)

Module Num.
Open Scope Q_scope.

Definition Qltb (a b : Q) : bool := negb (Qle_bool b a).

(** Python's [min(a, b)]: the first argument unless the second is smaller. *)
Definition py_min (a b : Q) : Q := if Qltb b a then b else a.

(** A count as a rational. *)
Definition nq (n : nat) : Q := inject_Z (Z.of_nat n).

End Num.

(* ------------------------------------------------------------------ *)
(** ** Outcomes of a call *)

Inductive exn : Type :=
| IndexError
| ValueError
| ZeroDivisionError
| OverflowError
| ClipperException.

Inductive outcome (A : Type) : Type :=
| Ok (a : A)
| Raise (e : exn)
| Timeout.

Arguments Ok {A} a.
Arguments Raise {A} e.
Arguments Timeout {A}.

Definition is_ok {A : Type} (m : outcome A) : bool :=
  match m with
  | Ok _ => true
  | _ => false
  end.

Definition bind {A B : Type} (m : outcome A) (k : A -> outcome B) : outcome B :=
  match m with
  | Ok a => k a
  | Raise e => Raise e
  | Timeout => Timeout
  end.

Notation "x <- m ;; k" := (bind m (fun x => k))
  (at level 61, m at next level, right associativity).

(** A [for] loop that builds a list, one fallible step per element. *)
Fixpoint mapM {A B : Type} (f : A -> outcome B) (l : list A) : outcome (list B) :=
  match l with
  | [] => Ok []
  | a :: l' => b <- f a ;; bs <- mapM f l' ;; Ok (b :: bs)
  end.

(** A [for] loop that threads a state. *)
Fixpoint foldM {S A : Type} (f : S -> A -> outcome S) (l : list A) (s : S)
  : outcome S :=
  match l with
  | [] => Ok s
  | a :: l' => s' <- f s a ;; foldM f l' s'
  end.

(** [lst[i]] *)
Definition index {A : Type} (lst : list A) (i : nat) : outcome A :=
  match nth_error lst i with
  | Some a => Ok a
  | None => Raise IndexError
  end.

(** [enumerate(lst)] *)
Definition enumerate {A : Type} (lst : list A) : list (nat * A) :=
  combine (seq 0 (length lst)) lst.

(* ------------------------------------------------------------------ *)
(** ** Shared data *)

Module Data.
Open Scope Q_scope.

Definition point : Type := (Q * Q)%type.

Definition point_eq (p q : point) : Prop :=
  fst p == fst q /\ snd p == snd q.

Definition color : Type := String.string.

(** [(x, y, color)] *)
Definition vertex : Type := (Q * Q * color)%type.
Definition vx (v : vertex) : Q := fst (fst v).
Definition vy (v : vertex) : Q := snd (fst v).
Definition vcolor (v : vertex) : color := snd v.

Definition ring : Type := list vertex.
Definition triple : Type := (nat * nat * nat)%type.

(** [bounding_box.left], [.top], [.width], [.height] *)
Record BoundingBox : Type := mkBoundingBox {
  left : Q;
  top : Q;
  width : Q;
  height : Q
}.

(** One record of the cell list.  The four [boundingBox...] keys stay for
    the whole pipeline; [payload] is what the other keys hold at each
    stage: ['vertices'] after clipping, ['objects'] after triangulation,
    ['vertices'] and ['indicies'] after flattening. *)
Record cell (P : Type) : Type := mkCell {
  boundingBoxX : Q;
  boundingBoxY : Q;
  boundingBoxWidth : Q;
  boundingBoxHeight : Q;
  payload : P
}.

Definition set_payload {P R : Type} (c : cell P) (r : R) : cell R :=
  mkCell (boundingBoxX c) (boundingBoxY c)
         (boundingBoxWidth c) (boundingBoxHeight c) r.

(** The geometry of a record without its payload. *)
Definition frame {P : Type} (c : cell P) : Q * Q * Q * Q :=
  (boundingBoxX c, boundingBoxY c, boundingBoxWidth c, boundingBoxHeight c).

(** A cell after clipping: ['vertices'] is a list of rings. *)
Definition clip : Type := cell (list ring).
Definition vertices (c : clip) : list ring := payload c.

(** An entry of ['objects']. *)
Record object : Type := mkObject {
  o_vertices : ring;
  o_indicies : list triple
}.

Definition tclip : Type := cell (list object).
Definition objects (c : tclip) : list object := payload c.

(** A flattened cell: one vertex buffer, one index list. *)
Definition mesh : Type := cell (list vertex * list triple).
Definition mesh_vertices (c : mesh) : list vertex := fst (payload c).
Definition mesh_indicies (c : mesh) : list triple := snd (payload c).

End Data.

(* ------------------------------------------------------------------ *)
(** ** util.py: path metrics *)

Module Util.
Import Num Data.
Open Scope Q_scope.

(** [ensure_right_pointing_vertices]: reads [vertices[1][0]] and
    [vertices[0][0]]; [vertices[::-1]] is [rev]. *)
Definition ensure_right_pointing_vertices (vertices : list point)
  : outcome (list point) :=
  v1 <- index vertices 1 ;;
  v0 <- index vertices 0 ;;
  if Qltb (fst v0) (fst v1) then Ok vertices else Ok (rev vertices).

(** The three quantities [intersect_segments] computes. *)
Definition seg_d (p1 p2 p3 p4 : point) : Q :=
  (snd p4 - snd p3) * (fst p2 - fst p1) - (fst p4 - fst p3) * (snd p2 - snd p1).

Definition seg_ua (p1 p2 p3 p4 : point) : Q :=
  ((fst p4 - fst p3) * (snd p1 - snd p3) - (snd p4 - snd p3) * (fst p1 - fst p3))
  / seg_d p1 p2 p3 p4.

Definition seg_ub (p1 p2 p3 p4 : point) : Q :=
  ((fst p2 - fst p1) * (snd p1 - snd p3) - (snd p2 - snd p1) * (fst p1 - fst p3))
  / seg_d p1 p2 p3 p4.

(** [intersect_segments]; [None] is Python's [None]. *)
Definition intersect_segments (p1 p2 p3 p4 : point) : option point :=
  let x1 := fst p1 in let y1 := snd p1 in
  let x2 := fst p2 in let y2 := snd p2 in
  let x3 := fst p3 in let y3 := snd p3 in
  let x4 := fst p4 in let y4 := snd p4 in
  let d := (y4 - y3) * (x2 - x1) - (x4 - x3) * (y2 - y1) in
  if Qeq_bool d 0 then None else
  let yd := y1 - y3 in
  let xd := x1 - x3 in
  let ua := ((x4 - x3) * yd - (y4 - y3) * xd) / d in
  if Qltb ua 0 || Qltb 1 ua then None else
  let ub := ((x2 - x1) * yd - (y2 - y1) * xd) / d in
  if Qltb ub 0 || Qltb 1 ub then None else
  Some (x1 + (x2 - x1) * ua, y1 + (y2 - y1) * ua).

(** What the claim calls "no intersection": the determinant is zero or a
    parameter is outside [0, 1]. *)
Definition no_hit (p1 p2 p3 p4 : point) : Prop :=
  seg_d p1 p2 p3 p4 == 0 \/
  seg_ua p1 p2 p3 p4 < 0 \/ 1 < seg_ua p1 p2 p3 p4 \/
  seg_ub p1 p2 p3 p4 < 0 \/ 1 < seg_ub p1 p2 p3 p4.

End Util.

(* ------------------------------------------------------------------ *)
(** ** triangulator.py *)

Module Triangulator.
Import Data.
Open Scope Q_scope.

Definition point_eqb (p q : point) : bool :=
  Qeq_bool (fst p) (fst q) && Qeq_bool (snd p) (snd q).

(** [points.index(p)]: position of the first equal element. *)
Fixpoint list_index (p : point) (points : list point) : outcome nat :=
  match points with
  | [] => Raise ValueError
  | q :: points' =>
      if point_eqb q p then Ok 0%nat
      else i <- list_index p points' ;; Ok (S i)
  end.

Section Triangulate.

(** [tripy.earclip]: a list of triangles, each three points. *)
Variable earclip : list point -> list (point * point * point).

(** Body of the loop over [clip['vertices']]. *)
Definition triangulate_ring (vertices : ring) : outcome object :=
  let points := map (fun verticle => (vx verticle, vy verticle)) vertices in
  let triangulated_points := earclip points in
  indicies <-
    mapM (fun triangle : point * point * point =>
            i0 <- list_index (fst (fst triangle)) points ;;
            i1 <- list_index (snd (fst triangle)) points ;;
            i2 <- list_index (snd triangle) points ;;
            Ok (i0, i1, i2))
         triangulated_points ;;
  Ok (mkObject vertices indicies).

(** [triangulate_polygon]: ['vertices'] is replaced by ['objects']. *)
Definition triangulate_polygon (polygon : list clip) : outcome (list tclip) :=
  mapM (fun clip : clip =>
          new_object <- mapM triangulate_ring (vertices clip) ;;
          Ok (set_payload clip new_object))
       polygon.

End Triangulate.
End Triangulator.

(* ------------------------------------------------------------------ *)
(** ** psjhill_exporter.py: flattening a triangulated cell *)

Module Exporter.
Import Data.

(** Single-shape branch of [recursively_iterate_layer]: both buffers are
    plain concatenations over [clip['objects']]. *)
Definition flatten_shape (clip : tclip) : mesh :=
  let new_vertices := flat_map o_vertices (objects clip) in
  let new_indicies := flat_map o_indicies (objects clip) in
  set_payload clip (new_vertices, new_indicies).

(** [[indice[0]+start_indice, indice[1]+start_indice, indice[2]+start_indice]] *)
Definition rebase (start_indice : nat) (indice : triple) : triple :=
  let '(i0, i1, i2) := indice in
  (i0 + start_indice, i1 + start_indice, i2 + start_indice)%nat.

(** The loop over [clip['objects']] of the shape-group branch; the state is
    [(new_indicies, start_indice)]. *)
Definition group_indicies (objs : list object) : list triple * nat :=
  fold_left
    (fun (st : list triple * nat) (object : object) =>
       let '(new_indicies, start_indice) := st in
       (fold_left (fun acc indice => acc ++ [rebase start_indice indice])
                  (o_indicies object) new_indicies,
        (start_indice + length (o_vertices object))%nat))
    objs ([], 0%nat).

(** Shape-group branch of [recursively_iterate_layer]. *)
Definition flatten_shape_group (clip : tclip) : mesh :=
  let new_vertices := flat_map o_vertices (objects clip) in
  let new_indicies := fst (group_indicies (objects clip)) in
  set_payload clip (new_vertices, new_indicies).

(** What an index list must do to reference the concatenated buffer: the
    triples of the k-th ring, shifted by the number of vertices of the
    rings before it. *)
Fixpoint rebased_from (start : nat) (objs : list object) : list triple :=
  match objs with
  | [] => []
  | o :: objs' =>
      map (rebase start) (o_indicies o)
      ++ rebased_from (start + length (o_vertices o)) objs'
  end.

Definition rebased (objs : list object) : list triple := rebased_from 0 objs.

End Exporter.

(* ------------------------------------------------------------------ *)
(** ** clipper.py *)

Module Clipper.
Import Num Data.
Open Scope Q_scope.

Definition nonempty {A : Type} (l : list A) : bool := (0 <? length l)%nat.

(** [len(val['vertices']) > 0] *)
Definition keep (val : clip) : bool := nonempty (vertices val).

Section Clip.

(** [pc.AddPath(pyclipper.scale_to_clipper(path, SCALING_FACTOR), ...)],
    for [PT_CLIP] and [PT_SUBJECT] alike.  pyclipper raises
    [ClipperException] for a closed path that Clipper refuses (one left
    with fewer than three vertices once repeated vertices and vertices on
    the line through their neighbours are taken out), and the scaling
    raises [OverflowError] for a coordinate outside the integer range. *)
Variable AddPath : list point -> outcome unit.

(** [scale_from_clipper(pc.Execute(CT_INTERSECTION, PFT_EVENODD,
    PFT_EVENODD), SCALING_FACTOR)] on a clipper that holds the clip path
    and the subject: the rings of their even-odd intersection, or
    [ClipperException] when the execution does not succeed. *)
Variable Execute : list point -> list point -> outcome (list (list point)).

(** [for object in solution: for point in object:
    point.append(vertices[0][2])] *)
Definition add_color (vertices : list vertex) (solution : list (list point))
  : outcome (list ring) :=
  mapM (fun object : list point =>
          mapM (fun point : point =>
                  v0 <- index vertices 0 ;;
                  Ok (fst point, snd point, vcolor v0))
               object)
       solution.

(** Body of the inner loop up to [solution]. *)
Definition solve (vertices : list vertex) (x y x2 y2 : Q) : outcome (list ring) :=
  let points := map (fun verticle => (vx verticle, vy verticle)) vertices in
  let clip := [(x, y); (x2, y); (x2, y2); (x, y2)] in
  clip_added <- AddPath clip ;;
  subject_added <- AddPath points ;;
  solution <- Execute clip points ;;
  add_color vertices solution.

(** The inner [while] of [clip_polygon]. *)
Fixpoint while_y (vertices : list vertex) (bounding_box : BoundingBox)
    (grid_size : Q) (optimize : bool) (fuel : nat)
    (bounding_box_x bounding_box_x2 bounding_box_y : Q) (output : list clip)
  : outcome (list clip) :=
  match fuel with
  | O => Timeout
  | S fuel' =>
      if Qltb bounding_box_y (top bounding_box + height bounding_box) then
        let bounding_box_y2 :=
          py_min (bounding_box_y + grid_size)
                 (top bounding_box + height bounding_box) in
        solution <- solve vertices bounding_box_x bounding_box_y
                          bounding_box_x2 bounding_box_y2 ;;
        let output :=
          if nonempty solution || negb optimize then
            output ++ [mkCell bounding_box_x bounding_box_y
                              (bounding_box_x2 - bounding_box_x)
                              (bounding_box_y2 - bounding_box_y)
                              solution]
          else output in
        while_y vertices bounding_box grid_size optimize fuel'
                bounding_box_x bounding_box_x2
                (bounding_box_y + grid_size) output
      else Ok output
  end.

(** The outer [while] of [clip_polygon]. *)
Fixpoint while_x (vertices : list vertex) (bounding_box : BoundingBox)
    (grid_size : Q) (optimize : bool) (fuel : nat)
    (bounding_box_x : Q) (output : list clip)
  : outcome (list clip) :=
  match fuel with
  | O => Timeout
  | S fuel' =>
      if Qltb bounding_box_x (left bounding_box + width bounding_box) then
        let bounding_box_x2 :=
          py_min (bounding_box_x + grid_size)
                 (left bounding_box + width bounding_box) in
        output <- while_y vertices bounding_box grid_size optimize fuel'
                          bounding_box_x bounding_box_x2
                          (top bounding_box) output ;;
        while_x vertices bounding_box grid_size optimize fuel'
                (bounding_box_x + grid_size) output
      else Ok output
  end.

Definition clip_polygon (fuel : nat) (vertices : list vertex)
    (bounding_box : BoundingBox) (grid_size : Q) (optimize : bool)
  : outcome (list clip) :=
  while_x vertices bounding_box grid_size optimize fuel (left bounding_box) [].

(** [output1[idx]['vertices'].append(solution)] *)
Definition append_solution (output1 : list clip) (idx : nat) (solution : ring)
  : outcome (list clip) :=
  val1 <- index output1 idx ;;
  Ok (firstn idx output1
      ++ set_payload val1 (vertices val1 ++ [solution])
      :: skipn (S idx) output1).

(** [for idx, val in enumerate(output): for solution in val['vertices']: ...] *)
Definition merge_output (output1 output : list clip) : outcome (list clip) :=
  foldM (fun (output1 : list clip) (iv : nat * clip) =>
           foldM (fun output1 solution => append_solution output1 (fst iv) solution)
                 (vertices (snd iv)) output1)
        (enumerate output) output1.

(** Body of [for vertices in polygons]; the state is [(first, output1)]. *)
Definition merge_step (fuel : nat) (bounding_box : BoundingBox) (grid_size : Q)
    (st : bool * list clip) (vertices : list vertex)
  : outcome (bool * list clip) :=
  if fst st then Ok (false, snd st)
  else
    output <- clip_polygon fuel vertices bounding_box grid_size false ;;
    output1 <- merge_output (snd st) output ;;
    Ok (false, output1).

Definition clip_polygons (fuel : nat) (polygons : list (list vertex))
    (bounding_box : BoundingBox) (grid_size : Q)
  : outcome (list clip) :=
  polygons_0 <- index polygons 0 ;;
  output1 <- clip_polygon fuel polygons_0 bounding_box grid_size false ;;
  st <- foldM (merge_step fuel bounding_box grid_size) polygons (true, output1) ;;
  Ok (filter keep (snd st)).

(** *** ClipMerge as the specification words it *)

(** The rings one run produced at a cell index. *)
Definition rings_at (idx : nat) (run : list clip) : list ring :=
  match nth_error run idx with
  | Some val => vertices val
  | None => []
  end.

(** Run [clip_polygon] with [optimize = false] once per polygon; for each
    cell index concatenate the rings of every run at that index; drop the
    cells whose ring list is empty. *)
Definition ClipMerge (fuel : nat) (polygons : list (list vertex))
    (bounding_box : BoundingBox) (grid_size : Q)
  : outcome (list clip) :=
  runs <- mapM (fun polygon =>
                  clip_polygon fuel polygon bounding_box grid_size false)
               polygons ;;
  match runs with
  | [] => Ok []
  | cells :: _ =>
      Ok (filter keep
            (map (fun iv : nat * clip =>
                    set_payload (snd iv) (flat_map (rings_at (fst iv)) runs))
                 (enumerate cells)))
  end.

(** The first run's cells, each with the rings further runs produced at
    its index appended. *)
Definition merged (output1 : list clip) (runs : list (list clip)) : list clip :=
  map (fun iv : nat * clip =>
         set_payload (snd iv)
                     (vertices (snd iv) ++ flat_map (rings_at (fst iv)) runs))
      (enumerate output1).

(** *** The grid *)

(** The positions [x, x + g, x + g + g, ...] that are below [hi], at most
    [bound] of them. *)
Fixpoint axis_from (bound : nat) (x hi g : Q) : list Q :=
  match bound with
  | O => []
  | S bound' =>
      if Qltb x hi then x :: axis_from bound' (x + g) hi g else []
  end.

(** [ceil((hi - lo) / g)] steps are enough to pass [hi] when [0 < g]. *)
Definition steps (lo hi g : Q) : nat := Z.to_nat (Qceiling ((hi - lo) / g)).

Definition axis (lo hi g : Q) : list Q := axis_from (steps lo hi g) lo hi g.

Definition columns (bb : BoundingBox) (g : Q) : list Q :=
  axis (left bb) (left bb + width bb) g.

Definition rows (bb : BoundingBox) (g : Q) : list Q :=
  axis (top bb) (top bb + height bb) g.

(** The record [clip_polygon] builds at the cell with origin [(x, y)]. *)
Definition cell_at {P : Type} (bb : BoundingBox) (g : Q) (x y : Q) (p : P)
  : cell P :=
  mkCell x y
         (py_min (x + g) (left bb + width bb) - x)
         (py_min (y + g) (top bb + height bb) - y)
         p.


(** The rings of the cell at [(x, y)]: what [Execute] hands back for the
    cell's rectangle and the polygon (no ring where it raises), each point
    with the colour of the polygon's first vertex. *)
Definition rings_of (vertices : list vertex) (bb : BoundingBox) (g : Q)
    (x y : Q) : list ring :=
  let points := map (fun verticle => (vx verticle, vy verticle)) vertices in
  let x2 := py_min (x + g) (left bb + width bb) in
  let y2 := py_min (y + g) (top bb + height bb) in
  let c := match vertices with v0 :: _ => vcolor v0 | [] => String.EmptyString end in
  map (map (fun point : point => (fst point, snd point, c)))
      match Execute [(x, y); (x2, y); (x2, y2); (x, y2)] points with
      | Ok solution => solution
      | _ => []
      end.

(** Every cell of the grid, column by column, each column top to bottom. *)
Definition grid_cells (vertices : list vertex) (bb : BoundingBox) (g : Q)
  : list clip :=
  flat_map (fun x =>
              map (fun y => cell_at bb g x y (rings_of vertices bb g x y))
                  (rows bb g))
           (columns bb g).

Definition fuel_for (bb : BoundingBox) (g : Q) : nat :=
  S (length (columns bb g) + length (rows bb g)).

(** *** pyclipper on the cells of a run *)

(** At the cell with corners [(x, y)] and [(x2, y2)] pyclipper takes the
    clip path and the subject, and its execution succeeds. *)
Definition returns_at (vertices : list vertex) (x y x2 y2 : Q) : bool :=
  let points := map (fun verticle => (vx verticle, vy verticle)) vertices in
  let clip := [(x, y); (x2, y); (x2, y2); (x, y2)] in
  is_ok (AddPath clip) && is_ok (AddPath points) && is_ok (Execute clip points).

(** The same at every cell of the grid. *)
Definition pyclipper_returns (vertices : list vertex) (bb : BoundingBox)
    (g : Q) : bool :=
  forallb (fun x =>
             forallb (fun y =>
                        returns_at vertices x y
                                   (py_min (x + g) (left bb + width bb))
                                   (py_min (y + g) (top bb + height bb)))
                     (rows bb g))
          (columns bb g).


End Clip.

(** *** Geometry of a cell list *)

(** The closed rectangle of a record. *)
Definition in_cell {P : Type} (c : cell P) (px py : Q) : Prop :=
  boundingBoxX c <= px <= boundingBoxX c + boundingBoxWidth c /\
  boundingBoxY c <= py <= boundingBoxY c + boundingBoxHeight c.

Definition in_box (bb : BoundingBox) (px py : Q) : Prop :=
  left bb <= px <= left bb + width bb /\
  top bb <= py <= top bb + height bb.

(** Two rectangles that a vertical or a horizontal line separates: they
    share at most an edge. *)
Definition separated {P : Type} (c d : cell P) : Prop :=
  boundingBoxX c + boundingBoxWidth c <= boundingBoxX d \/
  boundingBoxX d + boundingBoxWidth d <= boundingBoxX c \/
  boundingBoxY c + boundingBoxHeight c <= boundingBoxY d \/
  boundingBoxY d + boundingBoxHeight d <= boundingBoxY c.

(** Full-size along an axis, or cut at the box edge. *)
Definition clamped (origin size g limit : Q) : Prop :=
  0 < size /\ size <= g /\ origin + size <= limit /\
  (size == g \/ origin + size == limit).

Definition cell_clamped {P : Type} (bb : BoundingBox) (g : Q) (c : cell P) : Prop :=
  clamped (boundingBoxX c) (boundingBoxWidth c) g (left bb + width bb) /\
  clamped (boundingBoxY c) (boundingBoxHeight c) g (top bb + height bb).

End Clipper.

(* ------------------------------------------------------------------ *)
(** ** util.py: curve sampling by distance *)

Module Sampler.
Import Num Data.
Open Scope Q_scope.

(** A node of a sub-path: [sp[0]], [sp[1]], [sp[2]]. *)
Definition node : Type := (point * point * point)%type.

(** Four control points. *)
Definition bez : Type := (point * point * point * point)%type.

(** [getbez]: [(sp1[1], sp1[2], sp2[0], sp2[1])] *)
Definition getbez (sp1 sp2 : node) : bez :=
  (snd (fst sp1), snd sp1, fst (fst sp2), snd (fst sp2)).

(** [a / b] *)
Definition py_div (a b : Q) : outcome Q :=
  if Qeq_bool b 0 then Raise ZeroDivisionError else Ok (a / b).

(** [time > 0.0001 and time < 0.9999] *)
Definition interior_time (time : Q) : bool :=
  Qltb 0.0001 time && Qltb time 0.9999.

Section Sample.

(** [bezier.bezierpointatt], [bezier.bezierlength], [bezier.beziertatlength]
    with their default tolerances, and [math.sqrt]. *)
Variable bezierpointatt : bez -> Q -> point.
Variable bezierlength : bez -> Q.
Variable beziertatlength : bez -> Q -> Q.
Variable sqrt : Q -> Q.

Definition point_point_dst (p1 p2 : point) : Q :=
  sqrt ((fst p1 - fst p2) ^ 2 + (snd p1 - snd p2) ^ 2).

(** The inner [while dst_to_next_point < length_left].  The state is
    [(dst_to_next_point, length_left, point_length, points)]. *)
Fixpoint while_dst (bez : bez) (point_dst length : Q) (fuel : nat)
    (dst_to_next_point length_left point_length : Q) (points : list point)
  : outcome (Q * Q * list point) :=
  match fuel with
  | O => Timeout
  | S fuel' =>
      if Qltb dst_to_next_point length_left then
        let length_left := length_left - dst_to_next_point in
        let point_length := point_length + dst_to_next_point in
        ratio <- py_div point_length length ;;
        let time := beziertatlength bez ratio in
        let dst_to_next_point := point_dst in
        let points :=
          if interior_time time then points ++ [bezierpointatt bez time]
          else points in
        while_dst bez point_dst length fuel'
                  dst_to_next_point length_left point_length points
      else Ok (dst_to_next_point, length_left, points)
  end.

(** The outer [while i <= len(csp_sub) - 1]; [n] counts the iterations
    left.  The source's [dst_to_next_point -= length_left] after the inner
    loop is followed by the reset [dst_to_next_point = point_dst] at the
    top of the next iteration, so its value is never read. *)
Fixpoint while_i (csp_sub : list node) (point_dst : Q) (add_last : bool)
    (fuel : nat) (n : nat) (i : nat) (points : list point)
  : outcome (list point) :=
  match n with
  | O => Ok points
  | S n' =>
      sp1 <- index csp_sub (i - 1) ;;
      sp2 <- index csp_sub i ;;
      let point_length := 0 in
      let dst_to_next_point := point_dst in
      let bez := getbez sp1 sp2 in
      let length := bezierlength bez in
      let length_left := length in
      let start_point := bezierpointatt bez 0 in
      let end_point := bezierpointatt bez 1 in
      let point_to_point_dst := point_point_dst start_point end_point in
      let difference := Qabs (point_to_point_dst - length) in
      let points := points ++ [bezierpointatt bez 0] in
      points <-
        (if Qltb 0.01 difference then
           st <- while_dst bez point_dst length fuel
                           dst_to_next_point length_left point_length points ;;
           Ok (snd st)
         else Ok points) ;;
      let i := (i + 1)%nat in
      let points :=
        if add_last && (i =? List.length csp_sub)%nat
        then points ++ [bezierpointatt bez 1] else points in
      while_i csp_sub point_dst add_last fuel n' i points
  end.

Definition csp_sub_points_dst (fuel : nat) (csp_sub : list node)
    (point_dst : Q) (add_last : bool) : outcome (list point) :=
  while_i csp_sub point_dst add_last fuel (List.length csp_sub - 1) 1%nat [].

(** *** What the sampler emits, segment by segment *)

(** Arc-length targets of a segment of length [len]: the running sums
    [s, s + s, ...] for as long as the spacing is below the length not yet
    walked. *)
Fixpoint offsets_from (bound : nat) (spacing length_left point_length : Q)
  : list Q :=
  match bound with
  | O => []
  | S bound' =>
      if Qltb spacing length_left then
        (point_length + spacing)
        :: offsets_from bound' spacing (length_left - spacing)
                        (point_length + spacing)
      else []
  end.

Definition offsets (spacing len : Q) : list Q :=
  offsets_from (Z.to_nat (Qceiling (len / spacing))) spacing len 0.

(** A segment is "straight" for the sampler when chord and arc length
    differ by at most 0.01. *)
Definition curved (bez : bez) : bool :=
  Qltb 0.01
       (Qabs (point_point_dst (bezierpointatt bez 0) (bezierpointatt bez 1)
              - bezierlength bez)).

(** The point for one arc-length target, unless its parameter is within
    0.0001 of an end. *)
Definition sample_at (bez : bez) (target : Q) : list point :=
  let time := beziertatlength bez (target / bezierlength bez) in
  if interior_time time then [bezierpointatt bez time] else [].

Definition segment_points (bez : bez) (spacing : Q) : list point :=
  bezierpointatt bez 0
  :: (if curved bez
      then flat_map (sample_at bez) (offsets spacing (bezierlength bez))
      else []).

Fixpoint chain_points (csp_sub : list node) (spacing : Q) (add_last : bool)
  : list point :=
  match csp_sub with
  | sp1 :: ((sp2 :: rest) as tl) =>
      segment_points (getbez sp1 sp2) spacing
      ++ (match rest with
          | [] => if add_last then [bezierpointatt (getbez sp1 sp2) 1] else []
          | _ :: _ => []
          end)
      ++ chain_points tl spacing add_last
  | _ => []
  end.

(** Inner-loop iterations one segment can need, plus one for the exit. *)
Definition segment_fuel (spacing : Q) (sp : node * node) : nat :=
  S (List.length (offsets spacing (bezierlength (getbez (fst sp) (snd sp))))).

Definition chain_fuel (csp_sub : list node) (spacing : Q) : nat :=
  list_max (map (segment_fuel spacing) (combine csp_sub (tl csp_sub))).

End Sample.
End Sampler.

(* ------------------------------------------------------------------ *)
(** ** Stand-ins for the outside libraries

    Executable instances of the Section variables above, used to run the
    model on concrete inputs.  The general theorems do not depend on them. *)

Module Colors.
Import String.
Open Scope string_scope.

(** [#RRGGBBAA] as the exporter builds it. *)
Definition red : Data.color := "#ff0000ff".
Definition blue : Data.color := "#0000ffff".

End Colors.

Module Reference.
Import Num Data Sampler Colors.
Open Scope Q_scope.

(** *** A rectangle clipper *)

Inductive side : Type :=
| SLeft (x : Q)
| SRight (x : Q)
| STop (y : Q)
| SBottom (y : Q).

Definition inside (s : side) (p : point) : bool :=
  match s with
  | SLeft x => Qle_bool x (fst p)
  | SRight x => Qle_bool (fst p) x
  | STop y => Qle_bool y (snd p)
  | SBottom y => Qle_bool (snd p) y
  end.

(** Where the segment [p q] meets the line of [s]. *)
Definition cross (s : side) (p q : point) : point :=
  match s with
  | SLeft x | SRight x =>
      (x, Qred (snd p + (snd q - snd p) * ((x - fst p) / (fst q - fst p))))
  | STop y | SBottom y =>
      (Qred (fst p + (fst q - fst p) * ((y - snd p) / (snd q - snd p))), y)
  end.

Fixpoint clip_edges (s : side) (prev : point) (l : list point) : list point :=
  match l with
  | [] => []
  | cur :: l' =>
      (if inside s cur
       then (if inside s prev then [cur] else [cross s prev cur; cur])
       else (if inside s prev then [cross s prev cur] else []))
      ++ clip_edges s cur l'
  end.

Definition clip_side (s : side) (poly : list point) : list point :=
  match poly with
  | [] => []
  | p :: _ => clip_edges s (last poly p) poly
  end.

(** Twice the signed area (shoelace). *)
Fixpoint shoelace (first prev : point) (l : list point) : Q :=
  match l with
  | [] => fst prev * snd first - fst first * snd prev
  | cur :: l' =>
      (fst prev * snd cur - fst cur * snd prev) + shoelace first cur l'
  end.

Definition area2 (poly : list point) : Q :=
  match poly with
  | [] => 0
  | p :: l => shoelace p p l
  end.

(** Modelled from the spec: [pyclipper] is not part of the repository
    sources.  Intersection of a subject with an axis-aligned clip
    rectangle [(x, y), (x2, y), (x2, y2), (x, y2)], edge by edge; exact
    for a convex subject.  An intersection without area yields no ring. *)
Definition rect_intersection (clip subject : list point) : list (list point) :=
  match clip with
  | [(x, y); _; (x2, y2); _] =>
      let r := clip_side (SBottom y2)
                 (clip_side (STop y)
                    (clip_side (SRight x2) (clip_side (SLeft x) subject))) in
      if (length r <? 3)%nat || Qeq_bool (area2 r) 0 then [] else [r]
  | _ => []
  end.

(** [b] stands on the line through [a] and [c], or on one of them. *)
Definition on_line (a b c : point) : bool :=
  Qeq_bool ((snd a - snd b) * (fst b - fst c))
           ((fst a - fst b) * (snd b - snd c)).

(** The vertex at position [i] of a closed path between its neighbours. *)
Definition removable (path : list point) (i : nat) : bool :=
  let n := length path in
  on_line (nth ((i + n - 1) mod n) path (0, 0))
          (nth i path (0, 0))
          (nth ((i + 1) mod n) path (0, 0)).

(** Take out, one at a time, the vertices that stand on the line through
    their neighbours. *)
Fixpoint prune (fuel : nat) (path : list point) : list point :=
  match fuel with
  | O => path
  | S fuel' =>
      match find (removable path) (seq 0 (length path)) with
      | Some i => prune fuel' (firstn i path ++ skipn (S i) path)
      | None => path
      end
  end.

(** Stand-in for pyclipper's [AddPath] on a closed path: the path is
    refused with [ClipperException] when fewer than three vertices are
    left of it; coordinates have no range here. *)
Definition rect_AddPath (path : list point) : outcome unit :=
  if (3 <=? length (prune (length path) path))%nat then Ok tt
  else Raise ClipperException.

(** Stand-in for pyclipper's [Execute] with a rectangle as the clip path. *)
Definition rect_Execute (clip subject : list point)
  : outcome (list (list point)) :=
  Ok (rect_intersection clip subject).

(** *** A cubic Bezier library *)

(** Square root to six decimals, exact on squares of rationals. *)
Definition Qsqrt (q : Q) : Q :=
  Qred (Z.sqrt (Qnum q * QDen q * (1000000 * 1000000))
        # (Qden q * 1000000)).

(** Power-basis coefficients [(ax, bx, cx, x0)] of one coordinate. *)
Definition coefficients (b0 b1 b2 b3 : Q) : Q * Q * Q * Q :=
  let c := 3 * (b1 - b0) in
  let b := 3 * (b2 - b1) - c in
  let a := b3 - b0 - c - b in
  (a, b, c, b0).

Definition cubic (k : Q * Q * Q * Q) (t : Q) : Q :=
  let '(a, b, c, d) := k in Qred (a * (t * t * t) + b * (t * t) + c * t + d).

Definition cubic' (k : Q * Q * Q * Q) (t : Q) : Q :=
  let '(a, b, c, _) := k in Qred (3 * a * (t * t) + 2 * b * t + c).

Definition xs (b : bez) : Q * Q * Q * Q :=
  let '(p0, p1, p2, p3) := b in coefficients (fst p0) (fst p1) (fst p2) (fst p3).

Definition ys (b : bez) : Q * Q * Q * Q :=
  let '(p0, p1, p2, p3) := b in coefficients (snd p0) (snd p1) (snd p2) (snd p3).

(** Modelled from the spec: [lib/inkex/bezier.py] is not among the
    sources.  "Evaluating the curve there": the point at parameter [t]. *)
Definition bezierpointatt (b : bez) (t : Q) : point :=
  (cubic (xs b) t, cubic (ys b) t).

Definition speed (b : bez) (t : Q) : Q :=
  Qsqrt (cubic' (xs b) t * cubic' (xs b) t + cubic' (ys b) t * cubic' (ys b) t).

(** Simpson's rule for the speed on [0, time], eight intervals. *)
Definition bezierlength_to (b : bez) (time : Q) : Q :=
  let h := time / 8 in
  let f k := speed b (inject_Z k * h) in
  Qred ((h / 3) *
        (f 0%Z + 4 * f 1%Z + 2 * f 2%Z + 4 * f 3%Z + 2 * f 4%Z
         + 4 * f 5%Z + 2 * f 6%Z + 4 * f 7%Z + f 8%Z)).

(** Modelled from the spec: [lib/inkex/bezier.py] is not among the
    sources.  "Compute its arc length". *)
Definition bezierlength (b : bez) : Q := bezierlength_to b 1.

Fixpoint bisect (fuel : nat) (b : bez) (targetlen time tdiv : Q) : Q :=
  match fuel with
  | O => time
  | S fuel' =>
      let diff := bezierlength_to b time - targetlen in
      if Qle_bool (Qabs diff) 0.001 then time
      else
        let tdiv := Qred (tdiv / 2) in
        bisect fuel' b targetlen
               (if Qltb diff 0 then Qred (time + tdiv) else Qred (time - tdiv))
               tdiv
  end.

(** Modelled from the spec: [lib/inkex/bezier.py] is not among the
    sources.  "Arc-length-to-parameter inversion": the parameter at the
    fraction [l] of the arc length, by bisection. *)
Definition beziertatlength (b : bez) (l : Q) : Q :=
  bisect 16 b (l * bezierlength b) 1 1.

(** *** Concrete inputs *)

(** Scenario B: one straight segment from (0,0) to (10,0), controls
    (3,0) and (7,0). *)
Definition straight_chain : list node :=
  [((0, 0), (0, 0), (3, 0)); ((7, 0), (10, 0), (10, 0))].

(** An arch from (0,0) to (10,0) followed by a straight segment to (20,0). *)
Definition arch_chain : list node :=
  [((0, 0), (0, 0), (0, 10)); ((10, 10), (10, 0), (13, 0));
   ((17, 0), (20, 0), (20, 0))].

(** The square of Scenario A and its bounding box. *)
Definition square : list vertex :=
  [(0, 0, red); (10, 0, red); (10, 10, red); (0, 10, red)].

Definition box10 : BoundingBox := mkBoundingBox 0 0 10 10.

(** A triangle that lies outside [box10]. *)
Definition far_triangle : list vertex :=
  [(20, 20, red); (30, 20, red); (20, 30, red)].

(** A cell whose clip produced two rings (the two arms of a U-shaped
    polygon cut by the cell), each triangulated on its own. *)
Definition left_arm : ring :=
  [(0, 10, red); (3, 10, red); (3, 20, red); (0, 20, red)].

Definition right_arm : ring :=
  [(7, 10, red); (10, 10, red); (10, 20, red); (7, 20, red)].

Definition two_arms_clip : clip := mkCell 0 10 10 10 [left_arm; right_arm].

(** Modelled from the spec: [lib/tripy.py] is not among the sources.
    Ear clipping of a convex ring: the fan of triangles at its first
    point. *)
Fixpoint fan (p0 prev : point) (l : list point) : list (point * point * point) :=
  match l with
  | [] => []
  | cur :: l' => (p0, prev, cur) :: fan p0 cur l'
  end.

Definition fan_earclip (points : list point) : list (point * point * point) :=
  match points with
  | p0 :: p1 :: l => fan p0 p1 l
  | _ => []
  end.

Definition two_arms : tclip :=
  mkCell 0 10 10 10
         [mkObject left_arm [(0, 1, 2); (0, 2, 3)]%nat;
          mkObject right_arm [(0, 1, 2); (0, 2, 3)]%nat].

End Reference.

(* ------------------------------------------------------------------ *)
(** ** Errors of the export routines

    [TypeError], [AttributeError] and the bare [Exception] the exporter
    raises, beside the built-in errors of [exn]. *)

Module Py.

Inductive error : Type :=
| Builtin (e : exn)
| TypeError
| AttributeError
| Exception (msg : String.string).

Inductive run (A : Type) : Type :=
| Done (a : A)
| Failed (e : error)
| Unfinished.

Arguments Done {A} a.
Arguments Failed {A} e.
Arguments Unfinished {A}.

Definition lift {A : Type} (m : outcome A) : run A :=
  match m with
  | Ok a => Done a
  | Raise e => Failed (Builtin e)
  | Timeout => Unfinished
  end.

Definition rbind {A B : Type} (m : run A) (k : A -> run B) : run B :=
  match m with
  | Done a => k a
  | Failed e => Failed e
  | Unfinished => Unfinished
  end.

End Py.

Module Messages.
Import String.
Open Scope string_scope.

Definition no_cross : string :=
  "Hill size cross does not cross with out run physic".

End Messages.

(* ------------------------------------------------------------------ *)
(** ** util.py: lengths, sampling by count, nearest point *)

Module Metrics.
Import Num Data Util Sampler Py.
Open Scope Q_scope.

Section Length.

(** [math.sqrt] *)
Variable sqrt : Q -> Q.

(** Body of the loop of [calc_vertices_path_size]; the state is
    [(first, distance)]. *)
Definition size_step (st : option point * Q) (vertex : point) : option point * Q :=
  (Some vertex,
   match fst st with
   | Some first =>
       snd st + sqrt ((fst first - fst vertex) ^ 2 + (snd first - snd vertex) ^ 2)
   | None => snd st
   end).

Definition calc_vertices_path_size (vertices : list point) : Q :=
  snd (fold_left size_step vertices (None, 0)).

(** The sum of the distances between consecutive points. *)
Fixpoint path_sum (vertices : list point) : Q :=
  match vertices with
  | p :: ((q :: _) as rest) => point_point_dst sqrt p q + path_sum rest
  | _ => 0
  end.

(** The loop of [generate_hill_model] over [out_run_path]: it stops at the
    first segment that meets the cross-section [cross0 cross1].  The
    result is [(intersect_point, distance)]. *)
Fixpoint hill_size_loop (cross0 cross1 : point) (out_run_path : list point)
    (first : option point) (distance : Q) : option point * Q :=
  match out_run_path with
  | [] => (None, distance)
  | vertex :: rest =>
      match first with
      | Some first =>
          match intersect_segments first vertex cross0 cross1 with
          | Some intersect_point =>
              (Some intersect_point,
               distance + point_point_dst sqrt first intersect_point)
          | None =>
              hill_size_loop cross0 cross1 rest (Some vertex)
                             (distance + point_point_dst sqrt first vertex)
          end
      | None => hill_size_loop cross0 cross1 rest (Some vertex) distance
      end
  end.

(** [hillSizePathLength], or the exception raised when the loop ends with
    [intersect_point is None]. *)
Definition hill_size_path_length (out_run_path : list point)
    (cross0 cross1 : point) : run Q :=
  match hill_size_loop cross0 cross1 out_run_path None 0 with
  | (Some _, distance) => Done distance
  | (None, _) =>
      Failed (Exception Messages.no_cross)
  end.

End Length.

(** No segment of the path meets the cross-section. *)
Definition never_meets (path : list point) (cross0 cross1 : point) : Prop :=
  forall (i : nat) (a b : point),
    nth_error path i = Some a -> nth_error path (S i) = Some b ->
    intersect_segments a b cross0 cross1 = None.

Section CspLength.

(** [bezier.cspseglength] *)
Variable cspseglength : node -> node -> Q.

(** The [while i <= len(csp_sub) - 1] of [csp_sub_length]; [n] counts the
    iterations left. *)
Fixpoint length_loop (csp_sub : list node) (n : nat) (i : nat) (length : Q)
  : outcome Q :=
  match n with
  | O => Ok length
  | S n' =>
      sp1 <- index csp_sub (i - 1) ;;
      sp2 <- index csp_sub i ;;
      length_loop csp_sub n' (i + 1) (length + cspseglength sp1 sp2)
  end.

Definition csp_sub_length (csp_sub : list node) : outcome Q :=
  length_loop csp_sub (List.length csp_sub - 1) 1%nat 0.

End CspLength.

Section Count.

(** [bezier.bezierpointatt] and [bezier.beziertatlength]. *)
Variable bezierpointatt : bez -> Q -> point.
Variable beziertatlength : bez -> Q -> Q.

(** [range(n)] *)
Definition range (n : Z) : list Z := map Z.of_nat (seq 0 (Z.to_nat n)).

(** [for node in range(nodes_between)]: the quotient is Python 3's true
    division. *)
Definition between_points (bez : bez) (nodes_between : Z) (points : list point)
  : list point :=
  fold_left
    (fun points node =>
       let percentage := inject_Z (node + 1) / inject_Z (nodes_between + 1) in
       let time := beziertatlength bez percentage in
       let point := bezierpointatt bez time in
       points ++ [point])
    (range nodes_between) points.

(** The [while] of [csp_sub_points_nodes_between]. *)
Fixpoint while_nodes (csp_sub : list node) (nodes_between : Z) (add_last : bool)
    (n : nat) (i : nat) (points : list point) : outcome (list point) :=
  match n with
  | O => Ok points
  | S n' =>
      sp1 <- index csp_sub (i - 1) ;;
      sp2 <- index csp_sub i ;;
      let bez := getbez sp1 sp2 in
      let points := points ++ [bezierpointatt bez 0] in
      let points := between_points bez nodes_between points in
      let i := (i + 1)%nat in
      let points :=
        if add_last && (i =? List.length csp_sub)%nat
        then points ++ [bezierpointatt bez 1] else points in
      while_nodes csp_sub nodes_between add_last n' i points
  end.

Definition csp_sub_points_nodes_between (csp_sub : list node)
    (nodes_between : Z) (add_last : bool) : outcome (list point) :=
  while_nodes csp_sub nodes_between add_last (List.length csp_sub - 1) 1%nat [].

(** What sampling by count emits, segment by segment: the start point,
    then one point for each of the arc-length fractions
    [1/(n+1), ..., n/(n+1)]. *)
Definition count_segment_points (bez : bez) (nodes_between : Z) : list point :=
  bezierpointatt bez 0
  :: map (fun node =>
            bezierpointatt bez
              (beziertatlength bez
                 (inject_Z (node + 1) / inject_Z (nodes_between + 1))))
         (range nodes_between).

Fixpoint count_chain_points (csp_sub : list node) (nodes_between : Z)
    (add_last : bool) : list point :=
  match csp_sub with
  | sp1 :: ((sp2 :: rest) as tl) =>
      count_segment_points (getbez sp1 sp2) nodes_between
      ++ (match rest with
          | [] => if add_last then [bezierpointatt (getbez sp1 sp2) 1] else []
          | _ :: _ => []
          end)
      ++ count_chain_points tl nodes_between add_last
  | _ => []
  end.

(** [generate_polygon_vertices_nodes_between] on the sub-paths of
    [node.path.to_superpath()]: the [return] sits inside the loop, and
    falling out of an empty loop returns [None]. *)
Definition generate_polygon_vertices_nodes_between
    (superpath : list (list node)) (nodes_between : Z) (add_last : bool)
  : option (outcome (list point)) :=
  match superpath with
  | [] => None
  | sub :: _ => Some (csp_sub_points_nodes_between sub nodes_between add_last)
  end.

End Count.

Section Special.

Variable bezierpointatt : bez -> Q -> point.
Variable bezierlength : bez -> Q.
Variable beziertatlength : bez -> Q -> Q.
Variable sqrt : Q -> Q.

(** [node.composed_transform().apply_to_point] *)
Variable apply_to_point : point -> point.

(** [generate_polygon_vertices_dst]: as above, the first sub-path only. *)
Definition generate_polygon_vertices_dst (fuel : nat)
    (superpath : list (list node)) (point_dst : Q) (add_last : bool)
  : option (outcome (list point)) :=
  match superpath with
  | [] => None
  | sub :: _ =>
      Some (csp_sub_points_dst bezierpointatt bezierlength beziertatlength sqrt
                               fuel sub point_dst add_last)
  end.

(** [absolute_points]; iterating over [None] is a [TypeError]. *)
Definition absolute_points (vertices : option (list point)) : run (list point) :=
  match vertices with
  | None => Failed TypeError
  | Some vertices =>
      let vertices := map apply_to_point vertices in
      Done (map (fun point : point => (fst point, snd point)) vertices)
  end.

(** [get_special_path_points] once [len(path) == 1] holds: sample the
    path with [add_last = True], make the points absolute, orient them. *)
Definition get_special_path_points (fuel : nat) (superpath : list (list node))
    (dst : Q) : run (list point) :=
  match generate_polygon_vertices_dst fuel superpath dst true with
  | None => rbind (absolute_points None) (fun vertices =>
              lift (ensure_right_pointing_vertices vertices))
  | Some sampled =>
      rbind (lift sampled) (fun points =>
      rbind (absolute_points (Some points)) (fun vertices =>
      lift (ensure_right_pointing_vertices vertices)))
  end.

End Special.

(** *** nearest_segment_point *)

(** The two kinds of point object the code base handles: a plain list
    [[x, y]], which has indices only, and an inkex vector, which has
    indices and the attributes [.x] and [.y]. *)
Inductive pypoint : Type :=
| PList (x y : Q)
| PVector (x y : Q).

(** [p[0]], [p[1]] *)
Definition item0 (p : pypoint) : Q :=
  match p with PList x _ | PVector x _ => x end.
Definition item1 (p : pypoint) : Q :=
  match p with PList _ y | PVector _ y => y end.

(** [p.x], [p.y] *)
Definition attr_x (p : pypoint) : run Q :=
  match p with PList _ _ => Failed AttributeError | PVector x _ => Done x end.
Definition attr_y (p : pypoint) : run Q :=
  match p with PList _ _ => Failed AttributeError | PVector _ y => Done y end.

(** [[start.x + t * (end.x - start.x), start.y + t * (end.y - start.y)]] *)
Definition interior_point (start end_ : pypoint) (t : Q) : run pypoint :=
  rbind (attr_x start) (fun sx =>
  rbind (attr_x end_) (fun ex =>
  rbind (attr_x start) (fun sx' =>
  rbind (attr_y start) (fun sy =>
  rbind (attr_y end_) (fun ey =>
  rbind (attr_y start) (fun sy' =>
  Done (PList (sx + t * (ex - sx')) (sy + t * (ey - sy')))
  )))))).

Definition nearest_segment_point (start end_ point : pypoint) : run pypoint :=
  let length2 :=
    (item0 start - item0 end_) ^ 2 + (item1 start - item1 end_) ^ 2 in
  if Qeq_bool length2 0 then Done start else
  let t := ((item0 point - item0 start) * (item0 end_ - item0 start)
            + (item1 point - item1 start) * (item1 end_ - item1 start))
           / length2 in
  if Qltb t 0 then Done start else
  if Qltb 1 t then Done end_ else
  interior_point start end_ t.

(** Squared distance between two point objects. *)
Definition dist2 (p q : pypoint) : Q :=
  (item0 p - item0 q) * (item0 p - item0 q)
  + (item1 p - item1 q) * (item1 p - item1 q).

(** The point of the segment at parameter [s]. *)
Definition along (start end_ : pypoint) (s : Q) : pypoint :=
  PList (item0 start + s * (item0 end_ - item0 start))
        (item1 start + s * (item1 end_ - item1 start)).

End Metrics.

(* ------------------------------------------------------------------ *)
(** ** psjhill_exporter.py: from a polygon to the cells of a shape *)

Module Pipeline.
Import Num Data Clipper Triangulator Exporter.
Open Scope Q_scope.

Section SubShapes.

Variable AddPath : list point -> outcome unit.
Variable Execute : list point -> list point -> outcome (list (list point)).
Variable earclip : list point -> list (point * point * point).

(** The ['subShapes'] of a single shape: [clip_polygon] with its default
    [optimize=True], [triangulate_polygon], then the flattening loop. *)
Definition shape_sub_shapes (fuel : nat) (vertices : list vertex)
    (bbox : BoundingBox) (cut_grid_size : Q) : outcome (list mesh) :=
  clipped <- clip_polygon AddPath Execute fuel vertices bbox cut_grid_size true ;;
  triangulated <- triangulate_polygon earclip clipped ;;
  Ok (map flatten_shape triangulated).

(** The ['subShapes'] of a shape group. *)
Definition group_sub_shapes (fuel : nat) (shapes : list (list vertex))
    (bbox : BoundingBox) (cut_grid_size : Q) : outcome (list mesh) :=
  clipped <- clip_polygons AddPath Execute fuel shapes bbox cut_grid_size ;;
  triangulated <- triangulate_polygon earclip clipped ;;
  Ok (map flatten_shape_group triangulated).

End SubShapes.

(** Every component of every triple is below [n]. *)
Definition triple_below (n : nat) (t : triple) : Prop :=
  (fst (fst t) < n)%nat /\ (snd (fst t) < n)%nat /\ (snd t < n)%nat.

(** Every index of an object is a position in its own ring. *)
Definition object_in_bounds (o : object) : Prop :=
  Forall (triple_below (length (o_vertices o))) (o_indicies o).

(** The corners [earclip] returns are points it was given. *)
Definition corners_of_input (earclip : list point -> list (point * point * point))
  : Prop :=
  forall (points : list point) (t : point * point * point),
    In t (earclip points) ->
    In (fst (fst t)) points /\ In (snd (fst t)) points /\ In (snd t) points.

Definition indices_in_bounds (m : mesh) : Prop :=
  Forall (triple_below (length (mesh_vertices m))) (mesh_indicies m).

End Pipeline.

(* ------------------------------------------------------------------ *)
(** ** Colours of a clip result *)

Module Colouring.
Import Data.

(** Every vertex of every ring of the cell carries the colour [col]. *)
Definition cell_coloured (col : color) (c : clip) : Prop :=
  Forall (Forall (fun v : vertex => vcolor v = col)) (vertices c).

End Colouring.

(* ------------------------------------------------------------------ *)
(** ** More stand-ins *)

Module Reference2.
Import Num Data Sampler Reference.
Open Scope Q_scope.

(** A square root that does not depend on how a rational is written. *)
Definition Qsqrt_red (q : Q) : Q := Qsqrt (Qred q).

(** A translation, for [apply_to_point]. *)
Definition shift (p : point) : point := (fst p + 100, snd p + 50).

(** Chord length, for [cspseglength]. *)
Definition chord (sp1 sp2 : node) : Q :=
  Qsqrt_red ((fst (snd (fst sp1)) - fst (snd (fst sp2))) ^ 2
             + (snd (snd (fst sp1)) - snd (snd (fst sp2))) ^ 2).

(** A square whose vertices disagree on the colour. *)
Definition two_tone : list vertex :=
  [(0, 0, Colors.red); (10, 0, Colors.blue); (10, 10, Colors.blue);
   (0, 10, Colors.blue)].

(** A path that climbs to the right and the vertical line x = 5. *)
Definition ramp : list point := [(0, 0); (4, 3); (8, 6); (12, 9)].
Definition cross_lo : point := (5, 0).
Definition cross_hi : point := (5, 10).

End Reference2.

(* ================================================================== *)
(** * Theorems *)

Unset Implicit Arguments.

Module NumFacts.
Import Num.
Open Scope Q_scope.

Lemma Qltb_lt (a b : Q) : Qltb a b = true <-> a < b.
Proof.
  unfold Qltb. rewrite negb_true_iff. split; intro H.
  - apply Qnot_le_lt. intro L. apply Qle_bool_iff in L. congruence.
  - destruct (Qle_bool b a) eqn:E; trivial.
    apply Qle_bool_iff in E. exfalso. revert H. now apply Qle_not_lt.
Qed.

Lemma Qltb_ge (a b : Q) : Qltb a b = false <-> b <= a.
Proof.
  unfold Qltb. rewrite negb_false_iff. apply Qle_bool_iff.
Qed.

Lemma Qltb_reflect (a b : Q) : reflect (a < b) (Qltb a b).
Proof.
  destruct (Qltb a b) eqn:E; constructor.
  - now apply Qltb_lt.
  - apply Qltb_ge in E. now apply Qle_not_lt.
Qed.

Lemma py_min_cases (a b : Q) :
  (b < a /\ py_min a b = b) \/ (a <= b /\ py_min a b = a).
Proof.
  unfold py_min. destruct (Qltb_reflect b a) as [H|H].
  - now left.
  - right. split; trivial. now apply Qnot_lt_le.
Qed.

Lemma nq_S (n : nat) : nq (S n) == nq n + 1.
Proof.
  unfold nq. rewrite Nat2Z.inj_succ. unfold Z.succ. now rewrite inject_Z_plus.
Qed.

(** [ceil(len / s)] steps of size [s] reach [len]. *)
Lemma ceiling_enough (len s : Q) :
  0 < s -> len <= nq (Z.to_nat (Qceiling (len / s))) * s.
Proof.
  intro Hs.
  assert (E : len == len / s * s)
    by (field; intro Z; rewrite Z in Hs; now apply Qlt_irrefl in Hs).
  rewrite E at 1. apply Qmult_le_compat_r; [|now apply Qlt_le_weak].
  eapply Qle_trans; [apply Qle_ceiling|].
  unfold nq. rewrite <- Zle_Qle. lia.
Qed.

End NumFacts.

(* ------------------------------------------------------------------ *)
(** ** Path metrics *)

Module UtilFacts.
Import Num Data Util NumFacts.
Open Scope Q_scope.

Example ensure_right_pointing_increasing :
  ensure_right_pointing_vertices [(1, 0); (2, 5); (0, 7)]
  = Ok [(1, 0); (2, 5); (0, 7)].
Proof. reflexivity. Qed.

Example ensure_right_pointing_decreasing :
  ensure_right_pointing_vertices [(3, 0); (2, 5); (9, 7)]
  = Ok [(9, 7); (2, 5); (3, 0)].
Proof. reflexivity. Qed.

Example ensure_right_pointing_short :
  ensure_right_pointing_vertices [(3, 0)] = Raise IndexError.
Proof. reflexivity. Qed.

(** C4 (as stated, refuted): with equal x-coordinates of the first two
    points the claim wants the sequence unchanged; the code takes its
    [else] branch and returns the reversed sequence, which differs here. *)
Lemma orient_equal_x_reverses :
  fst (0, 0) == fst (0, 1) /\
  ~ fst (0, 1) < fst (0, 0) /\
  ensure_right_pointing_vertices [(0, 0); (0, 1)] = Ok [(0, 1); (0, 0)] /\
  ensure_right_pointing_vertices [(0, 0); (0, 1)] <> Ok [(0, 0); (0, 1)].
Proof.
  repeat split.
  - intro H. vm_compute in H. discriminate.
  - intro H. vm_compute in H. discriminate.
Qed.

(** C4 (amended): on a list with at least two points,
    [ensure_right_pointing_vertices] returns the sequence unchanged when
    the second point's x is strictly greater than the first point's x, and
    returns the reversed sequence in every other case, equal x included. *)
Theorem ensure_right_pointing_vertices_spec :
  forall (p0 p1 : point) (rest : list point),
    (fst p0 < fst p1 ->
     ensure_right_pointing_vertices (p0 :: p1 :: rest)
     = Ok (p0 :: p1 :: rest)) /\
    (fst p1 <= fst p0 ->
     ensure_right_pointing_vertices (p0 :: p1 :: rest)
     = Ok (rev (p0 :: p1 :: rest))).
Proof.
  intros p0 p1 rest. unfold ensure_right_pointing_vertices, index.
  cbn [nth_error bind]. split; intro H.
  - apply Qltb_lt in H. now rewrite H.
  - apply Qltb_ge in H. now rewrite H.
Qed.

Lemma ensure_right_pointing_vertices_spec_witness :
  ensure_right_pointing_vertices [(1, 0); (4, 2); (2, 2)]
  = Ok [(1, 0); (4, 2); (2, 2)] /\
  ensure_right_pointing_vertices [(4, 0); (4, 2); (2, 2)]
  = Ok [(2, 2); (4, 2); (4, 0)].
Proof.
  split.
  - apply (ensure_right_pointing_vertices_spec (1, 0) (4, 2) [(2, 2)]).
    reflexivity.
  - apply (ensure_right_pointing_vertices_spec (4, 0) (4, 2) [(2, 2)]).
    discriminate.
Defined.

Lemma no_hit_iff (p1 p2 p3 p4 : point) :
  intersect_segments p1 p2 p3 p4 = None <-> no_hit p1 p2 p3 p4.
Proof.
  unfold no_hit, intersect_segments. cbv zeta.
  fold (seg_d p1 p2 p3 p4). fold (seg_ua p1 p2 p3 p4).
  fold (seg_ub p1 p2 p3 p4).
  destruct (Qeq_bool (seg_d p1 p2 p3 p4) 0) eqn:Ed.
  { apply Qeq_bool_iff in Ed. tauto. }
  apply Qeq_bool_neq in Ed.
  destruct (Qltb_reflect (seg_ua p1 p2 p3 p4) 0) as [A0|A0]; cbn [orb].
  { tauto. }
  destruct (Qltb_reflect 1 (seg_ua p1 p2 p3 p4)) as [A1|A1].
  { tauto. }
  destruct (Qltb_reflect (seg_ub p1 p2 p3 p4) 0) as [B0|B0]; cbn [orb].
  { tauto. }
  destruct (Qltb_reflect 1 (seg_ub p1 p2 p3 p4)) as [B1|B1].
  { tauto. }
  split; [discriminate | tauto].
Qed.

Lemma hit_point (p1 p2 p3 p4 q : point) :
  intersect_segments p1 p2 p3 p4 = Some q ->
  q = (fst p1 + (fst p2 - fst p1) * seg_ua p1 p2 p3 p4,
       snd p1 + (snd p2 - snd p1) * seg_ua p1 p2 p3 p4).
Proof.
  unfold intersect_segments. cbv zeta.
  fold (seg_d p1 p2 p3 p4). fold (seg_ua p1 p2 p3 p4).
  fold (seg_ub p1 p2 p3 p4).
  destruct (Qeq_bool _ 0); [discriminate|].
  destruct (_ || _); [discriminate|].
  destruct (_ || _); [discriminate|].
  congruence.
Qed.

(** C5: [intersect_segments] returns [None] exactly when the determinant
    is zero or one of ua, ub is outside [0, 1]; otherwise it returns
    a1 + ua (a2 - a1); on the diagonals of the 10 x 10 square it returns
    the point (5, 5). *)
Theorem intersect_segments_spec :
  (forall p1 p2 p3 p4 : point,
     (intersect_segments p1 p2 p3 p4 = None <-> no_hit p1 p2 p3 p4) /\
     (~ no_hit p1 p2 p3 p4 ->
      intersect_segments p1 p2 p3 p4 =
      Some (fst p1 + (fst p2 - fst p1) * seg_ua p1 p2 p3 p4,
            snd p1 + (snd p2 - snd p1) * seg_ua p1 p2 p3 p4))) /\
  (exists q : point,
     intersect_segments (0, 0) (10, 10) (0, 10) (10, 0) = Some q /\
     point_eq q (5, 5)).
Proof.
  split.
  - intros p1 p2 p3 p4. split; [apply no_hit_iff|].
    intro H. rewrite <- no_hit_iff in H.
    destruct (intersect_segments p1 p2 p3 p4) as [q|] eqn:E; [|tauto].
    now rewrite (hit_point _ _ _ _ _ E).
  - eexists. split; [vm_compute; reflexivity|].
    split; reflexivity.
Qed.

Lemma intersect_segments_spec_witness :
  intersect_segments (0, 0) (4, 0) (1, 0 - 1) (1, 1) =
  Some (fst (0, 0) + (fst (4, 0) - fst (0, 0))
                     * seg_ua (0, 0) (4, 0) (1, 0 - 1) (1, 1),
        snd (0, 0) + (snd (4, 0) - snd (0, 0))
                     * seg_ua (0, 0) (4, 0) (1, 0 - 1) (1, 1)).
Proof.
  apply (proj1 intersect_segments_spec (0, 0) (4, 0) (1, 0 - 1) (1, 1)).
  rewrite <- (proj1 (proj1 intersect_segments_spec
                       (0, 0) (4, 0) (1, 0 - 1) (1, 1))).
  vm_compute. discriminate.
Defined.

End UtilFacts.

(* ------------------------------------------------------------------ *)
(** ** Flattening a triangulated cell *)

Module ExporterFacts.
Import Data Triangulator Exporter Reference.

Lemma rebase_fold (start : nat) (l acc : list triple) :
  fold_left (fun acc indice => acc ++ [rebase start indice]) l acc
  = acc ++ map (rebase start) l.
Proof.
  revert acc. induction l as [|t l IH]; intro acc; cbn [fold_left map].
  - now rewrite app_nil_r.
  - rewrite IH, <- app_assoc. reflexivity.
Qed.

Lemma group_fold (objs : list object) (acc : list triple) (start : nat) :
  fold_left
    (fun (st : list triple * nat) (object : object) =>
       let '(new_indicies, start_indice) := st in
       (fold_left (fun acc indice => acc ++ [rebase start_indice indice])
                  (o_indicies object) new_indicies,
        (start_indice + length (o_vertices object))%nat))
    objs (acc, start)
  = (acc ++ rebased_from start objs,
     (start + length (flat_map o_vertices objs))%nat).
Proof.
  revert acc start. induction objs as [|o objs IH]; intros acc start.
  - cbn. now rewrite app_nil_r, Nat.add_0_r.
  - cbn [fold_left rebased_from flat_map]. rewrite rebase_fold, IH.
    rewrite <- app_assoc, length_app, Nat.add_assoc. reflexivity.
Qed.

(** The shape-group branch re-bases: its index list is the re-based one. *)
Lemma flatten_shape_group_rebased (c : tclip) :
  mesh_indicies (flatten_shape_group c) = rebased (objects c) /\
  mesh_vertices (flatten_shape_group c) = flat_map o_vertices (objects c).
Proof.
  unfold flatten_shape_group, mesh_indicies, mesh_vertices, group_indicies.
  cbn [set_payload payload fst snd]. now rewrite group_fold.
Qed.

(** A re-based index finds, in the concatenated buffer, the vertex the
    ring's own index named. *)
Lemma rebased_lookup (pre post : list object) (o : object) (i : nat) :
  (i < length (o_vertices o))%nat ->
  nth_error (flat_map o_vertices (pre ++ o :: post))
            (i + length (flat_map o_vertices pre))
  = nth_error (o_vertices o) i.
Proof.
  intro H. rewrite flat_map_app. cbn [flat_map].
  rewrite nth_error_app2 by lia.
  replace (i + _ - _)%nat with i by lia.
  now rewrite nth_error_app1.
Qed.

Lemma rebased_from_app (pre post : list object) (start : nat) :
  rebased_from start (pre ++ post)
  = rebased_from start pre
    ++ rebased_from (start + length (flat_map o_vertices pre)) post.
Proof.
  revert start. induction pre as [|o pre IH]; intro start; cbn.
  - now rewrite Nat.add_0_r.
  - rewrite IH, <- app_assoc, length_app, Nat.add_assoc. reflexivity.
Qed.

Example two_arms_triangulated :
  triangulate_polygon fan_earclip [two_arms_clip] = Ok [two_arms].
Proof. vm_compute. reflexivity. Qed.

(** C2 (code defect): a cell with two rings, flattened by the
    single-shape branch.  The vertex buffer is the concatenation of both
    rings, but the index triples of the second ring are copied without
    the offset 4, so they name vertices of the first ring; the shape-group
    branch applies the offset to the same cell. *)
Theorem flatten_shape_not_rebased :
  mesh_vertices (flatten_shape two_arms) = left_arm ++ right_arm /\
  mesh_indicies (flatten_shape two_arms)
  = [(0, 1, 2); (0, 2, 3); (0, 1, 2); (0, 2, 3)]%nat /\
  rebased (objects two_arms)
  = [(0, 1, 2); (0, 2, 3); (4, 5, 6); (4, 6, 7)]%nat /\
  mesh_indicies (flatten_shape_group two_arms) = rebased (objects two_arms) /\
  mesh_indicies (flatten_shape two_arms) <> rebased (objects two_arms) /\
  nth_error (mesh_vertices (flatten_shape two_arms)) 0 = nth_error left_arm 0 /\
  nth_error (mesh_vertices (flatten_shape two_arms)) 0 <> nth_error right_arm 0.
Proof.
  repeat split; try reflexivity.
  - intro H. vm_compute in H. discriminate.
  - intro H. vm_compute in H. discriminate.
Qed.

End ExporterFacts.

(* ------------------------------------------------------------------ *)
(** ** Grid clipping *)

Module ClipperFacts.
Import Num Data Clipper NumFacts.
Open Scope Q_scope.

Lemma steps_enough (lo hi g : Q) : 0 < g -> hi - lo <= nq (steps lo hi g) * g.
Proof. intro Hg. unfold steps. now apply ceiling_enough. Qed.

(** *** Positions along one axis *)

Lemma axis_from_bounds (hi g : Q) :
  0 < g ->
  forall (bound : nat) (x a : Q),
    In a (axis_from bound x hi g) -> x <= a /\ a < hi.
Proof.
  intros Hg bound. induction bound as [|bound IH]; intros x a H;
    cbn [axis_from] in H; [contradiction|].
  destruct (Qltb_reflect x hi) as [Hx|Hx]; [|contradiction].
  destruct H as [<-|H].
  - split; [lra | exact Hx].
  - apply IH in H. lra.
Qed.

Lemma axis_from_cover (hi g : Q) :
  0 < g ->
  forall (bound : nat) (x p : Q),
    hi - x <= nq bound * g -> x < hi -> x <= p <= hi ->
    exists a, In a (axis_from bound x hi g) /\ a <= p <= py_min (a + g) hi.
Proof.
  intros Hg bound. induction bound as [|bound IH]; intros x p Hb Hx Hp.
  - change (nq 0) with 0 in Hb. lra.
  - cbn [axis_from]. rewrite (proj2 (Qltb_lt x hi) Hx).
    destruct (Qlt_le_dec (x + g) p) as [Hlt|Hle].
    + destruct (IH (x + g) p) as [a [Ha Hpa]].
      * rewrite nq_S in Hb. lra.
      * lra.
      * lra.
      * exists a. split; [now right | exact Hpa].
    + exists x. split; [now left|].
      destruct (py_min_cases (x + g) hi) as [[_ ->]|[_ ->]]; lra.
Qed.

Lemma axis_from_gaps (hi g : Q) :
  0 < g ->
  forall (bound : nat) (x : Q),
    ForallOrdPairs (fun a b => a + g <= b) (axis_from bound x hi g).
Proof.
  intros Hg bound. induction bound as [|bound IH]; intro x; cbn [axis_from].
  - constructor.
  - destruct (Qltb x hi); constructor; [|apply IH].
    apply Forall_forall. intros b Hb.
    now apply (axis_from_bounds hi g Hg) in Hb.
Qed.

Lemma clamped_at (a hi g : Q) :
  0 < g -> a < hi -> clamped a (py_min (a + g) hi - a) g hi.
Proof.
  intros Hg Ha. unfold clamped.
  destruct (py_min_cases (a + g) hi) as [[H ->]|[H ->]];
    repeat split; lra.
Qed.

(** *** Ordered pairs of a list *)

Lemma FOP_app {A : Type} (R : A -> A -> Prop) (l1 l2 : list A) :
  ForallOrdPairs R l1 -> ForallOrdPairs R l2 ->
  (forall a b, In a l1 -> In b l2 -> R a b) ->
  ForallOrdPairs R (l1 ++ l2).
Proof.
  induction 1 as [|a l1 Ha H1 IH]; intros H2 H12; cbn [app]; trivial.
  constructor.
  - apply Forall_app. split; trivial.
    apply Forall_forall. intros b Hb. apply H12; [now left | exact Hb].
  - apply IH; trivial. intros c d Hc Hd. apply H12; [now right | exact Hd].
Qed.

Lemma FOP_map {A B : Type} (R : B -> B -> Prop) (f : A -> B) (l : list A) :
  ForallOrdPairs (fun a b => R (f a) (f b)) l -> ForallOrdPairs R (map f l).
Proof.
  induction 1 as [|a l Ha H IH]; cbn [map]; constructor; trivial.
  apply Forall_forall. intros b Hb. apply in_map_iff in Hb as [c [<- Hc]].
  rewrite Forall_forall in Ha. now apply Ha.
Qed.

Lemma FOP_flat_map {A B : Type} (S : A -> A -> Prop) (R : B -> B -> Prop)
    (f : A -> list B) (l : list A) :
  ForallOrdPairs S l ->
  (forall a, In a l -> ForallOrdPairs R (f a)) ->
  (forall a b c d, S a b -> In c (f a) -> In d (f b) -> R c d) ->
  ForallOrdPairs R (flat_map f l).
Proof.
  intros HS Hin Hx. induction HS as [|a l Ha H IH]; cbn [flat_map].
  - constructor.
  - apply FOP_app.
    + apply Hin. now left.
    + apply IH. intros b Hb. apply Hin. now right.
    + intros c d Hc Hd. apply in_flat_map in Hd as [b [Hb Hd]].
      rewrite Forall_forall in Ha. exact (Hx a b c d (Ha b Hb) Hc Hd).
Qed.

Lemma FOP_weaken {A : Type} (R S : A -> A -> Prop) (l : list A) :
  (forall a b, In a l -> In b l -> R a b -> S a b) ->
  ForallOrdPairs R l -> ForallOrdPairs S l.
Proof.
  intros Himp H. induction H as [|a l Ha H IH]; constructor.
  - rewrite Forall_forall in *. intros b Hb.
    apply Himp; [now left | now right | now apply Ha].
  - apply IH. intros b c Hb Hc. apply Himp; now right.
Qed.

Section Runs.

Variable AddPath : list point -> outcome unit.
Variable Execute : list point -> list point -> outcome (list (list point)).

Lemma add_color_ok (v0 : vertex) (vs : list vertex) (solution : list (list point)) :
  add_color (v0 :: vs) solution
  = Ok (map (map (fun point : point => (fst point, snd point, vcolor v0))) solution).
Proof.
  unfold add_color. induction solution as [|o sol IH]; cbn [mapM map]; trivial.
  assert (E : mapM (fun point : point =>
                      v <- index (v0 :: vs) 0 ;; Ok (fst point, snd point, vcolor v)) o
              = Ok (map (fun point : point => (fst point, snd point, vcolor v0)) o)).
  { induction o as [|p o IHo]; cbn [mapM map]; trivial.
    rewrite IHo. reflexivity. }
  rewrite E. cbn [bind]. rewrite IH. reflexivity.
Qed.

Lemma add_color_cases (vertices : list vertex) (solution : list (list point)) :
  (exists rings, add_color vertices solution = Ok rings) \/
  add_color vertices solution = Raise IndexError.
Proof.
  destruct vertices as [|v0 vs].
  - unfold add_color. induction solution as [|o sol IH]; cbn [mapM].
    + left. eexists. reflexivity.
    + destruct o as [|p o]; cbn [mapM bind].
      * destruct IH as [[r ->]| ->]; cbn [bind]; [left; eexists; reflexivity | now right].
      * now right.
  - left. eexists. apply add_color_ok.
Qed.

Lemma add_color_returned (vertices : list vertex)
    (solution : list (list point)) (rings : list ring) :
  add_color vertices solution = Ok rings ->
  rings
  = map (map (fun point : point =>
                (fst point, snd point,
                 match vertices with
                 | v0 :: _ => vcolor v0
                 | [] => String.EmptyString
                 end)))
        solution.
Proof.
  destruct vertices as [|v0 vs].
  - unfold add_color. revert rings.
    induction solution as [|o sol IH]; intros rings H; cbn [mapM] in H.
    + now injection H as <-.
    + destruct o as [|p o]; [|discriminate]. cbn [mapM bind] in H.
      destruct (mapM _ sol) as [r| |]; cbn [bind] in H; try discriminate.
      injection H as <-. cbn [map]. f_equal. now apply IH.
  - rewrite add_color_ok. now intros [= <-].
Qed.

Lemma is_ok_unit (m : outcome unit) : is_ok m = true -> m = Ok tt.
Proof. destruct m as [[]| |]; cbn; congruence. Qed.

Lemma is_ok_ex {A : Type} (m : outcome A) :
  is_ok m = true -> exists a, m = Ok a.
Proof. destruct m as [a| |]; cbn; try discriminate. now exists a. Qed.

Lemma solve_ok (v0 : vertex) (vs : list vertex) (bb : BoundingBox) (g x y : Q) :
  returns_at AddPath Execute (v0 :: vs) x y
             (py_min (x + g) (left bb + width bb))
             (py_min (y + g) (top bb + height bb)) = true ->
  solve AddPath Execute (v0 :: vs) x y
        (py_min (x + g) (left bb + width bb))
        (py_min (y + g) (top bb + height bb))
  = Ok (rings_of Execute (v0 :: vs) bb g x y).
Proof.
  unfold returns_at, solve, rings_of. cbv zeta. intro H.
  apply andb_prop in H as [H H3]. apply andb_prop in H as [H1 H2].
  apply is_ok_unit in H1, H2. apply is_ok_ex in H3 as [s H3].
  rewrite H1, H2, H3. cbn [bind]. apply add_color_ok.
Qed.

(** A cell that was solved: pyclipper returned there, and the rings are
    its solution with the colour added. *)
Lemma solve_returned (vertices : list vertex) (bb : BoundingBox) (g x y : Q)
    (rings : list ring) :
  solve AddPath Execute vertices x y
        (py_min (x + g) (left bb + width bb))
        (py_min (y + g) (top bb + height bb))
  = Ok rings ->
  rings = rings_of Execute vertices bb g x y /\
  returns_at AddPath Execute vertices x y
             (py_min (x + g) (left bb + width bb))
             (py_min (y + g) (top bb + height bb)) = true.
Proof.
  unfold returns_at, solve, rings_of. cbv zeta. intro H.
  destruct (AddPath [(x, y); _; _; _]) as [u1| |]; try discriminate.
  cbn [bind] in H.
  destruct (AddPath (map (fun verticle : vertex => (vx verticle, vy verticle))
                         vertices)) as [u2| |]; try discriminate.
  cbn [bind] in H.
  destruct (Execute _ _) as [s| |]; try discriminate. cbn [bind] in H.
  split; [now apply add_color_returned | reflexivity].
Qed.

(** *** A grid size that is not positive *)







(** *** A positive grid size *)

Lemma while_y_axis (v0 : vertex) (vs : list vertex) (bb : BoundingBox) (g x : Q) :
  0 < g ->
  forall (bound fuel : nat) (y : Q) (output : list clip),
    top bb + height bb - y <= nq bound * g ->
    (length (axis_from bound y (top bb + height bb) g) < fuel)%nat ->
    forallb (fun y => returns_at AddPath Execute (v0 :: vs) x y
                                 (py_min (x + g) (left bb + width bb))
                                 (py_min (y + g) (top bb + height bb)))
            (axis_from bound y (top bb + height bb) g) = true ->
    while_y AddPath Execute (v0 :: vs) bb g false fuel x
            (py_min (x + g) (left bb + width bb)) y output
    = Ok (output
          ++ map (fun y => cell_at bb g x y
                             (rings_of Execute (v0 :: vs) bb g x y))
                 (axis_from bound y (top bb + height bb) g)).
Proof.
  intros Hg bound. induction bound as [|bound IH]; intros fuel y output Hb Hf Hr;
    (destruct fuel as [|fuel]; [cbn in Hf; lia|]); cbn [while_y axis_from].
  - assert (E : Qltb y (top bb + height bb) = false).
    { apply Qltb_ge. change (nq 0) with 0 in Hb. lra. }
    rewrite E. cbn [map]. now rewrite app_nil_r.
  - cbn [axis_from] in Hf, Hr.
    destruct (Qltb_reflect y (top bb + height bb)) as [Hy|Hy].
    + cbn [forallb] in Hr. apply andb_prop in Hr as [H1 H2].
      rewrite solve_ok by exact H1. cbn [bind negb orb]. rewrite orb_true_r.
      cbn [length] in Hf. rewrite IH.
      * cbn [map]. rewrite <- app_assoc. reflexivity.
      * rewrite nq_S in Hb. lra.
      * lia.
      * exact H2.
    + cbn [map]. now rewrite app_nil_r.
Qed.

Lemma while_x_axis (v0 : vertex) (vs : list vertex) (bb : BoundingBox) (g : Q) :
  0 < g ->
  forall (bound fuel : nat) (x : Q) (output : list clip),
    left bb + width bb - x <= nq bound * g ->
    (length (axis_from bound x (left bb + width bb) g)
     + length (rows bb g) < fuel)%nat ->
    forallb (fun x =>
               forallb (fun y =>
                          returns_at AddPath Execute (v0 :: vs) x y
                                     (py_min (x + g) (left bb + width bb))
                                     (py_min (y + g) (top bb + height bb)))
                       (rows bb g))
            (axis_from bound x (left bb + width bb) g) = true ->
    while_x AddPath Execute (v0 :: vs) bb g false fuel x output
    = Ok (output
          ++ flat_map
               (fun x =>
                  map (fun y => cell_at bb g x y
                                  (rings_of Execute (v0 :: vs) bb g x y))
                      (rows bb g))
               (axis_from bound x (left bb + width bb) g)).
Proof.
  intros Hg bound. induction bound as [|bound IH]; intros fuel x output Hb Hf Hr;
    (destruct fuel as [|fuel]; [cbn in Hf; lia|]); cbn [while_x axis_from].
  - assert (E : Qltb x (left bb + width bb) = false).
    { apply Qltb_ge. change (nq 0) with 0 in Hb. lra. }
    rewrite E. cbn [flat_map]. now rewrite app_nil_r.
  - cbn [axis_from] in Hf, Hr.
    destruct (Qltb_reflect x (left bb + width bb)) as [Hx|Hx].
    + cbn [length] in Hf. cbn [forallb] in Hr.
      apply andb_prop in Hr as [H1 H2].
      rewrite (while_y_axis v0 vs bb g x Hg (steps (top bb) (top bb + height bb) g)).
      * cbn [bind]. rewrite IH.
        -- cbn [flat_map]. rewrite <- app_assoc. reflexivity.
        -- rewrite nq_S in Hb. lra.
        -- lia.
        -- exact H2.
      * pose proof (steps_enough (top bb) (top bb + height bb) g Hg). lra.
      * fold (axis (top bb) (top bb + height bb) g). fold (rows bb g). lia.
      * exact H1.
    + cbn [flat_map]. now rewrite app_nil_r.
Qed.

(** With a positive grid size, a polygon that has a first vertex and a
    pyclipper that returns at every cell, the run with [optimize = false]
    returns, and returns the whole grid. *)
Lemma clip_polygon_grid (v0 : vertex) (vs : list vertex) (bb : BoundingBox)
    (g : Q) (fuel : nat) :
  0 < g -> (fuel_for bb g <= fuel)%nat ->
  pyclipper_returns AddPath Execute (v0 :: vs) bb g = true ->
  clip_polygon AddPath Execute fuel (v0 :: vs) bb g false
  = Ok (grid_cells Execute (v0 :: vs) bb g).
Proof.
  intros Hg Hf Hr. unfold clip_polygon, grid_cells, columns, axis.
  rewrite (while_x_axis v0 vs bb g Hg
             (steps (left bb) (left bb + width bb) g)).
  - reflexivity.
  - pose proof (steps_enough (left bb) (left bb + width bb) g Hg). lra.
  - unfold fuel_for, columns, axis in Hf. lia.
  - exact Hr.
Qed.

(** *** A run that returned *)

Lemma while_y_returned (vertices : list vertex) (bb : BoundingBox) (g x : Q) :
  0 < g ->
  forall (fuel bound : nat) (y : Q) (output cells : list clip),
    top bb + height bb - y <= nq bound * g ->
    while_y AddPath Execute vertices bb g false fuel x
            (py_min (x + g) (left bb + width bb)) y output
    = Ok cells ->
    cells
    = output
      ++ map (fun y => cell_at bb g x y (rings_of Execute vertices bb g x y))
             (axis_from bound y (top bb + height bb) g) /\
    forallb (fun y => returns_at AddPath Execute vertices x y
                                 (py_min (x + g) (left bb + width bb))
                                 (py_min (y + g) (top bb + height bb)))
            (axis_from bound y (top bb + height bb) g) = true.
Proof.
  intros Hg fuel. induction fuel as [|fuel IH];
    intros bound y output cells Hb E; [discriminate|].
  cbn [while_y] in E.
  destruct (Qltb_reflect y (top bb + height bb)) as [Hy|Hy].
  - destruct bound as [|bound]; [change (nq 0) with 0 in Hb; lra|].
    cbn [axis_from]. rewrite (proj2 (Qltb_lt _ _) Hy).
    destruct (solve AddPath Execute vertices x y _ _) as [rings| |] eqn:S;
      try discriminate.
    cbn [bind negb] in E. rewrite orb_true_r in E.
    apply solve_returned in S as [-> R].
    apply (IH bound) in E as [-> F]; [|rewrite nq_S in Hb; lra].
    cbn [map forallb]. rewrite R, F, <- app_assoc. now split.
  - injection E as <-.
    assert (N : axis_from bound y (top bb + height bb) g = []).
    { destruct bound as [|bound]; cbn [axis_from]; trivial.
      apply Qnot_lt_le in Hy. now rewrite (proj2 (Qltb_ge _ _) Hy). }
    rewrite N. cbn [map forallb]. now rewrite app_nil_r.
Qed.

Lemma while_x_returned (vertices : list vertex) (bb : BoundingBox) (g : Q) :
  0 < g ->
  forall (fuel bound : nat) (x : Q) (output cells : list clip),
    left bb + width bb - x <= nq bound * g ->
    while_x AddPath Execute vertices bb g false fuel x output = Ok cells ->
    cells
    = output
      ++ flat_map
           (fun x =>
              map (fun y => cell_at bb g x y
                              (rings_of Execute vertices bb g x y))
                  (rows bb g))
           (axis_from bound x (left bb + width bb) g) /\
    forallb (fun x =>
               forallb (fun y =>
                          returns_at AddPath Execute vertices x y
                                     (py_min (x + g) (left bb + width bb))
                                     (py_min (y + g) (top bb + height bb)))
                       (rows bb g))
            (axis_from bound x (left bb + width bb) g) = true.
Proof.
  intros Hg fuel. induction fuel as [|fuel IH];
    intros bound x output cells Hb E; [discriminate|].
  cbn [while_x] in E.
  destruct (Qltb_reflect x (left bb + width bb)) as [Hx|Hx].
  - destruct bound as [|bound]; [change (nq 0) with 0 in Hb; lra|].
    cbn [axis_from]. rewrite (proj2 (Qltb_lt _ _) Hx).
    destruct (while_y AddPath Execute vertices bb g false fuel x _ _ output)
      as [column| |] eqn:Y; try discriminate.
    cbn [bind] in E.
    apply (while_y_returned vertices bb g x Hg fuel
             (steps (top bb) (top bb + height bb) g)) in Y as [-> R].
    + fold (axis (top bb) (top bb + height bb) g) in R, E.
      fold (rows bb g) in R, E.
      apply (IH bound) in E as [-> F]; [|rewrite nq_S in Hb; lra].
      cbn [flat_map forallb]. rewrite R, F, <- app_assoc.
      now split.
    + pose proof (steps_enough (top bb) (top bb + height bb) g Hg). lra.
  - injection E as <-.
    assert (N : axis_from bound x (left bb + width bb) g = []).
    { destruct bound as [|bound]; cbn [axis_from]; trivial.
      apply Qnot_lt_le in Hx. now rewrite (proj2 (Qltb_ge _ _) Hx). }
    rewrite N. cbn [flat_map forallb]. now rewrite app_nil_r.
Qed.

(** With a positive grid size, a run with [optimize = false] that
    returns gives the whole grid, and pyclipper returned at every cell;
    this for every polygon and whatever pyclipper does. *)
Lemma clip_polygon_returned (vertices : list vertex) (bb : BoundingBox)
    (g : Q) (fuel : nat) (cells : list clip) :
  0 < g ->
  clip_polygon AddPath Execute fuel vertices bb g false = Ok cells ->
  cells = grid_cells Execute vertices bb g /\
  pyclipper_returns AddPath Execute vertices bb g = true.
Proof.
  intros Hg E. unfold clip_polygon in E.
  apply (while_x_returned vertices bb g Hg fuel
           (steps (left bb) (left bb + width bb) g)) in E as [-> R].
  - split; [reflexivity | exact R].
  - pose proof (steps_enough (left bb) (left bb + width bb) g Hg). lra.
Qed.

(** *** [optimize = true] against [optimize = false] *)

Lemma while_y_optimize (vertices : list vertex) (bb : BoundingBox) (g : Q)
    (x x2 : Q) :
  forall (fuel : nat) (y : Q) (output : list clip),
    while_y AddPath Execute vertices bb g true fuel x x2 y (filter keep output)
    = (cells <- while_y AddPath Execute vertices bb g false fuel x x2 y output ;;
       Ok (filter keep cells)).
Proof.
  induction fuel as [|fuel IH]; intros y output; cbn [while_y bind]; trivial.
  destruct (Qltb y (top bb + height bb)); cbn [bind]; trivial.
  destruct (solve AddPath Execute vertices x y x2 _) as [solution| |]; cbn [bind]; trivial.
  rewrite orb_false_r. cbn [negb]. rewrite orb_true_r.
  rewrite <- IH. rewrite filter_app. cbn [filter].
  replace (keep (mkCell x y (x2 - x)
                   (py_min (y + g) (top bb + height bb) - y) solution))
    with (nonempty solution) by reflexivity.
  destruct (nonempty solution); [reflexivity|].
  now rewrite app_nil_r.
Qed.

Lemma while_x_optimize (vertices : list vertex) (bb : BoundingBox) (g : Q) :
  forall (fuel : nat) (x : Q) (output : list clip),
    while_x AddPath Execute vertices bb g true fuel x (filter keep output)
    = (cells <- while_x AddPath Execute vertices bb g false fuel x output ;;
       Ok (filter keep cells)).
Proof.
  induction fuel as [|fuel IH]; intros x output; cbn [while_x bind]; trivial.
  destruct (Qltb x (left bb + width bb)); cbn [bind]; trivial.
  rewrite while_y_optimize.
  destruct (while_y AddPath Execute vertices bb g false fuel x _ _ output)
    as [cells| |]; cbn [bind]; trivial.
Qed.

Lemma clip_polygon_optimize (fuel : nat) (vertices : list vertex)
    (bb : BoundingBox) (g : Q) :
  clip_polygon AddPath Execute fuel vertices bb g true
  = (cells <- clip_polygon AddPath Execute fuel vertices bb g false ;;
     Ok (filter keep cells)).
Proof. unfold clip_polygon. now rewrite <- while_x_optimize. Qed.

(** *** More fuel does not change a finished run *)

Lemma while_y_mono (vertices : list vertex) (bb : BoundingBox) (g : Q)
    (optimize : bool) (x x2 : Q) :
  forall (fuel fuel' : nat) (y : Q) (output : list clip),
    (fuel <= fuel')%nat ->
    while_y AddPath Execute vertices bb g optimize fuel x x2 y output <> Timeout ->
    while_y AddPath Execute vertices bb g optimize fuel' x x2 y output
    = while_y AddPath Execute vertices bb g optimize fuel x x2 y output.
Proof.
  induction fuel as [|fuel IH]; intros fuel' y output Hle Hr.
  - now contradiction Hr.
  - destruct fuel' as [|fuel']; [lia|]. cbn [while_y] in *.
    destruct (Qltb y (top bb + height bb)); trivial.
    destruct (solve AddPath Execute vertices x y x2 _) as [solution| |];
      cbn [bind] in *; trivial.
    apply IH; [lia | exact Hr].
Qed.

Lemma while_x_mono (vertices : list vertex) (bb : BoundingBox) (g : Q)
    (optimize : bool) :
  forall (fuel fuel' : nat) (x : Q) (output : list clip),
    (fuel <= fuel')%nat ->
    while_x AddPath Execute vertices bb g optimize fuel x output <> Timeout ->
    while_x AddPath Execute vertices bb g optimize fuel' x output
    = while_x AddPath Execute vertices bb g optimize fuel x output.
Proof.
  induction fuel as [|fuel IH]; intros fuel' x output Hle Hr.
  - now contradiction Hr.
  - destruct fuel' as [|fuel']; [lia|]. cbn [while_x] in *.
    destruct (Qltb x (left bb + width bb)); trivial.
    rewrite (while_y_mono vertices bb g optimize x _ fuel fuel') by
      (try lia; intro E; rewrite E in Hr; now apply Hr).
    destruct (while_y AddPath Execute vertices bb g optimize fuel x _ _ output)
      as [cells| |]; cbn [bind] in *; trivial.
    apply IH; [lia | exact Hr].
Qed.

Lemma clip_polygon_mono (fuel fuel' : nat) (vertices : list vertex)
    (bb : BoundingBox) (g : Q) (optimize : bool) (cells : list clip) :
  (fuel <= fuel')%nat ->
  clip_polygon AddPath Execute fuel vertices bb g optimize = Ok cells ->
  clip_polygon AddPath Execute fuel' vertices bb g optimize = Ok cells.
Proof.
  unfold clip_polygon. intros Hle E. rewrite <- E.
  apply while_x_mono; [exact Hle|]. rewrite E. discriminate.
Qed.

(** *** Two polygons on the same grid *)

Lemma while_y_frames (v1 v2 : list vertex) (bb : BoundingBox) (g : Q) (x x2 : Q) :
  forall (fuel : nat) (y : Q) (out1 out2 r1 r2 : list clip),
    map (@frame (list ring)) out1 = map (@frame (list ring)) out2 ->
    while_y AddPath Execute v1 bb g false fuel x x2 y out1 = Ok r1 ->
    while_y AddPath Execute v2 bb g false fuel x x2 y out2 = Ok r2 ->
    map (@frame (list ring)) r1 = map (@frame (list ring)) r2.
Proof.
  induction fuel as [|fuel IH]; intros y out1 out2 r1 r2 Ho E1 E2;
    [discriminate|]. cbn [while_y] in E1, E2.
  destruct (Qltb y (top bb + height bb)); [|congruence].
  destruct (solve AddPath Execute v1 x y x2 _) as [s1| |]; try discriminate.
  destruct (solve AddPath Execute v2 x y x2 _) as [s2| |]; try discriminate.
  cbn [bind negb] in E1, E2. rewrite orb_true_r in E1, E2.
  eapply IH; [|exact E1|exact E2].
  rewrite !map_app. apply f_equal2; [exact Ho | reflexivity].
Qed.

Lemma while_x_frames (v1 v2 : list vertex) (bb : BoundingBox) (g : Q) :
  forall (fuel : nat) (x : Q) (out1 out2 r1 r2 : list clip),
    map (@frame (list ring)) out1 = map (@frame (list ring)) out2 ->
    while_x AddPath Execute v1 bb g false fuel x out1 = Ok r1 ->
    while_x AddPath Execute v2 bb g false fuel x out2 = Ok r2 ->
    map (@frame (list ring)) r1 = map (@frame (list ring)) r2.
Proof.
  induction fuel as [|fuel IH]; intros x out1 out2 r1 r2 Ho E1 E2;
    [discriminate|]. cbn [while_x] in E1, E2.
  destruct (Qltb x (left bb + width bb)); [|congruence].
  destruct (while_y AddPath Execute v1 bb g false fuel x _ _ out1)
    as [c1| |] eqn:Y1; try discriminate.
  destruct (while_y AddPath Execute v2 bb g false fuel x _ _ out2)
    as [c2| |] eqn:Y2; try discriminate.
  cbn [bind] in E1, E2.
  eapply IH; [|exact E1|exact E2].
  eapply while_y_frames; [exact Ho|exact Y1|exact Y2].
Qed.

(** Two finished runs with [optimize = false] on one box and grid size
    have the same frames, whatever the polygons and the fuel. *)
Lemma clip_polygon_frames (f1 f2 : nat) (v1 v2 : list vertex)
    (bb : BoundingBox) (g : Q) (r1 r2 : list clip) :
  clip_polygon AddPath Execute f1 v1 bb g false = Ok r1 ->
  clip_polygon AddPath Execute f2 v2 bb g false = Ok r2 ->
  map (@frame (list ring)) r1 = map (@frame (list ring)) r2.
Proof.
  intros E1 E2.
  apply (clip_polygon_mono f1 (Nat.max f1 f2)) in E1; [|lia].
  apply (clip_polygon_mono f2 (Nat.max f1 f2)) in E2; [|lia].
  unfold clip_polygon in E1, E2.
  eapply while_x_frames; [|exact E1|exact E2]. reflexivity.
Qed.

(** *** Merging the runs *)

Lemma append_solution_at (pre post : list clip) (val1 : clip) (solution : ring) :
  append_solution (pre ++ val1 :: post) (length pre) solution
  = Ok (pre ++ set_payload val1 (vertices val1 ++ [solution]) :: post).
Proof.
  unfold append_solution, index.
  rewrite nth_error_app2, Nat.sub_diag by lia. cbn [nth_error bind].
  rewrite firstn_app, Nat.sub_diag, firstn_all. cbn [firstn].
  rewrite app_nil_r.
  replace (S (length pre)) with (length pre + 1)%nat by lia.
  rewrite skipn_app, Nat.add_comm.
  rewrite skipn_all2 by (cbn; lia).
  replace (1 + length pre - length pre)%nat with 1%nat by lia.
  reflexivity.
Qed.

Lemma set_payload_twice {P R T : Type} (c : cell P) (r : R) (t : T) :
  set_payload (set_payload c r) t = set_payload c t.
Proof. reflexivity. Qed.

Lemma set_payload_same {P : Type} (c : cell P) : set_payload c (payload c) = c.
Proof. now destruct c. Qed.

Lemma append_solutions (pre post : list clip) (solutions : list ring) :
  forall val1 : clip,
    foldM (fun output1 solution => append_solution output1 (length pre) solution)
          solutions (pre ++ val1 :: post)
    = Ok (pre ++ set_payload val1 (vertices val1 ++ solutions) :: post).
Proof.
  induction solutions as [|s solutions IH]; intro val1; cbn [foldM].
  - rewrite app_nil_r. unfold vertices. now rewrite set_payload_same.
  - rewrite append_solution_at. cbn [bind]. rewrite IH.
    rewrite set_payload_twice. unfold vertices at 1. cbn [set_payload payload].
    now rewrite <- app_assoc.
Qed.

Lemma rings_at_middle (pre post : list clip) (val : clip) :
  rings_at (length pre) (pre ++ val :: post) = vertices val.
Proof.
  unfold rings_at. now rewrite nth_error_app2, Nat.sub_diag by lia.
Qed.

Lemma merge_from (rest : list clip) :
  forall cur pre pre' : list clip,
    length pre = length pre' ->
    length cur = length rest ->
    foldM (fun (output1 : list clip) (iv : nat * clip) =>
             foldM (fun output1 solution =>
                      append_solution output1 (fst iv) solution)
                   (vertices (snd iv)) output1)
          (combine (seq (length pre) (length rest)) rest) (pre ++ cur)
    = Ok (pre
          ++ map (fun iv : nat * clip =>
                    set_payload (snd iv)
                      (vertices (snd iv) ++ rings_at (fst iv) (pre' ++ rest)))
                 (combine (seq (length pre) (length cur)) cur)).
Proof.
  induction rest as [|val rest IH]; intros cur pre pre' Hp Hc;
    destruct cur as [|val1 cur]; try discriminate; trivial.
  cbn [length seq combine foldM fst snd map].
  rewrite append_solutions. cbn [bind].
  replace (pre ++ set_payload val1 (vertices val1 ++ vertices val) :: cur)
    with ((pre ++ [set_payload val1 (vertices val1 ++ vertices val)]) ++ cur)
    by (now rewrite <- app_assoc).
  replace (S (length pre))
    with (length (pre ++ [set_payload val1 (vertices val1 ++ vertices val)]))
    by (rewrite length_app; cbn; lia).
  rewrite (IH cur _ (pre' ++ [val])).
  - rewrite <- !app_assoc. cbn [app].
    rewrite Hp at 1. rewrite rings_at_middle. reflexivity.
  - rewrite !length_app. cbn. lia.
  - cbn in Hc. lia.
Qed.

Lemma merge_output_ok (output1 output : list clip) :
  length output1 = length output ->
  merge_output output1 output = Ok (merged output1 [output]).
Proof.
  intro H. unfold merge_output, merged, enumerate.
  pose proof (merge_from output output1 [] [] eq_refl H) as M.
  cbn [app length] in M. rewrite M.
  f_equal. apply map_ext. intros [i c]. cbn [fst snd flat_map].
  now rewrite app_nil_r.
Qed.

Lemma enum_map_snd {A : Type} (l : list A) :
  forall k : nat, map snd (combine (seq k (length l)) l) = l.
Proof.
  induction l as [|a l IH]; intro k; cbn; [reflexivity|]. now rewrite IH.
Qed.

Lemma enum_map {A B : Type} (G : nat * A -> B) (l : list A) :
  forall k : nat,
    combine (seq k (length (map G (combine (seq k (length l)) l))))
            (map G (combine (seq k (length l)) l))
    = map (fun iv => (fst iv, G iv)) (combine (seq k (length l)) l).
Proof.
  induction l as [|a l IH]; intro k; cbn; [reflexivity|].
  f_equal. specialize (IH (S k)).
  rewrite length_map in IH |- *. exact IH.
Qed.

Lemma enumerate_map {A B : Type} (G : nat * A -> B) (l : list A) :
  enumerate (map G (enumerate l))
  = map (fun iv => (fst iv, G iv)) (enumerate l).
Proof. apply (enum_map G l 0). Qed.

Lemma enum_nth {A : Type} (l : list A) (i : nat) (a : A) :
  forall k : nat,
    In (i, a) (combine (seq k (length l)) l) ->
    (k <= i)%nat /\ nth_error l (i - k) = Some a.
Proof.
  induction l as [|b l IH]; intros k H; cbn in H; [contradiction|].
  destruct H as [H|H].
  - injection H as <- <-. rewrite Nat.sub_diag. now split.
  - apply IH in H as [Hk Hn]. split; [lia|].
    replace (i - k)%nat with (S (i - S k)) by lia. exact Hn.
Qed.

Lemma merged_nil (output1 : list clip) : merged output1 [] = output1.
Proof.
  unfold merged, enumerate.
  rewrite <- (enum_map_snd output1 0) at 3.
  apply map_ext. intros [i c]. cbn [fst snd flat_map].
  rewrite app_nil_r. apply set_payload_same.
Qed.

Lemma merged_frames (output1 : list clip) (runs : list (list clip)) :
  map (@frame (list ring)) (merged output1 runs)
  = map (@frame (list ring)) output1.
Proof.
  unfold merged, enumerate. rewrite map_map.
  rewrite <- (enum_map_snd output1 0) at 3. rewrite map_map.
  apply map_ext. now intros [i c].
Qed.

Lemma merged_merged (output1 run : list clip) (runs : list (list clip)) :
  merged (merged output1 [run]) runs = merged output1 (run :: runs).
Proof.
  unfold merged. rewrite enumerate_map, map_map.
  apply map_ext. intros [i c]. cbn [fst snd flat_map].
  rewrite set_payload_twice. unfold vertices at 1.
  cbn [set_payload payload]. now rewrite app_nil_r, <- app_assoc.
Qed.

Lemma filter_keep_empty (l : list clip) :
  Forall (fun c => vertices c = []) l -> filter keep l = [].
Proof.
  induction 1 as [|c l Hc _ IH]; cbn [filter]; trivial.
  unfold keep at 1. now rewrite Hc.
Qed.

Lemma grid_cells_length (vertices : list vertex) (bb : BoundingBox) (g : Q) :
  length (grid_cells Execute vertices bb g)
  = (length (columns bb g) * length (rows bb g))%nat.
Proof.
  unfold grid_cells.
  induction (columns bb g) as [|x l IH]; cbn [flat_map length]; trivial.
  rewrite length_app, length_map. cbn [Nat.mul]. f_equal. exact IH.
Qed.

Lemma frames_length (r1 r2 : list clip) :
  map (@frame (list ring)) r1 = map (@frame (list ring)) r2 ->
  length r1 = length r2.
Proof.
  intro H. apply (f_equal (@length _)) in H. now rewrite !length_map in H.
Qed.

Lemma merge_step_rest (fuel : nat) (bb : BoundingBox) (g : Q)
    (output1 : list clip) (v : list vertex) :
  merge_step AddPath Execute fuel bb g (false, output1) v
  = (output <- clip_polygon AddPath Execute fuel v bb g false ;;
     output1 <- merge_output output1 output ;;
     Ok (false, output1)).
Proof. reflexivity. Qed.

Lemma merge_rest (fuel : nat) (bb : BoundingBox) (g : Q) :
  forall (polygons : list (list vertex)) (output1 : list clip),
    (forall v r, clip_polygon AddPath Execute fuel v bb g false = Ok r ->
                 map (@frame (list ring)) r = map (@frame (list ring)) output1) ->
    foldM (merge_step AddPath Execute fuel bb g) polygons (false, output1)
    = (runs <- mapM (fun polygon =>
                       clip_polygon AddPath Execute fuel polygon bb g false)
                    polygons ;;
       Ok (false, merged output1 runs)).
Proof.
  induction polygons as [|v polygons IH]; intros output1 Hfr; cbn [foldM mapM bind].
  - now rewrite merged_nil.
  - rewrite merge_step_rest.
    destruct (clip_polygon AddPath Execute fuel v bb g false) as [r| |] eqn:E;
      cbn [bind]; trivial.
    rewrite merge_output_ok
      by (symmetry; apply frames_length; now apply (Hfr v)).
    cbn [bind]. rewrite IH.
    + destruct (mapM _ polygons) as [rs| |]; cbn [bind]; trivial.
      now rewrite merged_merged.
    + intros v' r' E'. rewrite merged_frames. now apply (Hfr v').
Qed.

Lemma clip_polygons_cons (fuel : nat) (p0 : list vertex)
    (ps : list (list vertex)) (bb : BoundingBox) (g : Q) :
  clip_polygons AddPath Execute fuel (p0 :: ps) bb g
  = ClipMerge AddPath Execute fuel (p0 :: ps) bb g.
Proof.
  unfold clip_polygons, ClipMerge, index. cbn [nth_error bind mapM foldM].
  destruct (clip_polygon AddPath Execute fuel p0 bb g false) as [r0| |] eqn:E0;
    cbn [bind]; trivial.
  change (merge_step AddPath Execute fuel bb g (true, r0) p0)
    with (Ok (A := bool * list clip) (false, r0)).
  cbn [bind]. rewrite merge_rest.
  - destruct (mapM _ ps) as [rs| |]; cbn [bind snd]; trivial.
    do 2 f_equal. unfold merged. apply map_ext_in. intros [i c] Hin.
    cbn [fst snd flat_map]. f_equal. f_equal.
    apply enum_nth in Hin as [_ Hn]. rewrite Nat.sub_0_r in Hn.
    unfold rings_at. now rewrite Hn.
  - intros v r E. eapply clip_polygon_frames; [exact E|exact E0].
Qed.

Lemma mapM_grid (bb : BoundingBox) (g : Q) (fuel : nat) :
  0 < g -> (fuel_for bb g <= fuel)%nat ->
  forall polygons : list (list vertex),
    Forall (fun polygon => polygon <> []) polygons ->
    Forall (fun polygon => pyclipper_returns AddPath Execute polygon bb g = true)
           polygons ->
    mapM (fun polygon => clip_polygon AddPath Execute fuel polygon bb g false)
         polygons
    = Ok (map (fun polygon => grid_cells Execute polygon bb g) polygons).
Proof.
  intros Hg Hf. induction 1 as [|p ps Hp _ IH]; intro Hr; cbn [mapM map];
    trivial.
  destruct p as [|v0 vs]; [congruence|].
  inversion Hr as [|? ? R Rs]; subst.
  rewrite clip_polygon_grid by assumption. cbn [bind]. now rewrite IH.
Qed.

(** *** Geometry of the grid *)

Lemma grid_cells_in (vertices : list vertex) (bb : BoundingBox) (g : Q)
    (c : clip) :
  In c (grid_cells Execute vertices bb g) <->
  exists x y, In x (columns bb g) /\ In y (rows bb g) /\
              c = cell_at bb g x y (rings_of Execute vertices bb g x y).
Proof.
  unfold grid_cells. rewrite in_flat_map. split.
  - intros [x [Hx Hc]]. apply in_map_iff in Hc as [y [<- Hy]]. now exists x, y.
  - intros [x [y [Hx [Hy ->]]]]. exists x. split; trivial.
    apply in_map_iff. now exists y.
Qed.

Lemma grid_cover (vertices : list vertex) (bb : BoundingBox) (g : Q) :
  0 < g -> 0 < width bb -> 0 < height bb ->
  forall px py : Q,
    in_box bb px py <->
    exists c, In c (grid_cells Execute vertices bb g) /\ in_cell c px py.
Proof.
  intros Hg Hw Hh px py. unfold in_box. split.
  - intros [Hx Hy].
    destruct (axis_from_cover (left bb + width bb) g Hg
                (steps (left bb) (left bb + width bb) g) (left bb) px)
      as [x [Ix Hpx]]; try lra.
    { pose proof (steps_enough (left bb) (left bb + width bb) g Hg). lra. }
    destruct (axis_from_cover (top bb + height bb) g Hg
                (steps (top bb) (top bb + height bb) g) (top bb) py)
      as [y [Iy Hpy]]; try lra.
    { pose proof (steps_enough (top bb) (top bb + height bb) g Hg). lra. }
    exists (cell_at bb g x y (rings_of Execute vertices bb g x y)).
    split.
    + apply grid_cells_in. now exists x, y.
    + unfold in_cell, cell_at.
      cbn [boundingBoxX boundingBoxY boundingBoxWidth boundingBoxHeight].
      lra.
  - intros [c [Hc Hin]]. apply grid_cells_in in Hc as [x [y [Ix [Iy ->]]]].
    apply (axis_from_bounds _ g Hg) in Ix, Iy.
    unfold in_cell, cell_at in Hin.
    cbn [boundingBoxX boundingBoxY boundingBoxWidth boundingBoxHeight] in Hin.
    destruct (py_min_cases (x + g) (left bb + width bb)) as [[? Ex]|[? Ex]];
      destruct (py_min_cases (y + g) (top bb + height bb)) as [[? Ey]|[? Ey]];
      rewrite Ex, Ey in Hin; lra.
Qed.

Lemma grid_separated (vertices : list vertex) (bb : BoundingBox) (g : Q) :
  0 < g ->
  ForallOrdPairs (@separated (list ring)) (grid_cells Execute vertices bb g).
Proof.
  intro Hg. unfold grid_cells.
  apply (FOP_flat_map (fun a b => a + g <= b)).
  - apply axis_from_gaps, Hg.
  - intros x _. apply FOP_map.
    apply (FOP_weaken (fun a b => a + g <= b)); [|apply axis_from_gaps, Hg].
    intros y y' _ _ Hy. unfold separated, cell_at.
    cbn [boundingBoxX boundingBoxY boundingBoxWidth boundingBoxHeight].
    right. right. left.
    destruct (py_min_cases (y + g) (top bb + height bb)) as [[? ->]|[? ->]]; lra.
  - intros x x' c d Hx Hc Hd.
    apply in_map_iff in Hc as [y [<- _]]. apply in_map_iff in Hd as [y' [<- _]].
    unfold separated, cell_at.
    cbn [boundingBoxX boundingBoxY boundingBoxWidth boundingBoxHeight].
    left.
    destruct (py_min_cases (x + g) (left bb + width bb)) as [[? ->]|[? ->]]; lra.
Qed.

Lemma grid_clamped (vertices : list vertex) (bb : BoundingBox) (g : Q) :
  0 < g ->
  Forall (cell_clamped bb g) (grid_cells Execute vertices bb g).
Proof.
  intro Hg. apply Forall_forall. intros c Hc.
  apply grid_cells_in in Hc as [x [y [Ix [Iy ->]]]].
  apply (axis_from_bounds _ g Hg) in Ix, Iy.
  split; cbn [cell_at boundingBoxX boundingBoxY boundingBoxWidth boundingBoxHeight];
    apply clamped_at; lra.
Qed.

Lemma grid_frames (v1 v2 : list vertex) (bb : BoundingBox) (g : Q) :
  map (@frame (list ring)) (grid_cells Execute v1 bb g)
  = map (@frame (list ring)) (grid_cells Execute v2 bb g).
Proof.
  unfold grid_cells. rewrite !flat_map_concat_map, !concat_map, !map_map.
  f_equal. apply map_ext. intro x. rewrite !map_map. now apply map_ext.
Qed.

End Runs.

Import Reference.

(** *** The stand-in library *)




(** *** Runs on concrete inputs *)

Example square_grid5 :
  map (@frame (list ring)) (grid_cells rect_Execute square box10 5)
  = [(0, 0, 5 - 0, 5 - 0); (0, 0 + 5, 5 - 0, 10 - (0 + 5));
     (0 + 5, 0, 10 - (0 + 5), 5 - 0); (0 + 5, 0 + 5, 10 - (0 + 5), 10 - (0 + 5))].
Proof. reflexivity. Qed.

Example square_grid5_one_ring_each :
  exists cells,
    clip_polygon rect_AddPath rect_Execute 5 square box10 5 true = Ok cells /\
    map (fun c => length (vertices c)) cells = [1; 1; 1; 1]%nat.
Proof. eexists. split; [vm_compute; reflexivity | reflexivity]. Qed.

Example far_triangle_outside :
  clip_polygon rect_AddPath rect_Execute 5 far_triangle box10 5 true = Ok [] /\
  clip_polygon rect_AddPath rect_Execute 5 far_triangle box10 5 false
  = Ok [mkCell 0 0 (5 - 0) (5 - 0) [];
        mkCell 0 (0 + 5) (5 - 0) (10 - (0 + 5)) [];
        mkCell (0 + 5) 0 (10 - (0 + 5)) (5 - 0) [];
        mkCell (0 + 5) (0 + 5) (10 - (0 + 5)) (10 - (0 + 5)) []].
Proof. split; reflexivity. Qed.

(** A vertex list without area: pyclipper refuses the subject at the
    first cell. *)
Example single_vertex_refused :
  clip_polygon rect_AddPath rect_Execute 5 [(1, 1, Colors.red)] box10 5 false
  = Raise ClipperException /\
  pyclipper_returns rect_AddPath rect_Execute [(1, 1, Colors.red)] box10 5
  = false.
Proof. split; vm_compute; reflexivity. Qed.

Example zero_grid_refused :
  clip_polygon rect_AddPath rect_Execute 40 far_triangle box10 0 true
  = Raise ClipperException.
Proof. vm_compute. reflexivity. Qed.

Example far_triangle_no_fuel_left :
  clip_polygon rect_AddPath rect_Execute 40 far_triangle box10 (0 - 5) true
  = Timeout.
Proof. vm_compute. reflexivity. Qed.




(** C7: with a positive grid size, a run with [optimize = false] that
    returns gives every cell of the grid, empty ones included, and the run
    with [optimize = true] gives exactly those of them whose intersection
    with the polygon is not empty, in the same order; this for every
    polygon and whatever pyclipper hands back.  A run returns only if
    pyclipper returned at every cell, and for a polygon with a vertex the
    runs do return once it does; when no cell meets the polygon the first
    gives all cells with empty ring lists and the second gives no cell. *)
Theorem clip_polygon_optimize_spec :
  forall (AddPath : list point -> outcome unit)
         (Execute : list point -> list point -> outcome (list (list point)))
         (vertices : list vertex) (bb : BoundingBox) (g : Q),
    0 < g ->
    (forall (fuel : nat) (cells : list clip),
       clip_polygon AddPath Execute fuel vertices bb g false = Ok cells ->
       pyclipper_returns AddPath Execute vertices bb g = true /\
       cells = grid_cells Execute vertices bb g /\
       clip_polygon AddPath Execute fuel vertices bb g true
       = Ok (filter (fun c => nonempty (Data.vertices c)) cells)) /\
    (forall (fuel : nat) (kept : list clip),
       clip_polygon AddPath Execute fuel vertices bb g true = Ok kept ->
       kept = filter (fun c => nonempty (Data.vertices c))
                     (grid_cells Execute vertices bb g)) /\
    (vertices <> [] ->
     pyclipper_returns AddPath Execute vertices bb g = true ->
     forall fuel : nat,
       (fuel_for bb g <= fuel)%nat ->
       clip_polygon AddPath Execute fuel vertices bb g false
       = Ok (grid_cells Execute vertices bb g) /\
       clip_polygon AddPath Execute fuel vertices bb g true
       = Ok (filter (fun c => nonempty (Data.vertices c))
                    (grid_cells Execute vertices bb g)) /\
       ((forall x y, In x (columns bb g) -> In y (rows bb g) ->
                     rings_of Execute vertices bb g x y = []) ->
        clip_polygon AddPath Execute fuel vertices bb g true = Ok [] /\
        Forall (fun c => Data.vertices c = [])
               (grid_cells Execute vertices bb g) /\
        length (grid_cells Execute vertices bb g)
        = (length (columns bb g) * length (rows bb g))%nat)).
Proof.
  intros AddPath Execute vertices bb g Hg.
  split; [|split].
  - intros fuel cells E.
    rewrite clip_polygon_optimize, E. cbn [bind].
    apply clip_polygon_returned in E as [-> R]; [|exact Hg]. now repeat split.
  - intros fuel kept E. rewrite clip_polygon_optimize in E.
    destruct (clip_polygon AddPath Execute fuel vertices bb g false)
      as [cells| |] eqn:F; try discriminate.
    cbn [bind] in E. injection E as <-.
    apply clip_polygon_returned in F as [-> _]; [|exact Hg]. reflexivity.
  - intros Hv Hr fuel Hf.
    destruct vertices as [|v0 vs]; [congruence|].
    pose proof (clip_polygon_grid AddPath Execute v0 vs bb g fuel Hg Hf Hr) as E.
    assert (Et : clip_polygon AddPath Execute fuel (v0 :: vs) bb g true
                 = Ok (filter keep (grid_cells Execute (v0 :: vs) bb g))).
    { rewrite clip_polygon_optimize, E. reflexivity. }
    split; [exact E|]. split; [exact Et|].
    intro Hout.
    assert (Hall : Forall (fun c => Data.vertices c = [])
                     (grid_cells Execute (v0 :: vs) bb g)).
    { apply Forall_forall. intros c Hc.
      apply grid_cells_in in Hc as [x [y [Ix [Iy ->]]]].
      unfold Data.vertices, cell_at. cbn [payload]. now apply Hout. }
    split; [|split; [exact Hall|]].
    + rewrite Et. f_equal. now apply filter_keep_empty.
    + apply grid_cells_length.
Qed.

Lemma clip_polygon_optimize_spec_witness :
  clip_polygon rect_AddPath rect_Execute 5 far_triangle box10 5 false
  = Ok (grid_cells rect_Execute far_triangle box10 5) /\
  clip_polygon rect_AddPath rect_Execute 5 far_triangle box10 5 true
  = Ok (filter (fun c => nonempty (Data.vertices c))
               (grid_cells rect_Execute far_triangle box10 5)) /\
  ((forall x y, In x (columns box10 5) -> In y (rows box10 5) ->
                rings_of rect_Execute far_triangle box10 5 x y = []) ->
   clip_polygon rect_AddPath rect_Execute 5 far_triangle box10 5 true = Ok [] /\
   Forall (fun c => Data.vertices c = [])
          (grid_cells rect_Execute far_triangle box10 5) /\
   length (grid_cells rect_Execute far_triangle box10 5)
   = (length (columns box10 5) * length (rows box10 5))%nat).
Proof.
  destruct (clip_polygon_optimize_spec
              rect_AddPath rect_Execute far_triangle box10 5)
    as [_ [_ H]]; [reflexivity|].
  apply H.
  - discriminate.
  - vm_compute. reflexivity.
  - vm_compute. lia.
Defined.

(** C8: with a positive grid size and a box of positive width and height,
    the cells of a run with [optimize = false] that returns cover the box
    exactly (a point is in the box if and only if it is in some cell), any
    two of them are separated by a vertical or horizontal line (they share
    at most an edge), and along each axis a cell is either [grid_size]
    long or ends at the box edge; this for every polygon.  The run does
    return for a polygon with a vertex once pyclipper returns at every
    cell. *)
Theorem clip_polygon_grid_coverage :
  forall (AddPath : list point -> outcome unit)
         (Execute : list point -> list point -> outcome (list (list point)))
         (vertices : list vertex) (bb : BoundingBox) (g : Q),
    0 < g -> 0 < width bb -> 0 < height bb ->
    (forall (fuel : nat) (cells : list clip),
       clip_polygon AddPath Execute fuel vertices bb g false = Ok cells ->
       (forall px py : Q,
          in_box bb px py <-> exists c, In c cells /\ in_cell c px py) /\
       ForallOrdPairs (@separated (list ring)) cells /\
       Forall (cell_clamped bb g) cells) /\
    (vertices <> [] ->
     pyclipper_returns AddPath Execute vertices bb g = true ->
     forall fuel : nat,
       (fuel_for bb g <= fuel)%nat ->
       exists cells : list clip,
         clip_polygon AddPath Execute fuel vertices bb g false = Ok cells).
Proof.
  intros AddPath Execute vertices bb g Hg Hw Hh. split.
  - intros fuel cells E.
    apply clip_polygon_returned in E as [-> _]; [|exact Hg].
    split; [|split].
    + now apply grid_cover.
    + now apply grid_separated.
    + now apply grid_clamped.
  - intros Hv Hr fuel Hf. destruct vertices as [|v0 vs]; [congruence|].
    eexists. now apply clip_polygon_grid.
Qed.

Lemma clip_polygon_grid_coverage_witness :
  exists cells : list clip,
    clip_polygon rect_AddPath rect_Execute 6 square (mkBoundingBox 0 0 10 8) 4
                 false
    = Ok cells /\
    (forall px py : Q,
       in_box (mkBoundingBox 0 0 10 8) px py
       <-> exists c, In c cells /\ in_cell c px py) /\
    ForallOrdPairs (@separated (list ring)) cells /\
    Forall (cell_clamped (mkBoundingBox 0 0 10 8) 4) cells.
Proof.
  destruct (clip_polygon_grid_coverage
              rect_AddPath rect_Execute square (mkBoundingBox 0 0 10 8) 4)
    as [G R]; try reflexivity.
  destruct (R ltac:(discriminate) eq_refl 6%nat) as [cells E];
    [vm_compute; lia|].
  exists cells. split; [exact E | exact (G 6%nat cells E)].
Defined.

(** C9: two runs with [optimize = false] on the same box and grid size
    that both return give cell lists of the same length with the same
    frames in the same order, whatever the two polygons; and with a
    positive grid size both runs do return for polygons that have a
    vertex once pyclipper returns at every cell for each of them. *)
Theorem clip_polygon_frame_independent :
  forall (AddPath : list point -> outcome unit)
         (Execute : list point -> list point -> outcome (list (list point)))
         (v1 v2 : list vertex) (bb : BoundingBox) (g : Q),
    0 < g ->
    (forall (f1 f2 : nat) (c1 c2 : list clip),
       clip_polygon AddPath Execute f1 v1 bb g false = Ok c1 ->
       clip_polygon AddPath Execute f2 v2 bb g false = Ok c2 ->
       length c1 = length c2 /\
       map (@frame (list ring)) c1 = map (@frame (list ring)) c2) /\
    (v1 <> [] -> v2 <> [] ->
     pyclipper_returns AddPath Execute v1 bb g = true ->
     pyclipper_returns AddPath Execute v2 bb g = true ->
     forall fuel : nat, (fuel_for bb g <= fuel)%nat ->
       exists c1 c2 : list clip,
         clip_polygon AddPath Execute fuel v1 bb g false = Ok c1 /\
         clip_polygon AddPath Execute fuel v2 bb g false = Ok c2).
Proof.
  intros AddPath Execute v1 v2 bb g Hg. split.
  - intros f1 f2 c1 c2 E1 E2.
    pose proof (clip_polygon_frames AddPath Execute f1 f2 v1 v2 bb g c1 c2 E1 E2)
      as F.
    split; [now apply frames_length | exact F].
  - intros H1 H2 R1 R2 fuel Hf.
    destruct v1 as [|a1 v1]; [congruence|]. destruct v2 as [|a2 v2]; [congruence|].
    eexists. eexists. split; now apply clip_polygon_grid.
Qed.

Lemma clip_polygon_frame_independent_witness :
  (forall (f1 f2 : nat) (c1 c2 : list clip),
     clip_polygon rect_AddPath rect_Execute f1 square box10 5 false = Ok c1 ->
     clip_polygon rect_AddPath rect_Execute f2 far_triangle box10 5 false
     = Ok c2 ->
     length c1 = length c2 /\
     map (@frame (list ring)) c1 = map (@frame (list ring)) c2) /\
  (forall fuel : nat, (fuel_for box10 5 <= fuel)%nat ->
     exists c1 c2 : list clip,
       clip_polygon rect_AddPath rect_Execute fuel square box10 5 false = Ok c1 /\
       clip_polygon rect_AddPath rect_Execute fuel far_triangle box10 5 false
       = Ok c2).
Proof.
  destruct (clip_polygon_frame_independent
              rect_AddPath rect_Execute square far_triangle box10 5)
    as [F R]; [reflexivity|].
  split; [exact F|].
  apply R; try discriminate; vm_compute; reflexivity.
Defined.

(** C6: on a non-empty polygon list [clip_polygons] is ClipMerge: one run
    of [clip_polygon] with [optimize = false] per polygon, the rings of
    all runs concatenated cell index by cell index, the cells left without
    a ring dropped.  The two agree at every fuel, run by run, also where a
    run fails; and with a positive grid size and polygons that have a
    vertex the call returns once pyclipper returns at every cell for every
    polygon. *)
Theorem clip_polygons_is_ClipMerge :
  forall (AddPath : list point -> outcome unit)
         (Execute : list point -> list point -> outcome (list (list point)))
         (polygons : list (list vertex)) (bb : BoundingBox) (g : Q),
    polygons <> [] ->
    (forall fuel : nat,
       clip_polygons AddPath Execute fuel polygons bb g
       = ClipMerge AddPath Execute fuel polygons bb g) /\
    (0 < g -> Forall (fun polygon => polygon <> []) polygons ->
     Forall (fun polygon => pyclipper_returns AddPath Execute polygon bb g = true)
            polygons ->
     forall fuel : nat, (fuel_for bb g <= fuel)%nat ->
       exists cells : list clip,
         clip_polygons AddPath Execute fuel polygons bb g = Ok cells).
Proof.
  intros AddPath Execute polygons bb g Hne.
  destruct polygons as [|p0 ps]; [congruence|].
  split.
  - intro fuel. apply clip_polygons_cons.
  - intros Hg Hall Hr fuel Hf. rewrite clip_polygons_cons. unfold ClipMerge.
    rewrite (mapM_grid AddPath Execute bb g fuel Hg Hf _ Hall Hr).
    cbn [map bind]. eexists. reflexivity.
Qed.

Lemma clip_polygons_is_ClipMerge_witness :
  (forall fuel : nat,
     clip_polygons rect_AddPath rect_Execute fuel
                   [square; far_triangle; square] box10 5
     = ClipMerge rect_AddPath rect_Execute fuel
                 [square; far_triangle; square] box10 5) /\
  (forall fuel : nat, (fuel_for box10 5 <= fuel)%nat ->
     exists cells : list clip,
       clip_polygons rect_AddPath rect_Execute fuel
                     [square; far_triangle; square] box10 5 = Ok cells).
Proof.
  destruct (clip_polygons_is_ClipMerge
              rect_AddPath rect_Execute [square; far_triangle; square] box10 5)
    as [E R]; [discriminate|].
  split; [exact E|].
  apply R; [reflexivity | |]; repeat constructor; discriminate.
Defined.

Example clip_polygons_two_squares :
  exists cells,
    clip_polygons rect_AddPath rect_Execute 5
                  [square; far_triangle; square] box10 5
    = Ok cells /\
    map (fun c => length (vertices c)) cells = [2; 2; 2; 2]%nat.
Proof. eexists. split; [vm_compute; reflexivity | reflexivity]. Qed.

(** A group with a vertex list that has no area fails, and fails the
    same way on both sides of C6. *)
Example clip_polygons_refused :
  clip_polygons rect_AddPath rect_Execute 5
                [square; [(1, 1, Colors.red)]] box10 5
  = Raise ClipperException /\
  ClipMerge rect_AddPath rect_Execute 5
            [square; [(1, 1, Colors.red)]] box10 5
  = Raise ClipperException.
Proof. split; vm_compute; reflexivity. Qed.

(** C10: [clip_polygons] reads [polygons[0]] before anything else: on
    the empty list the read is out of bounds and the call raises
    [IndexError] where ClipMerge would give the empty cell list; on a
    non-empty list the read is in bounds and yields the first polygon. *)
Theorem clip_polygons_needs_a_polygon :
  forall (AddPath : list point -> outcome unit)
         (Execute : list point -> list point -> outcome (list (list point)))
         (fuel : nat) (bb : BoundingBox) (g : Q),
    clip_polygons AddPath Execute fuel [] bb g = Raise IndexError /\
    ClipMerge AddPath Execute fuel [] bb g = Ok [] /\
    (forall (p : list vertex) (ps : list (list vertex)),
       index (p :: ps) 0 = Ok p /\
       clip_polygons AddPath Execute fuel (p :: ps) bb g
       = (output1 <- clip_polygon AddPath Execute fuel p bb g false ;;
          st <- foldM (merge_step AddPath Execute fuel bb g) ps (false, output1) ;;
          Ok (filter keep (snd st)))).
Proof.
  intros AddPath Execute fuel bb g.
  split; [reflexivity|]. split; [reflexivity|].
  intros p ps. split; [reflexivity|].
  unfold clip_polygons, index. cbn [nth_error bind foldM].
  destruct (clip_polygon AddPath Execute fuel p bb g false); reflexivity.
Qed.

End ClipperFacts.

(* ------------------------------------------------------------------ *)
(** ** Curve sampling by distance *)

Module SamplerFacts.
Import Num Data Sampler NumFacts.
Open Scope Q_scope.

(** *** Arc-length targets *)

Lemma offsets_from_nth (s : Q) :
  forall (bound k : nat) (length_left point_length target : Q),
    nth_error (offsets_from bound s length_left point_length) k = Some target ->
    target == point_length + nq (S k) * s /\ nq (S k) * s < length_left.
Proof.
  induction bound as [|bound IH]; intros k length_left point_length target H;
    cbn [offsets_from] in H.
  - now destruct k.
  - destruct (Qltb_reflect s length_left) as [Hlt|Hge]; [|now destruct k].
    destruct k as [|k]; cbn [nth_error] in H.
    + injection H as <-. change (nq 1) with 1. split; [ring | lra].
    + apply IH in H as [Ht Hl]. rewrite (nq_S (S k)). split; lra.
Qed.

Lemma offsets_from_stop (s : Q) :
  0 < s ->
  forall (bound : nat) (length_left point_length : Q),
    length_left <= nq bound * s ->
    length_left
    <= nq (S (length (offsets_from bound s length_left point_length))) * s.
Proof.
  intros Hs. induction bound as [|bound IH]; intros length_left point_length Hb;
    cbn [offsets_from].
  - change (nq 0) with 0 in Hb. cbn [length]. change (nq 1) with 1. lra.
  - destruct (Qltb_reflect s length_left) as [Hlt|Hge].
    + cbn [length]. rewrite nq_S.
      specialize (IH (length_left - s) (point_length + s)).
      rewrite nq_S in Hb. lra.
    + cbn [length]. change (nq 1) with 1. lra.
Qed.

Section Runs.

Variable bezierpointatt : bez -> Q -> point.
Variable bezierlength : bez -> Q.
Variable beziertatlength : bez -> Q -> Q.
Variable sqrt : Q -> Q.

(** *** The inner loop *)

Lemma while_dst_run (b : bez) (point_dst : Q) :
  0 < point_dst ->
  forall (bound fuel : nat) (length_left point_length : Q) (points : list point),
    length_left <= bezierlength b ->
    length_left <= nq bound * point_dst ->
    (length (offsets_from bound point_dst length_left point_length) < fuel)%nat ->
    exists d l : Q,
      while_dst bezierpointatt beziertatlength b point_dst (bezierlength b) fuel
                point_dst length_left point_length points
      = Ok (d, l,
            points
            ++ flat_map (sample_at bezierpointatt bezierlength beziertatlength b)
                 (offsets_from bound point_dst length_left point_length)).
Proof.
  intros Hs bound.
  induction bound as [|bound IH];
    intros fuel length_left point_length points Hlen Hb Hf;
    (destruct fuel as [|fuel]; [cbn in Hf; lia|]);
    cbn [while_dst offsets_from].
  - assert (E : Qltb point_dst length_left = false).
    { apply Qltb_ge. change (nq 0) with 0 in Hb. lra. }
    rewrite E. cbn [flat_map]. rewrite app_nil_r. now eexists; eexists.
  - cbn [offsets_from] in Hf.
    destruct (Qltb_reflect point_dst length_left) as [Hlt|Hge].
    + assert (E0 : Qeq_bool (bezierlength b) 0 = false).
      { destruct (Qeq_bool (bezierlength b) 0) eqn:E; trivial.
        apply Qeq_bool_iff in E. lra. }
      unfold py_div. rewrite E0. cbn [bind length] in *.
      destruct (IH fuel (length_left - point_dst) (point_length + point_dst)
                  (if interior_time
                        (beziertatlength b
                           ((point_length + point_dst) / bezierlength b))
                   then points
                        ++ [bezierpointatt b
                              (beziertatlength b
                                 ((point_length + point_dst) / bezierlength b))]
                   else points))
        as [d [l E]].
      * lra.
      * rewrite nq_S in Hb. lra.
      * lia.
      * exists d, l. rewrite E. f_equal. f_equal.
        cbn [flat_map]. unfold sample_at at 2.
        destruct (interior_time _); [|reflexivity].
        now rewrite <- app_assoc.
    + cbn [flat_map]. rewrite app_nil_r. now eexists; eexists.
Qed.

(** *** One segment *)

Lemma segment_run (b : bez) (point_dst : Q) (fuel : nat) (points : list point) :
  0 < point_dst ->
  (S (length (offsets point_dst (bezierlength b))) <= fuel)%nat ->
  (if Qltb 0.01
        (Qabs (point_point_dst sqrt (bezierpointatt b 0) (bezierpointatt b 1)
               - bezierlength b))
   then
     st <- while_dst bezierpointatt beziertatlength b point_dst
                     (bezierlength b) fuel point_dst (bezierlength b) 0
                     (points ++ [bezierpointatt b 0]) ;;
     Ok (snd st)
   else Ok (points ++ [bezierpointatt b 0]))
  = Ok (points
        ++ segment_points bezierpointatt bezierlength beziertatlength sqrt
             b point_dst).
Proof.
  intros Hs Hf. unfold segment_points, curved.
  destruct (Qltb 0.01 _).
  - destruct (while_dst_run b point_dst Hs
                (Z.to_nat (Qceiling (bezierlength b / point_dst))) fuel
                (bezierlength b) 0 (points ++ [bezierpointatt b 0]))
      as [d [l E]].
    + lra.
    + now apply ceiling_enough.
    + unfold offsets in Hf. lia.
    + rewrite E. cbn [bind snd]. unfold offsets.
      now rewrite <- app_assoc.
  - reflexivity.
Qed.

(** *** The chain *)

Lemma index_middle {A : Type} (pre post : list A) (x : A) :
  index (pre ++ x :: post) (length pre) = Ok x.
Proof.
  unfold index. now rewrite nth_error_app2, Nat.sub_diag by lia.
Qed.

Lemma index_next {A : Type} (pre post : list A) (x y : A) :
  index (pre ++ x :: y :: post) (S (length pre)) = Ok y.
Proof.
  unfold index. rewrite nth_error_app2 by lia.
  replace (S (length pre) - length pre)%nat with 1%nat by lia.
  reflexivity.
Qed.

Lemma while_i_chain (point_dst : Q) (add_last : bool) (fuel : nat) :
  0 < point_dst ->
  forall (tl pre : list node) (sp1 : node) (points : list point),
    Forall (fun sp => (segment_fuel bezierlength point_dst sp <= fuel)%nat)
           (combine (sp1 :: tl) tl) ->
    while_i bezierpointatt bezierlength beziertatlength sqrt
            (pre ++ sp1 :: tl) point_dst add_last fuel
            (length tl) (S (length pre)) points
    = Ok (points
          ++ chain_points bezierpointatt bezierlength beziertatlength sqrt
               (sp1 :: tl) point_dst add_last).
Proof.
  intro Hs. induction tl as [|sp2 rest IH]; intros pre sp1 points Hf.
  - cbn. now rewrite app_nil_r.
  - cbn [length while_i].
    replace (S (length pre) - 1)%nat with (length pre) by lia.
    rewrite index_middle, index_next. cbn [bind]. cbn zeta.
    inversion Hf as [|sp l Hseg Hrest]; subst.
    rewrite segment_run; [|exact Hs|exact Hseg]. cbn [bind].
    replace (pre ++ sp1 :: sp2 :: rest) with ((pre ++ [sp1]) ++ sp2 :: rest)
      by (now rewrite <- app_assoc).
    replace (S (length pre) + 1)%nat with (S (length (pre ++ [sp1])))
      by (rewrite length_app; cbn; lia).
    assert (Elast : (S (length (pre ++ [sp1]))
                     =? length ((pre ++ [sp1]) ++ sp2 :: rest))%nat
                    = match rest with [] => true | _ :: _ => false end).
    { rewrite !length_app. cbn [length]. destruct rest; cbn [length].
      - apply Nat.eqb_eq. lia.
      - apply Nat.eqb_neq. lia. }
    rewrite Elast. rewrite IH by exact Hrest.
    f_equal. cbn [chain_points]. rewrite <- !app_assoc.
    destruct rest, add_last; cbn [andb app]; rewrite <- ?app_assoc; reflexivity.
Qed.

Lemma csp_sub_points_dst_chain (csp_sub : list node) (point_dst : Q)
    (add_last : bool) (fuel : nat) :
  0 < point_dst ->
  (chain_fuel bezierlength csp_sub point_dst <= fuel)%nat ->
  csp_sub_points_dst bezierpointatt bezierlength beziertatlength sqrt
                     fuel csp_sub point_dst add_last
  = Ok (chain_points bezierpointatt bezierlength beziertatlength sqrt
          csp_sub point_dst add_last).
Proof.
  intros Hs Hf. unfold csp_sub_points_dst. destruct csp_sub as [|sp1 tl].
  - reflexivity.
  - cbn [length]. rewrite Nat.sub_1_r. cbn [Nat.pred].
    apply (while_i_chain point_dst add_last fuel Hs tl [] sp1 []).
    unfold chain_fuel in Hf. apply list_max_le in Hf.
    rewrite Forall_map in Hf. exact Hf.
Qed.

(** A segment whose arc length is within 0.01 of its chord is not
    sampled inside, whatever the spacing and the fuel. *)
Lemma straight_segment (sp1 sp2 : node) (point_dst : Q) (fuel : nat) :
  curved bezierpointatt bezierlength sqrt (getbez sp1 sp2) = false ->
  csp_sub_points_dst bezierpointatt bezierlength beziertatlength sqrt
                     fuel [sp1; sp2] point_dst true
  = Ok [bezierpointatt (getbez sp1 sp2) 0; bezierpointatt (getbez sp1 sp2) 1].
Proof.
  intro Hc. unfold csp_sub_points_dst. cbn [length Nat.sub while_i].
  unfold index. cbn [nth_error bind]. cbn zeta.
  unfold curved in Hc. rewrite Hc. reflexivity.
Qed.

End Runs.

Import Reference.

(** *** Runs on concrete chains *)

Example straight_chain_length :
  bezierlength (getbez ((0, 0), (0, 0), (3, 0)) ((7, 0), (10, 0), (10, 0))) == 10 /\
  point_point_dst Qsqrt (0, 0) (10, 0) == 10.
Proof. split; vm_compute; reflexivity. Qed.

Example arch_chain_sampled :
  exists p1 p2 p3 : point,
    csp_sub_points_dst bezierpointatt bezierlength beziertatlength Qsqrt
                       4 arch_chain 5 true
    = Ok [(0, 0); p1; p2; p3; (10, 0); (20, 0)] /\
    point_eq p2 (5, 7.5).
Proof.
  do 3 eexists. split; [vm_compute; reflexivity|]. split; reflexivity.
Qed.

(** C1 (as stated, refuted): Scenario B.  The straight cubic from (0,0) to
    (10,0) with controls (3,0) and (7,0) has arc length 10 and chord 10,
    so the guard [difference > 0.01] is false and no interior point is
    emitted: with spacing 2 and [add_last] the result is the two end
    points, not the six points x = 0, 2, 4, 6, 8, 10. *)
Lemma straight_chain_two_points :
  csp_sub_points_dst bezierpointatt bezierlength beziertatlength Qsqrt
                     8 straight_chain 2 true
  = Ok [(0, 0); (10, 0)] /\
  csp_sub_points_dst bezierpointatt bezierlength beziertatlength Qsqrt
                     8 straight_chain 2 true
  <> Ok [(0, 0); (2, 0); (4, 0); (6, 0); (8, 0); (10, 0)].
Proof.
  split.
  - vm_compute. reflexivity.
  - intro H. vm_compute in H. discriminate.
Qed.

(** C1 (amended): with a positive spacing, [csp_sub_points_dst] returns,
    for each segment of the chain in order, the segment's start point,
    followed -- only when the segment's arc length differs from its chord
    by more than 0.01 -- by the points at the arc-length targets spacing,
    2 spacing, ... that stay below the arc length, each obtained through
    [beziertatlength] and kept when its parameter lies strictly between
    0.0001 and 0.9999; the end point of the last segment closes the list
    when [add_last] is set.  A single segment within 0.01 of straight
    gives exactly its two end points. *)
Theorem csp_sub_points_dst_spec :
  forall (pointatt : bez -> Q -> point) (length_of : bez -> Q)
         (tatlength : bez -> Q -> Q) (sqrt : Q -> Q)
         (csp_sub : list node) (point_dst : Q) (add_last : bool),
    0 < point_dst ->
    (forall fuel : nat,
       (chain_fuel length_of csp_sub point_dst <= fuel)%nat ->
       csp_sub_points_dst pointatt length_of tatlength sqrt
                          fuel csp_sub point_dst add_last
       = Ok (chain_points pointatt length_of tatlength sqrt
               csp_sub point_dst add_last)) /\
    (forall (len : Q) (k : nat) (target : Q),
       nth_error (offsets point_dst len) k = Some target ->
       target == nq (S k) * point_dst /\ target < len) /\
    (forall len : Q,
       len <= nq (S (length (offsets point_dst len))) * point_dst) /\
    (forall (sp1 sp2 : node) (fuel : nat),
       curved pointatt length_of sqrt (getbez sp1 sp2) = false ->
       csp_sub_points_dst pointatt length_of tatlength sqrt
                          fuel [sp1; sp2] point_dst true
       = Ok [pointatt (getbez sp1 sp2) 0; pointatt (getbez sp1 sp2) 1]).
Proof.
  intros pointatt length_of tatlength sqrt csp_sub point_dst add_last Hs.
  split; [|split; [|split]].
  - intros fuel Hf. now apply csp_sub_points_dst_chain.
  - intros len k target H. unfold offsets in H.
    apply offsets_from_nth in H as [Ht Hl]. split; lra.
  - intro len. unfold offsets.
    apply offsets_from_stop; [exact Hs | now apply ceiling_enough].
  - intros sp1 sp2 fuel Hc. now apply straight_segment.
Qed.

Lemma csp_sub_points_dst_spec_witness :
  (forall fuel : nat,
     (chain_fuel bezierlength arch_chain 5 <= fuel)%nat ->
     csp_sub_points_dst bezierpointatt bezierlength beziertatlength Qsqrt
                        fuel arch_chain 5 true
     = Ok (chain_points bezierpointatt bezierlength beziertatlength Qsqrt
             arch_chain 5 true)) /\
  (forall (len : Q) (k : nat) (target : Q),
     nth_error (offsets 5 len) k = Some target ->
     target == nq (S k) * 5 /\ target < len) /\
  (forall len : Q, len <= nq (S (length (offsets 5 len))) * 5) /\
  (forall (sp1 sp2 : node) (fuel : nat),
     curved bezierpointatt bezierlength Qsqrt (getbez sp1 sp2) = false ->
     csp_sub_points_dst bezierpointatt bezierlength beziertatlength Qsqrt
                        fuel [sp1; sp2] 5 true
     = Ok [bezierpointatt (getbez sp1 sp2) 0; bezierpointatt (getbez sp1 sp2) 1]).
Proof.
  apply (csp_sub_points_dst_spec bezierpointatt bezierlength beziertatlength
           Qsqrt arch_chain 5 true).
  reflexivity.
Defined.

End SamplerFacts.

(* ================================================================== *)
(** * Further properties of the modelled code *)

(* ------------------------------------------------------------------ *)
(** ** Segment intersection and orientation *)

Module UtilMore.
Import Num Data Util NumFacts UtilFacts.
Open Scope Q_scope.

Lemma seg_d_swap (p1 p2 p3 p4 : point) :
  seg_d p3 p4 p1 p2 == - seg_d p1 p2 p3 p4.
Proof. unfold seg_d. ring. Qed.

Lemma seg_ua_swap (p1 p2 p3 p4 : point) :
  ~ seg_d p1 p2 p3 p4 == 0 ->
  seg_ua p3 p4 p1 p2 == seg_ub p1 p2 p3 p4.
Proof. intro H. unfold seg_ua, seg_ub, seg_d in *. field. split; lra. Qed.

Lemma seg_ub_swap (p1 p2 p3 p4 : point) :
  ~ seg_d p1 p2 p3 p4 == 0 ->
  seg_ub p3 p4 p1 p2 == seg_ua p1 p2 p3 p4.
Proof. intro H. unfold seg_ua, seg_ub, seg_d in *. field. split; lra. Qed.

Lemma hit_both_x (p1 p2 p3 p4 : point) :
  ~ seg_d p1 p2 p3 p4 == 0 ->
  fst p1 + (fst p2 - fst p1) * seg_ua p1 p2 p3 p4
  == fst p3 + (fst p4 - fst p3) * seg_ub p1 p2 p3 p4.
Proof. intro H. unfold seg_ua, seg_ub, seg_d in *. field. lra. Qed.

Lemma hit_both_y (p1 p2 p3 p4 : point) :
  ~ seg_d p1 p2 p3 p4 == 0 ->
  snd p1 + (snd p2 - snd p1) * seg_ua p1 p2 p3 p4
  == snd p3 + (snd p4 - snd p3) * seg_ub p1 p2 p3 p4.
Proof. intro H. unfold seg_ua, seg_ub, seg_d in *. field. lra. Qed.

Lemma hit_params (p1 p2 p3 p4 q : point) :
  intersect_segments p1 p2 p3 p4 = Some q ->
  ~ seg_d p1 p2 p3 p4 == 0 /\
  0 <= seg_ua p1 p2 p3 p4 <= 1 /\ 0 <= seg_ub p1 p2 p3 p4 <= 1.
Proof.
  intro E.
  assert (N : ~ no_hit p1 p2 p3 p4).
  { rewrite <- no_hit_iff. congruence. }
  unfold no_hit in N.
  split; [tauto|].
  split; split; apply Qnot_lt_le; tauto.
Qed.

(** X1: when [intersect_segments] returns a point, that point lies on
    both segments: it is a1 + ua (a2 - a1) and also b1 + ub (b2 - b1)
    for parameters ua, ub in [0, 1]. *)
Theorem intersect_segments_on_both :
  forall p1 p2 p3 p4 q : point,
    intersect_segments p1 p2 p3 p4 = Some q ->
    exists ua ub : Q,
      0 <= ua <= 1 /\ 0 <= ub <= 1 /\
      point_eq q (fst p1 + (fst p2 - fst p1) * ua,
                  snd p1 + (snd p2 - snd p1) * ua) /\
      point_eq q (fst p3 + (fst p4 - fst p3) * ub,
                  snd p3 + (snd p4 - snd p3) * ub).
Proof.
  intros p1 p2 p3 p4 q E.
  destruct (hit_params _ _ _ _ _ E) as [Hd [Ha Hb]].
  exists (seg_ua p1 p2 p3 p4), (seg_ub p1 p2 p3 p4).
  rewrite (hit_point _ _ _ _ _ E).
  split; [exact Ha|]. split; [exact Hb|]. split.
  - split; reflexivity.
  - split; cbn [fst snd]; [now apply hit_both_x | now apply hit_both_y].
Qed.

Lemma intersect_segments_on_both_witness :
  exists (q : point) (ua ub : Q),
    intersect_segments (0, 0) (10, 10) (0, 10) (10, 0) = Some q /\
    0 <= ua <= 1 /\ 0 <= ub <= 1 /\
    point_eq q (fst (0, 0) + (fst (10, 10) - fst (0, 0)) * ua,
                snd (0, 0) + (snd (10, 10) - snd (0, 0)) * ua) /\
    point_eq q (fst (0, 10) + (fst (10, 0) - fst (0, 10)) * ub,
                snd (0, 10) + (snd (10, 0) - snd (0, 10)) * ub).
Proof.
  eexists.
  assert (E : intersect_segments (0, 0) (10, 10) (0, 10) (10, 0)
              = Some (1000 # 200, 1000 # 200)) by reflexivity.
  destruct (intersect_segments_on_both _ _ _ _ _ E) as [ua [ub H]].
  exists ua, ub. split; [exact E | exact H].
Defined.

Lemma no_hit_swap (p1 p2 p3 p4 : point) :
  no_hit p1 p2 p3 p4 -> no_hit p3 p4 p1 p2.
Proof.
  intro H. unfold no_hit.
  destruct (Qeq_dec (seg_d p1 p2 p3 p4) 0) as [Z|NZ].
  - left. rewrite seg_d_swap, Z. reflexivity.
  - right. rewrite (seg_ua_swap _ _ _ _ NZ), (seg_ub_swap _ _ _ _ NZ).
    unfold no_hit in H. tauto.
Qed.

(** X2: exchanging the two segments does not change the answer of
    [intersect_segments]: no intersection one way is no intersection the
    other way, and two returned points are the same point. *)
Theorem intersect_segments_swap :
  forall p1 p2 p3 p4 : point,
    (intersect_segments p1 p2 p3 p4 = None <->
     intersect_segments p3 p4 p1 p2 = None) /\
    (forall q q' : point,
       intersect_segments p1 p2 p3 p4 = Some q ->
       intersect_segments p3 p4 p1 p2 = Some q' ->
       point_eq q q').
Proof.
  intros p1 p2 p3 p4. split.
  - rewrite !no_hit_iff. split; apply no_hit_swap.
  - intros q q' E E'.
    destruct (hit_params _ _ _ _ _ E) as [Hd _].
    rewrite (hit_point _ _ _ _ _ E), (hit_point _ _ _ _ _ E').
    split; cbn [fst snd].
    + rewrite (seg_ua_swap _ _ _ _ Hd). now apply hit_both_x.
    + rewrite (seg_ua_swap _ _ _ _ Hd). now apply hit_both_y.
Qed.

(** X3: [intersect_segments] reports no intersection for a segment
    against itself and whenever one of the two segments has no length,
    even if the single point lies on the other segment. *)
Theorem intersect_segments_degenerate :
  forall p1 p2 p3 : point,
    intersect_segments p1 p2 p1 p2 = None /\
    intersect_segments p1 p1 p2 p3 = None /\
    intersect_segments p1 p2 p3 p3 = None.
Proof.
  intros p1 p2 p3. rewrite !no_hit_iff.
  repeat split; left; unfold seg_d; ring.
Qed.

Lemma ensure_right_pointing_cases (vertices : list point) :
  (2 <= length vertices)%nat ->
  ensure_right_pointing_vertices vertices = Ok vertices \/
  ensure_right_pointing_vertices vertices = Ok (rev vertices).
Proof.
  intro H. destruct vertices as [|p0 [|p1 rest]]; cbn in H; try lia.
  unfold ensure_right_pointing_vertices, index. cbn [nth_error bind].
  destruct (Qltb (fst p0) (fst p1)); auto.
Qed.

Lemma ensure_right_pointing_too_short (vertices : list point) :
  (length vertices < 2)%nat ->
  ensure_right_pointing_vertices vertices = Raise IndexError.
Proof.
  intro H. destruct vertices as [|p0 [|p1 rest]]; cbn in H; try lia; reflexivity.
Qed.

(** X4: [ensure_right_pointing_vertices] raises [IndexError] on fewer
    than two points; otherwise it returns the list or its reverse; a
    pair of points with different x comes out ordered by x, and is then
    left alone. *)
Theorem ensure_right_pointing_vertices_result :
  forall vertices : list point,
    ((length vertices < 2)%nat ->
     ensure_right_pointing_vertices vertices = Raise IndexError) /\
    ((2 <= length vertices)%nat ->
     ensure_right_pointing_vertices vertices = Ok vertices \/
     ensure_right_pointing_vertices vertices = Ok (rev vertices)) /\
    (forall p0 p1 : point,
       vertices = [p0; p1] -> ~ fst p0 == fst p1 ->
       exists a b : point,
         ensure_right_pointing_vertices vertices = Ok [a; b] /\
         fst a < fst b /\
         ensure_right_pointing_vertices [a; b] = Ok [a; b]).
Proof.
  intro vertices. split; [|split].
  - apply ensure_right_pointing_too_short.
  - apply ensure_right_pointing_cases.
  - intros p0 p1 -> Hne.
    unfold ensure_right_pointing_vertices, index. cbn [nth_error bind].
    destruct (Qltb_reflect (fst p0) (fst p1)) as [Hlt|Hge].
    + exists p0, p1. repeat split; trivial.
      now rewrite (proj2 (Qltb_lt _ _) Hlt).
    + exists p1, p0. cbn [rev app].
      assert (Hlt : fst p1 < fst p0).
      { apply Qnot_le_lt. intro Hle. apply Hne.
        apply Qle_antisym; [exact Hle | now apply Qnot_lt_le]. }
      repeat split; trivial.
      now rewrite (proj2 (Qltb_lt _ _) Hlt).
Qed.

Lemma ensure_right_pointing_vertices_result_witness :
  exists a b : point,
    ensure_right_pointing_vertices [(7, 1); (2, 5)] = Ok [a; b] /\
    fst a < fst b /\
    ensure_right_pointing_vertices [a; b] = Ok [a; b].
Proof.
  apply (proj2 (proj2 (ensure_right_pointing_vertices_result [(7, 1); (2, 5)]))
           (7, 1) (2, 5)).
  - reflexivity.
  - intro H. vm_compute in H. discriminate.
Defined.

End UtilMore.

(* ------------------------------------------------------------------ *)
(** ** Path length and the hill-size distance *)

Module MetricsFacts.
Import Num Data Util Sampler Py Metrics NumFacts UtilFacts.
Open Scope Q_scope.

Section Length.

Variable sqrt : Q -> Q.

Lemma size_fold_fst (l : list point) (p : point) (st : option point * Q) :
  fst (fold_left (size_step sqrt) (l ++ [p]) st) = Some p.
Proof. now rewrite fold_left_app. Qed.

Lemma path_sum_cons (p q : point) (l : list point) :
  path_sum sqrt (p :: q :: l)
  = point_point_dst sqrt p q + path_sum sqrt (q :: l).
Proof. reflexivity. Qed.

Lemma size_fold_from (l : list point) :
  forall (f : point) (d : Q),
    snd (fold_left (size_step sqrt) l (Some f, d))
    == d + path_sum sqrt (f :: l).
Proof.
  induction l as [|p l IH]; intros f d; cbn [fold_left].
  - cbn [snd path_sum]. ring.
  - unfold size_step at 2. cbn [fst snd]. rewrite IH, path_sum_cons.
    unfold point_point_dst. ring.
Qed.

Lemma calc_path_sum (vertices : list point) :
  calc_vertices_path_size sqrt vertices == path_sum sqrt vertices.
Proof.
  unfold calc_vertices_path_size. destruct vertices as [|f l].
  - reflexivity.
  - cbn [fold_left]. unfold size_step at 2. cbn [fst snd].
    rewrite size_fold_from. ring.
Qed.

Lemma path_sum_app (a b : list point) (p : point) :
  path_sum sqrt (a ++ p :: b)
  == path_sum sqrt (a ++ [p]) + path_sum sqrt (p :: b).
Proof.
  induction a as [|x a IH].
  - cbn [app path_sum]. ring.
  - destruct a as [|y a].
    + cbn [app]. rewrite !path_sum_cons. cbn [path_sum]. ring.
    + cbn [app] in *. rewrite !path_sum_cons, IH. ring.
Qed.

Lemma calc_short (vertices : list point) :
  (length vertices < 2)%nat -> calc_vertices_path_size sqrt vertices = 0.
Proof.
  destruct vertices as [|p [|q l]]; cbn [length]; intro H; try lia; reflexivity.
Qed.

Lemma sq_swap (a b : Q) : (a - b) ^ 2 == (b - a) ^ 2.
Proof. change ((a - b) * (a - b) == (b - a) * (b - a)). ring. Qed.

Section Symmetric.

Hypothesis sqrt_proper : forall x y : Q, x == y -> sqrt x == sqrt y.

Lemma dst_sym (p q : point) :
  point_point_dst sqrt p q == point_point_dst sqrt q p.
Proof.
  unfold point_point_dst. apply sqrt_proper.
  rewrite (sq_swap (fst p) (fst q)), (sq_swap (snd p) (snd q)). reflexivity.
Qed.

Lemma path_sum_rev (l : list point) :
  forall p : point, path_sum sqrt (rev (p :: l)) == path_sum sqrt (p :: l).
Proof.
  induction l as [|q l IH]; intro p.
  - reflexivity.
  - rewrite path_sum_cons, <- IH. cbn [rev]. rewrite <- app_assoc. cbn [app].
    rewrite path_sum_app. cbn [path_sum]. rewrite (dst_sym q p). ring.
Qed.

Lemma calc_rev (vertices : list point) :
  calc_vertices_path_size sqrt (rev vertices)
  == calc_vertices_path_size sqrt vertices.
Proof.
  rewrite !calc_path_sum. destruct vertices as [|p l].
  - reflexivity.
  - apply path_sum_rev.
Qed.

End Symmetric.

Lemma path_sum_nonneg :
  (forall x : Q, 0 <= sqrt x) ->
  forall vertices : list point, 0 <= path_sum sqrt vertices.
Proof.
  intros Hs vertices. induction vertices as [|p [|q l] IH].
  - cbn. lra.
  - cbn. lra.
  - rewrite path_sum_cons. unfold point_point_dst.
    pose proof (Hs ((fst p - fst q) ^ 2 + (snd p - snd q) ^ 2)). lra.
Qed.

(** *** The loop that measures the hill size *)

Lemma never_meets_cons (f v : point) (rest : list point) (c0 c1 : point) :
  intersect_segments f v c0 c1 = None ->
  never_meets (v :: rest) c0 c1 -> never_meets (f :: v :: rest) c0 c1.
Proof.
  intros H0 H i a b Ha Hb. destruct i as [|i].
  - cbn in Ha, Hb. congruence.
  - exact (H i a b Ha Hb).
Qed.

Lemma hill_loop_from (c0 c1 : point) (rest : list point) :
  forall (f : point) (d : Q),
    match fst (hill_size_loop sqrt c0 c1 rest (Some f) d) with
    | None => never_meets (f :: rest) c0 c1
    | Some q =>
        exists (k : nat) (a b : point),
          nth_error (f :: rest) k = Some a /\
          nth_error (f :: rest) (S k) = Some b /\
          intersect_segments a b c0 c1 = Some q /\
          never_meets (firstn (S k) (f :: rest)) c0 c1 /\
          snd (hill_size_loop sqrt c0 c1 rest (Some f) d)
          = snd (fold_left (size_step sqrt) (firstn k rest ++ [q]) (Some f, d))
    end.
Proof.
  induction rest as [|v rest IH]; intros f d; cbn [hill_size_loop].
  - cbn [fst]. intros i a b Ha Hb. destruct i; discriminate.
  - destruct (intersect_segments f v c0 c1) as [q|] eqn:E.
    + cbn [fst snd]. exists 0%nat, f, v. repeat split; trivial.
      intros i a b Ha Hb. destruct i; discriminate.
    + specialize (IH v (d + point_point_dst sqrt f v)).
      destruct (fst (hill_size_loop sqrt c0 c1 rest (Some v) _)) as [q|].
      * destruct IH as [k [a [b [Ha [Hb [Hq [Hn Hd]]]]]]].
        exists (S k), a, b.
        split; [exact Ha|]. split; [exact Hb|]. split; [exact Hq|].
        split; [|rewrite Hd; reflexivity].
        cbn [firstn] in *. now apply never_meets_cons.
      * now apply never_meets_cons.
Qed.

End Length.

Import Reference Reference2.

Lemma Qsqrt_nonneg (q : Q) : 0 <= Qsqrt q.
Proof.
  unfold Qsqrt. rewrite Qred_correct. unfold Qle. cbn [Qnum Qden].
  pose proof (Z.sqrt_nonneg (Qnum q * QDen q * (1000000 * 1000000))). lia.
Qed.

Lemma Qsqrt_red_nonneg (q : Q) : 0 <= Qsqrt_red q.
Proof. apply Qsqrt_nonneg. Qed.

Lemma Qsqrt_red_proper (x y : Q) : x == y -> Qsqrt_red x == Qsqrt_red y.
Proof.
  intro H. unfold Qsqrt_red. now rewrite (Qred_complete x y H).
Qed.

Example ramp_size : calc_vertices_path_size Qsqrt_red ramp == 15.
Proof. vm_compute. reflexivity. Qed.

(** X5: [calc_vertices_path_size] is the sum of the distances between
    consecutive points: zero for fewer than two points, and additive
    when a path is cut at one of its points. *)
Theorem calc_vertices_path_size_sum :
  forall (sqrt : Q -> Q) (vertices : list point),
    calc_vertices_path_size sqrt vertices == path_sum sqrt vertices /\
    ((length vertices < 2)%nat -> calc_vertices_path_size sqrt vertices = 0) /\
    (forall (a b : list point) (p : point),
       vertices = a ++ p :: b ->
       calc_vertices_path_size sqrt vertices
       == calc_vertices_path_size sqrt (a ++ [p])
          + calc_vertices_path_size sqrt (p :: b)).
Proof.
  intros sqrt vertices. split; [apply calc_path_sum|].
  split; [apply calc_short|].
  intros a b p ->. rewrite !calc_path_sum. apply path_sum_app.
Qed.

Lemma calc_vertices_path_size_sum_witness :
  calc_vertices_path_size Qsqrt_red ramp
  == calc_vertices_path_size Qsqrt_red ([(0, 0)] ++ [(4, 3)])
     + calc_vertices_path_size Qsqrt_red ((4, 3) :: [(8, 6); (12, 9)]).
Proof.
  apply (proj2 (proj2 (calc_vertices_path_size_sum Qsqrt_red ramp))
           [(0, 0)] [(8, 6); (12, 9)] (4, 3)).
  reflexivity.
Defined.

(** X6: with a square root that is never negative, the path size is
    never negative. *)
Theorem calc_vertices_path_size_nonneg :
  forall (sqrt : Q -> Q) (vertices : list point),
    (forall x : Q, 0 <= sqrt x) ->
    0 <= calc_vertices_path_size sqrt vertices.
Proof.
  intros sqrt vertices Hs. rewrite calc_path_sum. now apply path_sum_nonneg.
Qed.

Lemma calc_vertices_path_size_nonneg_witness :
  0 <= calc_vertices_path_size Qsqrt_red ramp.
Proof.
  apply (calc_vertices_path_size_nonneg Qsqrt_red ramp). exact Qsqrt_red_nonneg.
Defined.

(** X7: orienting a path does not change its size: whatever
    [ensure_right_pointing_vertices] returns has the size of its input
    (the square root being a function of the number, not of how it is
    written). *)
Theorem ensure_right_pointing_keeps_size :
  forall (sqrt : Q -> Q) (vertices oriented : list point),
    (forall x y : Q, x == y -> sqrt x == sqrt y) ->
    ensure_right_pointing_vertices vertices = Ok oriented ->
    calc_vertices_path_size sqrt oriented
    == calc_vertices_path_size sqrt vertices.
Proof.
  intros sqrt vertices oriented Hs E.
  unfold ensure_right_pointing_vertices in E.
  destruct (index vertices 1) as [v1| |]; try discriminate.
  destruct (index vertices 0) as [v0| |]; try discriminate.
  cbn [bind] in E. destruct (Qltb (fst v0) (fst v1)); injection E as <-.
  - reflexivity.
  - now apply calc_rev.
Qed.

Lemma ensure_right_pointing_keeps_size_witness :
  calc_vertices_path_size Qsqrt_red ramp
  == calc_vertices_path_size Qsqrt_red (rev ramp).
Proof.
  apply (ensure_right_pointing_keeps_size Qsqrt_red (rev ramp) ramp).
  - exact Qsqrt_red_proper.
  - reflexivity.
Defined.

(** X8: the hill-size loop raises its exception exactly when no segment
    of the out-run path meets the cross-section, which is always the
    case for a path of fewer than two points; it never fails in another
    way. *)
Theorem hill_size_path_length_fails :
  forall (sqrt : Q -> Q) (out_run_path : list point) (cross0 cross1 : point),
    (hill_size_path_length sqrt out_run_path cross0 cross1
     = Failed (Exception Messages.no_cross)
     <-> never_meets out_run_path cross0 cross1) /\
    ((length out_run_path < 2)%nat ->
     hill_size_path_length sqrt out_run_path cross0 cross1
     = Failed (Exception Messages.no_cross)) /\
    ((exists d, hill_size_path_length sqrt out_run_path cross0 cross1 = Done d) \/
     hill_size_path_length sqrt out_run_path cross0 cross1
     = Failed (Exception Messages.no_cross)).
Proof.
  intros sqrt path c0 c1.
  assert (Iff : hill_size_path_length sqrt path c0 c1
                = Failed (Exception Messages.no_cross)
                <-> never_meets path c0 c1).
  { unfold hill_size_path_length. destruct path as [|f rest].
    - cbn. split; trivial. intros _ i a b Ha. destruct i; discriminate.
    - cbn [hill_size_loop].
      pose proof (hill_loop_from sqrt c0 c1 rest f 0) as H.
      destruct (hill_size_loop sqrt c0 c1 rest (Some f) 0) as [[q|] d];
        cbn [fst snd] in H.
      + split; [discriminate|]. intro N.
        destruct H as [k [a [b [Ha [Hb [Hq _]]]]]].
        rewrite (N k a b Ha Hb) in Hq. discriminate.
      + split; trivial. }
  split; [exact Iff|]. split.
  - intro H. apply Iff. intros i a b Ha Hb.
    destruct path as [|f [|v rest]]; cbn [length] in H; try lia;
      destruct i; discriminate.
  - unfold hill_size_path_length.
    destruct (hill_size_loop sqrt c0 c1 path None 0) as [[q|] d];
      [left; now exists d | now right].
Qed.

Lemma hill_size_path_length_fails_witness :
  hill_size_path_length Qsqrt_red [(3, 3)] cross_lo cross_hi
  = Failed (Exception Messages.no_cross).
Proof.
  apply (proj1 (proj2 (hill_size_path_length_fails
                         Qsqrt_red [(3, 3)] cross_lo cross_hi))).
  cbn. lia.
Defined.

(** X9: when the hill-size loop returns, the distance is the size of the
    out-run path cut at its first crossing of the cross-section: the
    points up to the start of the first segment that meets it, followed
    by the meeting point. *)
Theorem hill_size_path_length_cut :
  forall (sqrt : Q -> Q) (out_run_path : list point) (cross0 cross1 : point)
         (distance : Q),
    hill_size_path_length sqrt out_run_path cross0 cross1 = Done distance ->
    exists (k : nat) (a b q : point),
      nth_error out_run_path k = Some a /\
      nth_error out_run_path (S k) = Some b /\
      intersect_segments a b cross0 cross1 = Some q /\
      never_meets (firstn (S k) out_run_path) cross0 cross1 /\
      distance
      = calc_vertices_path_size sqrt (firstn (S k) out_run_path ++ [q]).
Proof.
  intros sqrt path c0 c1 distance E. unfold hill_size_path_length in E.
  destruct path as [|f rest]; [discriminate|]. cbn [hill_size_loop] in E.
  pose proof (hill_loop_from sqrt c0 c1 rest f 0) as H.
  destruct (hill_size_loop sqrt c0 c1 rest (Some f) 0) as [[q|] d];
    [|discriminate].
  injection E as <-. cbn [fst snd] in H.
  destruct H as [k [a [b [Ha [Hb [Hq [Hn Hd]]]]]]].
  exists k, a, b, q. repeat (split; trivial).
Qed.

Lemma hill_size_path_length_cut_witness :
  exists distance : Q,
    hill_size_path_length Qsqrt_red ramp cross_lo cross_hi = Done distance /\
    distance == 6.25 /\
    exists (k : nat) (a b q : point),
      nth_error ramp k = Some a /\
      nth_error ramp (S k) = Some b /\
      intersect_segments a b cross_lo cross_hi = Some q /\
      never_meets (firstn (S k) ramp) cross_lo cross_hi /\
      distance = calc_vertices_path_size Qsqrt_red (firstn (S k) ramp ++ [q]).
Proof.
  eexists. split; [vm_compute; reflexivity|]. split; [reflexivity|].
  apply (hill_size_path_length_cut Qsqrt_red ramp cross_lo cross_hi).
  vm_compute. reflexivity.
Defined.

End MetricsFacts.

(* ------------------------------------------------------------------ *)
(** ** Chains of segments: length, sampling by count, special paths *)

Module ChainFacts.
Import Num Data Util Sampler Py Metrics NumFacts SamplerFacts UtilMore.
Open Scope Q_scope.

Lemma pairs_app {A : Type} (a b : list A) (n : A) :
  combine (a ++ n :: b) (tl (a ++ n :: b))
  = combine (a ++ [n]) (tl (a ++ [n])) ++ combine (n :: b) b.
Proof.
  induction a as [|x a IH].
  - reflexivity.
  - destruct a as [|y a].
    + reflexivity.
    + cbn [app tl combine] in *. now rewrite IH.
Qed.

Section CspLength.

Variable cspseglength : node -> node -> Q.

Lemma length_loop_run :
  forall (tl pre : list node) (sp1 : node) (acc : Q),
    length_loop cspseglength (pre ++ sp1 :: tl) (length tl) (S (length pre)) acc
    = Ok (fold_left (fun a pr => a + cspseglength (fst pr) (snd pr))
                    (combine (sp1 :: tl) tl) acc).
Proof.
  induction tl as [|sp2 rest IH]; intros pre sp1 acc.
  - reflexivity.
  - cbn [length length_loop].
    replace (S (length pre) - 1)%nat with (length pre) by lia.
    rewrite index_middle, index_next. cbn [bind].
    replace (pre ++ sp1 :: sp2 :: rest) with ((pre ++ [sp1]) ++ sp2 :: rest)
      by (now rewrite <- app_assoc).
    replace (S (length pre) + 1)%nat with (S (length (pre ++ [sp1])))
      by (rewrite length_app; cbn; lia).
    rewrite IH. reflexivity.
Qed.

Lemma csp_sub_length_pairs (csp_sub : list node) :
  csp_sub_length cspseglength csp_sub
  = Ok (fold_left (fun a pr => a + cspseglength (fst pr) (snd pr))
                  (combine csp_sub (tl csp_sub)) 0).
Proof.
  unfold csp_sub_length. destruct csp_sub as [|sp1 tl]; [reflexivity|].
  cbn [length]. rewrite Nat.sub_1_r. cbn [Nat.pred].
  apply (length_loop_run tl [] sp1 0).
Qed.

Lemma seg_fold_shift (l : list (node * node)) :
  forall acc : Q,
    fold_left (fun a pr => a + cspseglength (fst pr) (snd pr)) l acc
    == acc + fold_left (fun a pr => a + cspseglength (fst pr) (snd pr)) l 0.
Proof.
  induction l as [|pr l IH]; intro acc; cbn [fold_left].
  - ring.
  - rewrite IH, (IH (0 + _)). ring.
Qed.

End CspLength.

(** X10: [csp_sub_length] never fails, is zero on a chain of fewer than
    two nodes, and is additive when a chain is cut at a node. *)
Theorem csp_sub_length_additive :
  forall (cspseglength : node -> node -> Q) (a b : list node) (n : node),
    exists whole left_part right_part : Q,
      csp_sub_length cspseglength (a ++ n :: b) = Ok whole /\
      csp_sub_length cspseglength (a ++ [n]) = Ok left_part /\
      csp_sub_length cspseglength (n :: b) = Ok right_part /\
      whole == left_part + right_part /\
      csp_sub_length cspseglength [] = Ok 0 /\
      csp_sub_length cspseglength [n] = Ok 0.
Proof.
  intros seg a b n. do 3 eexists.
  rewrite !csp_sub_length_pairs. repeat split.
  rewrite pairs_app, fold_left_app. cbn [tl].
  apply seg_fold_shift.
Qed.

Section Count.

Variable bezierpointatt : bez -> Q -> point.
Variable beziertatlength : bez -> Q -> Q.

Lemma between_points_map (b : bez) (nodes_between : Z) (points : list point) :
  between_points bezierpointatt beziertatlength b nodes_between points
  = points
    ++ map (fun node =>
              bezierpointatt b
                (beziertatlength b
                   (inject_Z (node + 1) / inject_Z (nodes_between + 1))))
           (range nodes_between).
Proof.
  unfold between_points. generalize (range nodes_between) as l.
  intro l. revert points.
  induction l as [|k l IH]; intro points; cbn [fold_left map].
  - now rewrite app_nil_r.
  - rewrite IH, <- app_assoc. reflexivity.
Qed.

Lemma count_chain_cons (sp1 sp2 : node) (rest : list node)
    (nodes_between : Z) (add_last : bool) :
  count_chain_points bezierpointatt beziertatlength
                     (sp1 :: sp2 :: rest) nodes_between add_last
  = count_segment_points bezierpointatt beziertatlength
                         (getbez sp1 sp2) nodes_between
    ++ (match rest with
        | [] => if add_last then [bezierpointatt (getbez sp1 sp2) 1] else []
        | _ :: _ => []
        end)
    ++ count_chain_points bezierpointatt beziertatlength
                          (sp2 :: rest) nodes_between add_last.
Proof. reflexivity. Qed.

Lemma while_nodes_chain (nodes_between : Z) (add_last : bool) :
  forall (tl pre : list node) (sp1 : node) (points : list point),
    while_nodes bezierpointatt beziertatlength (pre ++ sp1 :: tl)
                nodes_between add_last (length tl) (S (length pre)) points
    = Ok (points
          ++ count_chain_points bezierpointatt beziertatlength
               (sp1 :: tl) nodes_between add_last).
Proof.
  induction tl as [|sp2 rest IH]; intros pre sp1 points.
  - cbn. now rewrite app_nil_r.
  - cbn [length while_nodes].
    replace (S (length pre) - 1)%nat with (length pre) by lia.
    rewrite index_middle, index_next. cbn [bind]. cbn zeta.
    rewrite between_points_map.
    replace (pre ++ sp1 :: sp2 :: rest) with ((pre ++ [sp1]) ++ sp2 :: rest)
      by (now rewrite <- app_assoc).
    replace (S (length pre) + 1)%nat with (S (length (pre ++ [sp1])))
      by (rewrite length_app; cbn; lia).
    assert (Elast : (S (length (pre ++ [sp1]))
                     =? length ((pre ++ [sp1]) ++ sp2 :: rest))%nat
                    = match rest with [] => true | _ :: _ => false end).
    { rewrite !length_app. cbn [length]. destruct rest; cbn [length].
      - apply Nat.eqb_eq. lia.
      - apply Nat.eqb_neq. lia. }
    rewrite Elast, IH. f_equal.
    rewrite count_chain_cons.
    unfold count_segment_points.
    destruct rest, add_last; cbn [andb];
      repeat rewrite <- app_assoc; cbn [app]; reflexivity.
Qed.

Lemma count_chain_length (nodes_between : Z) (add_last : bool) :
  forall (tl : list node) (sp1 : node),
    length (count_chain_points bezierpointatt beziertatlength
              (sp1 :: tl) nodes_between add_last)
    = (length tl * S (Z.to_nat nodes_between)
       + (if add_last && (1 <=? length tl) then 1 else 0))%nat.
Proof.
  induction tl as [|sp2 rest IH]; intro sp1.
  - cbn. now rewrite andb_false_r.
  - rewrite count_chain_cons, !length_app, IH.
    unfold count_segment_points, range. cbn [length].
    rewrite !length_map, length_seq.
    destruct rest, add_last; cbn [length andb Nat.leb Nat.mul]; lia.
Qed.

End Count.

(** X11: sampling by count never fails. It emits, for each segment, the
    start point and then one point per arc-length fraction k/(n+1), k =
    1..n, and with [add_last] the end point of the last segment; so a
    chain of m+1 nodes gives m (n+1) points, plus one with [add_last]
    when m >= 1. A count that is zero or negative adds no point. *)
Theorem csp_sub_points_nodes_between_spec :
  forall (pointatt : bez -> Q -> point) (tatlength : bez -> Q -> Q)
         (csp_sub : list node) (nodes_between : Z) (add_last : bool),
    exists points : list point,
      csp_sub_points_nodes_between pointatt tatlength
                                   csp_sub nodes_between add_last
      = Ok points /\
      points = count_chain_points pointatt tatlength
                                  csp_sub nodes_between add_last /\
      length points
      = ((length csp_sub - 1) * S (Z.to_nat nodes_between)
         + (if add_last && (2 <=? length csp_sub) then 1 else 0))%nat.
Proof.
  intros pointatt tatlength csp_sub nodes_between add_last.
  eexists. split; [|split; [reflexivity|]].
  - unfold csp_sub_points_nodes_between. destruct csp_sub as [|sp1 tl].
    + reflexivity.
    + cbn [length]. rewrite Nat.sub_1_r. cbn [Nat.pred].
      apply (while_nodes_chain pointatt tatlength nodes_between add_last
                               tl [] sp1 []).
  - destruct csp_sub as [|sp1 tl].
    + cbn. now rewrite andb_false_r.
    + rewrite count_chain_length. cbn [length].
      rewrite Nat.sub_1_r. cbn [Nat.pred]. reflexivity.
Qed.

Section Special.

Variable bezierpointatt : bez -> Q -> point.
Variable bezierlength : bez -> Q.
Variable beziertatlength : bez -> Q -> Q.
Variable sqrt : Q -> Q.

Lemma chain_points_cons (sp1 sp2 : node) (rest : list node)
    (spacing : Q) (add_last : bool) :
  chain_points bezierpointatt bezierlength beziertatlength sqrt
               (sp1 :: sp2 :: rest) spacing add_last
  = segment_points bezierpointatt bezierlength beziertatlength sqrt
                   (getbez sp1 sp2) spacing
    ++ (match rest with
        | [] => if add_last then [bezierpointatt (getbez sp1 sp2) 1] else []
        | _ :: _ => []
        end)
    ++ chain_points bezierpointatt bezierlength beziertatlength sqrt
                    (sp2 :: rest) spacing add_last.
Proof. reflexivity. Qed.

Lemma chain_points_head (sp1 sp2 : node) (rest : list node)
    (spacing : Q) (add_last : bool) :
  exists tail : list point,
    chain_points bezierpointatt bezierlength beziertatlength sqrt
                 (sp1 :: sp2 :: rest) spacing add_last
    = bezierpointatt (getbez sp1 sp2) 0 :: tail.
Proof.
  rewrite chain_points_cons. unfold segment_points. cbn [app].
  eexists. reflexivity.
Qed.

Lemma chain_points_last (spacing : Q) :
  forall (pre : list node) (a b : node),
    exists init : list point,
      chain_points bezierpointatt bezierlength beziertatlength sqrt
                   (pre ++ [a; b]) spacing true
      = init ++ [bezierpointatt (getbez a b) 1].
Proof.
  induction pre as [|x pre IH]; intros a b.
  - cbn [app]. rewrite chain_points_cons. cbn [chain_points].
    rewrite app_nil_r. eexists. reflexivity.
  - destruct (IH a b) as [init E].
    destruct pre as [|y pre]; cbn [app] in *;
      rewrite chain_points_cons, E, !app_assoc; eexists; reflexivity.
Qed.

Lemma chain_points_two (spacing : Q) :
  forall (rest : list node) (sp1 sp2 : node),
    (2 <= length (chain_points bezierpointatt bezierlength beziertatlength
                    sqrt (sp1 :: sp2 :: rest) spacing true))%nat.
Proof.
  induction rest as [|sp3 rest IH]; intros sp1 sp2;
    rewrite chain_points_cons, !length_app; unfold segment_points;
    cbn [length].
  - lia.
  - specialize (IH sp2 sp3). lia.
Qed.

Lemma while_dst_stuck (b : bez) (point_dst : Q) :
  point_dst <= 0 -> 0 < bezierlength b ->
  forall (fuel : nat) (length_left point_length : Q) (points : list point),
    bezierlength b <= length_left ->
    while_dst bezierpointatt beziertatlength b point_dst (bezierlength b) fuel
              point_dst length_left point_length points
    = Timeout.
Proof.
  intros Hs Hl. induction fuel as [|fuel IH];
    intros length_left point_length points Hlen; cbn [while_dst]; trivial.
  rewrite (proj2 (Qltb_lt point_dst length_left)) by lra.
  unfold py_div.
  assert (E0 : Qeq_bool (bezierlength b) 0 = false).
  { destruct (Qeq_bool (bezierlength b) 0) eqn:E; trivial.
    apply Qeq_bool_iff in E. lra. }
  rewrite E0. cbn [bind]. apply IH. lra.
Qed.

End Special.

(** X12: with [add_last] the sampled polyline of a chain of at least two
    nodes has at least two points, begins with the start point of the
    first segment and ends with the end point of the last segment. *)
Theorem csp_sub_points_dst_endpoints :
  forall (pointatt : bez -> Q -> point) (length_of : bez -> Q)
         (tatlength : bez -> Q -> Q) (sqrt : Q -> Q)
         (sp1 sp2 a b : node) (rest pre : list node)
         (point_dst : Q) (fuel : nat),
    0 < point_dst ->
    (chain_fuel length_of (sp1 :: sp2 :: rest) point_dst <= fuel)%nat ->
    sp1 :: sp2 :: rest = pre ++ [a; b] ->
    exists (points tail init : list point),
      csp_sub_points_dst pointatt length_of tatlength sqrt
                         fuel (sp1 :: sp2 :: rest) point_dst true
      = Ok points /\
      (2 <= length points)%nat /\
      points = pointatt (getbez sp1 sp2) 0 :: tail /\
      points = init ++ [pointatt (getbez a b) 1].
Proof.
  intros pointatt length_of tatlength sqrt sp1 sp2 a b rest pre
         point_dst fuel Hs Hf Hpre.
  destruct (chain_points_head pointatt length_of tatlength sqrt
              sp1 sp2 rest point_dst true) as [tail Et].
  destruct (chain_points_last pointatt length_of tatlength sqrt
              point_dst pre a b) as [init Ei].
  rewrite <- Hpre in Ei.
  exists (chain_points pointatt length_of tatlength sqrt
            (sp1 :: sp2 :: rest) point_dst true), tail, init.
  split; [now apply csp_sub_points_dst_chain|].
  split; [apply chain_points_two|]. now split.
Qed.


Import Reference Reference2.

Lemma csp_sub_points_dst_endpoints_witness :
  exists (points tail init : list point),
    csp_sub_points_dst bezierpointatt bezierlength beziertatlength Qsqrt
                       4 arch_chain 5 true
    = Ok points /\
    (2 <= length points)%nat /\
    points
    = bezierpointatt (getbez ((0, 0), (0, 0), (0, 10))
                             ((10, 10), (10, 0), (13, 0))) 0 :: tail /\
    points
    = init ++ [bezierpointatt (getbez ((10, 10), (10, 0), (13, 0))
                                      ((17, 0), (20, 0), (20, 0))) 1].
Proof.
  apply (csp_sub_points_dst_endpoints
           bezierpointatt bezierlength beziertatlength Qsqrt
           ((0, 0), (0, 0), (0, 10)) ((10, 10), (10, 0), (13, 0))
           ((10, 10), (10, 0), (13, 0)) ((17, 0), (20, 0), (20, 0))
           [((17, 0), (20, 0), (20, 0))] [((0, 0), (0, 0), (0, 10))] 5 4).
  - reflexivity.
  - vm_compute. lia.
  - reflexivity.
Defined.

Lemma absolute_points_map (apply_to_point : point -> point)
    (points : list point) :
  absolute_points apply_to_point (Some points)
  = Done (map apply_to_point points).
Proof.
  unfold absolute_points. rewrite map_map. apply f_equal.
  apply map_ext. intro p. now destruct (apply_to_point p).
Qed.

(** X13: with a spacing that is zero or negative, sampling by distance
    does not return when the first segment is curved (arc length and
    chord differ by more than 0.01) and has a positive arc length: the
    inner loop never reaches its exit. *)
Theorem csp_sub_points_dst_nonpositive_spacing :
  forall (pointatt : bez -> Q -> point) (length_of : bez -> Q)
         (tatlength : bez -> Q -> Q) (sqrt : Q -> Q)
         (sp1 sp2 : node) (rest : list node) (point_dst : Q)
         (add_last : bool),
    point_dst <= 0 ->
    curved pointatt length_of sqrt (getbez sp1 sp2) = true ->
    0 < length_of (getbez sp1 sp2) ->
    forall fuel : nat,
      csp_sub_points_dst pointatt length_of tatlength sqrt
                         fuel (sp1 :: sp2 :: rest) point_dst add_last
      = Timeout.
Proof.
  intros pointatt length_of tatlength sqrt sp1 sp2 rest point_dst add_last
         Hs Hc Hl fuel.
  unfold csp_sub_points_dst. cbn [length Nat.sub while_i].
  unfold index. cbn [nth_error bind]. cbn zeta.
  unfold curved in Hc. rewrite Hc.
  rewrite (while_dst_stuck pointatt length_of tatlength (getbez sp1 sp2)
             point_dst Hs Hl fuel) by lra.
  reflexivity.
Qed.

Lemma csp_sub_points_dst_nonpositive_spacing_witness :
  csp_sub_points_dst bezierpointatt bezierlength beziertatlength Qsqrt
                     30 arch_chain 0 true
  = Timeout.
Proof.
  refine (csp_sub_points_dst_nonpositive_spacing
            bezierpointatt bezierlength beziertatlength Qsqrt
            ((0, 0), (0, 0), (0, 10)) ((10, 10), (10, 0), (13, 0))
            [((17, 0), (20, 0), (20, 0))] 0 true _ _ _ 30%nat).
  - discriminate.
  - vm_compute. reflexivity.
  - vm_compute. reflexivity.
Defined.

(** X14: [get_special_path_points] uses the first sub-path only. With no
    sub-path it fails with a [TypeError]; with a first sub-path of fewer
    than two nodes it fails with an [IndexError]; with at least two
    nodes (and a positive spacing) it returns the sampled points made
    absolute, in their order or reversed. *)
Theorem get_special_path_points_spec :
  forall (pointatt : bez -> Q -> point) (length_of : bez -> Q)
         (tatlength : bez -> Q -> Q) (sqrt : Q -> Q)
         (apply_to_point : point -> point) (fuel : nat) (dst : Q),
    get_special_path_points pointatt length_of tatlength sqrt apply_to_point
                            fuel [] dst
    = Failed TypeError /\
    (forall (sub : list node) (others : list (list node)),
       (length sub < 2)%nat ->
       get_special_path_points pointatt length_of tatlength sqrt
                               apply_to_point fuel (sub :: others) dst
       = Failed (Builtin IndexError)) /\
    (forall (sub : list node) (others : list (list node)),
       (2 <= length sub)%nat -> 0 < dst ->
       (chain_fuel length_of sub dst <= fuel)%nat ->
       exists vertices : list point,
         get_special_path_points pointatt length_of tatlength sqrt
                                 apply_to_point fuel (sub :: others) dst
         = Done vertices /\
         (2 <= length vertices)%nat /\
         (vertices
          = map apply_to_point
                (chain_points pointatt length_of tatlength sqrt sub dst true) \/
          vertices
          = rev (map apply_to_point
                   (chain_points pointatt length_of tatlength sqrt
                                 sub dst true)))).
Proof.
  intros pointatt length_of tatlength sqrt apply_to_point fuel dst.
  split; [reflexivity|]. split.
  - intros sub others H.
    destruct sub as [|x [|y l]]; cbn [length] in H; try lia; reflexivity.
  - intros sub others H Hs Hf.
    unfold get_special_path_points, generate_polygon_vertices_dst.
    rewrite csp_sub_points_dst_chain by assumption.
    cbn [lift rbind]. rewrite absolute_points_map. cbn [rbind].
    destruct sub as [|sp1 [|sp2 tl]]; cbn [length] in H; try lia.
    pose proof (chain_points_two pointatt length_of tatlength sqrt dst
                  tl sp1 sp2) as L.
    destruct (ensure_right_pointing_cases
                (map apply_to_point
                   (chain_points pointatt length_of tatlength sqrt
                      (sp1 :: sp2 :: tl) dst true))) as [E|E].
    + now rewrite length_map.
    + rewrite E. cbn [lift]. eexists. split; [reflexivity|].
      split; [now rewrite length_map | now left].
    + rewrite E. cbn [lift]. eexists. split; [reflexivity|].
      split; [now rewrite length_rev, length_map | now right].
Qed.

Lemma get_special_path_points_spec_witness :
  get_special_path_points bezierpointatt bezierlength beziertatlength Qsqrt
                          shift 4 [[((0, 0), (0, 0), (3, 0))]; arch_chain] 5
  = Failed (Builtin IndexError) /\
  exists vertices : list point,
    get_special_path_points bezierpointatt bezierlength beziertatlength Qsqrt
                            shift 4 [arch_chain; straight_chain] 5
    = Done vertices /\
    (2 <= length vertices)%nat /\
    (vertices
     = map shift
           (chain_points bezierpointatt bezierlength beziertatlength Qsqrt
                         arch_chain 5 true) \/
     vertices
     = rev (map shift
              (chain_points bezierpointatt bezierlength beziertatlength Qsqrt
                            arch_chain 5 true))).
Proof.
  split.
  - apply (proj1 (proj2 (get_special_path_points_spec
                           bezierpointatt bezierlength beziertatlength Qsqrt
                           shift 4 5))).
    cbn. lia.
  - apply (proj2 (proj2 (get_special_path_points_spec
                           bezierpointatt bezierlength beziertatlength Qsqrt
                           shift 4 5))).
    + cbn. lia.
    + reflexivity.
    + vm_compute. lia.
Defined.

End ChainFacts.

(* ------------------------------------------------------------------ *)
(** ** The nearest point of a segment *)

Module NearestFacts.
Import Num Data Py Metrics NumFacts.
Open Scope Q_scope.

Lemma sq_mult (a : Q) : a ^ 2 == a * a.
Proof. reflexivity. Qed.

Lemma sum_squares_zero (a b : Q) : a * a + b * b == 0 -> a == 0 /\ b == 0.
Proof. intro H. split; nra. Qed.

(** The parameter the code computes. *)
Lemma nearest_cases (start end_ point : pypoint) :
  let length2 :=
    (item0 start - item0 end_) ^ 2 + (item1 start - item1 end_) ^ 2 in
  let t := ((item0 point - item0 start) * (item0 end_ - item0 start)
            + (item1 point - item1 start) * (item1 end_ - item1 start))
           / length2 in
  (length2 == 0 /\ nearest_segment_point start end_ point = Done start) \/
  (~ length2 == 0 /\ t < 0 /\
   nearest_segment_point start end_ point = Done start) \/
  (~ length2 == 0 /\ 1 < t /\
   nearest_segment_point start end_ point = Done end_) \/
  (~ length2 == 0 /\ 0 <= t <= 1 /\
   nearest_segment_point start end_ point
   = interior_point start end_ t).
Proof.
  intros length2 t. unfold nearest_segment_point.
  fold length2. fold t.
  destruct (Qeq_bool length2 0) eqn:E0.
  { left. split; trivial. now apply Qeq_bool_iff. }
  apply Qeq_bool_neq in E0. right.
  destruct (Qltb_reflect t 0) as [H0|H0]; [now left|]. right.
  destruct (Qltb_reflect 1 t) as [H1|H1]; [now left|]. right.
  split; [exact E0|]. split; [|reflexivity].
  split; now apply Qnot_lt_le.
Qed.

(** X15: on points that are plain lists [nearest_segment_point] returns
    one of the two end points or raises [AttributeError], never an
    interior point: it raises exactly when the segment has a length and
    the projection parameter lies in [0, 1]. *)
Theorem nearest_segment_point_of_lists :
  forall (sx sy ex ey : Q) (point : pypoint),
    (nearest_segment_point (PList sx sy) (PList ex ey) point
     = Done (PList sx sy) \/
     nearest_segment_point (PList sx sy) (PList ex ey) point
     = Done (PList ex ey) \/
     nearest_segment_point (PList sx sy) (PList ex ey) point
     = Failed AttributeError) /\
    (nearest_segment_point (PList sx sy) (PList ex ey) point
     = Failed AttributeError
     <-> ~ (sx - ex) ^ 2 + (sy - ey) ^ 2 == 0 /\
         0 <= ((item0 point - sx) * (ex - sx) + (item1 point - sy) * (ey - sy))
              / ((sx - ex) ^ 2 + (sy - ey) ^ 2) <= 1).
Proof.
  intros sx sy ex ey point.
  destruct (nearest_cases (PList sx sy) (PList ex ey) point)
    as [[Z E]|[[NZ [Ht E]]|[[NZ [Ht E]]|[NZ [Ht E]]]]];
    cbn [item0 item1] in *; rewrite E.
  - split; [now left|]. split; [discriminate | tauto].
  - split; [now left|]. split; [discriminate|]. intros [_ H]. lra.
  - split; [right; now left|]. split; [discriminate|]. intros [_ H]. lra.
  - split; [right; now right|]. split; [now intros _ | reflexivity].
Qed.

Lemma length2_pos (a b : Q) : ~ a ^ 2 + b ^ 2 == 0 -> 0 < a ^ 2 + b ^ 2.
Proof.
  rewrite !sq_mult. intro H.
  destruct (Qlt_le_dec 0 (a * a + b * b)) as [P|N]; trivial.
  exfalso. apply H. nra.
Qed.

(** The squared distance from [point] to the point at parameter [s],
    as a polynomial in [s]. *)
Lemma dist2_along (sx sy ex ey px py s : Q) :
  (sx + s * (ex - sx) - px) * (sx + s * (ex - sx) - px)
  + (sy + s * (ey - sy) - py) * (sy + s * (ey - sy) - py)
  == s * s * ((sx - ex) * (sx - ex) + (sy - ey) * (sy - ey))
     - 2 * s * ((px - sx) * (ex - sx) + (py - sy) * (ey - sy))
     + ((sx - px) * (sx - px) + (sy - py) * (sy - py)).
Proof. ring. Qed.

Lemma square_nonneg (a : Q) : 0 <= a * a.
Proof.
  destruct (Qlt_le_dec a 0) as [N|P].
  - assert (E : a * a == (- a) * (- a)) by ring.
    rewrite E. apply Qmult_le_0_compat; lra.
  - apply Qmult_le_0_compat; lra.
Qed.

Lemma nearest_of_parameter (L dot c t s : Q) :
  0 < L -> t * L == dot -> 0 <= s <= 1 ->
  (t < 0 -> c <= s * s * L - 2 * s * dot + c) /\
  (1 < t -> L - 2 * dot + c <= s * s * L - 2 * s * dot + c) /\
  (t * t * L - 2 * t * dot + c <= s * s * L - 2 * s * dot + c).
Proof.
  intros HL Ht Hs. repeat split.
  - intro H.
    assert (0 < (- t) * L) by (apply Qmult_lt_0_compat; lra).
    assert (0 <= s * s * L)
      by (apply Qmult_le_0_compat; [apply Qmult_le_0_compat|]; lra).
    assert (0 <= s * ((- t) * L)) by (apply Qmult_le_0_compat; lra).
    nra.
  - intro H.
    assert (0 < (t - 1) * L) by (apply Qmult_lt_0_compat; lra).
    assert (0 <= (1 - s) * ((t - 1) * L)) by (apply Qmult_le_0_compat; lra).
    assert (0 <= (1 - s) * ((1 - s) * L))
      by (apply Qmult_le_0_compat; [|apply Qmult_le_0_compat]; lra).
    nra.
  - assert (E : s * s * L - 2 * s * dot + c
                - (t * t * L - 2 * t * dot + c)
                == L * ((s - t) * (s - t))).
    { rewrite <- Ht. ring. }
    pose proof (square_nonneg (s - t)).
    assert (0 <= L * ((s - t) * (s - t)))
      by (apply Qmult_le_0_compat; lra).
    lra.
Qed.

Lemma nearest_of_vectors (sx sy ex ey px py t s : Q) :
  ~ (sx - ex) ^ 2 + (sy - ey) ^ 2 == 0 ->
  t == ((px - sx) * (ex - sx) + (py - sy) * (ey - sy))
       / ((sx - ex) ^ 2 + (sy - ey) ^ 2) ->
  0 <= s <= 1 ->
  (t < 0 ->
   (sx - px) * (sx - px) + (sy - py) * (sy - py)
   <= (sx + s * (ex - sx) - px) * (sx + s * (ex - sx) - px)
      + (sy + s * (ey - sy) - py) * (sy + s * (ey - sy) - py)) /\
  (1 < t ->
   (ex - px) * (ex - px) + (ey - py) * (ey - py)
   <= (sx + s * (ex - sx) - px) * (sx + s * (ex - sx) - px)
      + (sy + s * (ey - sy) - py) * (sy + s * (ey - sy) - py)) /\
  ((sx + t * (ex - sx) - px) * (sx + t * (ex - sx) - px)
   + (sy + t * (ey - sy) - py) * (sy + t * (ey - sy) - py)
   <= (sx + s * (ex - sx) - px) * (sx + s * (ex - sx) - px)
      + (sy + s * (ey - sy) - py) * (sy + s * (ey - sy) - py)).
Proof.
  intros HL Ht Hs.
  pose proof (length2_pos _ _ HL) as HP.
  rewrite !sq_mult in HL, HP, Ht.
  set (L := (sx - ex) * (sx - ex) + (sy - ey) * (sy - ey)) in *.
  set (dot := (px - sx) * (ex - sx) + (py - sy) * (ey - sy)) in *.
  set (c := (sx - px) * (sx - px) + (sy - py) * (sy - py)).
  assert (HtL : t * L == dot).
  { rewrite Ht. field. exact HL. }
  destruct (nearest_of_parameter L dot c t s HP HtL Hs) as [A [B C]].
  rewrite !dist2_along. fold L dot c.
  split; [exact A|]. split; [|exact C].
  intro H1. specialize (B H1).
  assert (E : (ex - px) * (ex - px) + (ey - py) * (ey - py)
              == L - 2 * dot + c).
  { unfold L, dot, c. ring. }
  rewrite E. exact B.
Qed.

(** X16: on points that have [.x] and [.y], [nearest_segment_point]
    returns a point of the segment, and no point of the segment is
    closer to the given point. *)
Theorem nearest_segment_point_of_vectors :
  forall (sx sy ex ey : Q) (point : pypoint),
    exists q : pypoint,
      nearest_segment_point (PVector sx sy) (PVector ex ey) point = Done q /\
      (exists s : Q,
         0 <= s <= 1 /\
         item0 q == item0 (along (PVector sx sy) (PVector ex ey) s) /\
         item1 q == item1 (along (PVector sx sy) (PVector ex ey) s)) /\
      (forall s : Q,
         0 <= s <= 1 ->
         dist2 q point
         <= dist2 (along (PVector sx sy) (PVector ex ey) s) point).
Proof.
  intros sx sy ex ey point.
  destruct (nearest_cases (PVector sx sy) (PVector ex ey) point)
    as [[Z E]|[[NZ [Ht E]]|[[NZ [Ht E]]|[NZ [Ht E]]]]];
    cbn [item0 item1] in *; rewrite E.
  - exists (PVector sx sy). split; [reflexivity|].
    rewrite !sq_mult in Z. apply sum_squares_zero in Z as [Zx Zy].
    assert (Ex : ex == sx) by lra. assert (Ey : ey == sy) by lra.
    split.
    + exists 0. cbn [along item0 item1]. repeat split; try lra; ring.
    + intros s Hs. unfold dist2. cbn [along item0 item1].
      rewrite Ex, Ey. apply Qle_lteq. right. ring.
  - exists (PVector sx sy). split; [reflexivity|]. split.
    + exists 0. cbn [along item0 item1]. repeat split; try lra; ring.
    + intros s Hs. unfold dist2. cbn [along item0 item1].
      now apply (nearest_of_vectors sx sy ex ey (item0 point) (item1 point)
                   _ s NZ (Qeq_refl _) Hs).
  - exists (PVector ex ey). split; [reflexivity|]. split.
    + exists 1. cbn [along item0 item1]. repeat split; try lra; ring.
    + intros s Hs. unfold dist2. cbn [along item0 item1].
      now apply (nearest_of_vectors sx sy ex ey (item0 point) (item1 point)
                   _ s NZ (Qeq_refl _) Hs).
  - eexists. split; [reflexivity|]. split.
    + eexists. split; [exact Ht|]. cbn [along item0 item1].
      split; reflexivity.
    + intros s Hs. unfold dist2. cbn [along item0 item1].
      now apply (nearest_of_vectors sx sy ex ey (item0 point) (item1 point)
                   _ s NZ (Qeq_refl _) Hs).
Qed.

Example nearest_of_lists_raises :
  nearest_segment_point (PList 0 0) (PList 10 0) (PList 4 3)
  = Failed AttributeError /\
  exists x y : Q,
    nearest_segment_point (PVector 0 0) (PVector 10 0) (PList 4 3)
    = Done (PList x y) /\ x == 4 /\ y == 0.
Proof.
  split; [reflexivity|]. do 2 eexists.
  split; [vm_compute; reflexivity|]. split; reflexivity.
Qed.

End NearestFacts.

(* ------------------------------------------------------------------ *)
(** ** More on grid clipping *)

Module ClipperMore.
Import Num Data Clipper Colouring NumFacts ClipperFacts.
Open Scope Q_scope.

Lemma keep_nonempty (l : list clip) :
  Forall (fun c => vertices c <> []) (filter keep l).
Proof.
  apply Forall_forall. intros c Hc. apply filter_In in Hc as [_ Hk].
  unfold keep, nonempty in Hk. intro E. rewrite E in Hk. discriminate.
Qed.

Lemma FOP_filter {A : Type} (R : A -> A -> Prop) (f : A -> bool) (l : list A) :
  ForallOrdPairs R l -> ForallOrdPairs R (filter f l).
Proof.
  induction 1 as [|a l Ha H IH]; cbn [filter]; [constructor|].
  destruct (f a); trivial. constructor; trivial.
  rewrite Forall_forall in *. intros b Hb. apply filter_In in Hb as [Hb _].
  now apply Ha.
Qed.

Lemma FOP_unmap {A B : Type} (R : B -> B -> Prop) (f : A -> B) (l : list A) :
  ForallOrdPairs R (map f l) -> ForallOrdPairs (fun a b => R (f a) (f b)) l.
Proof.
  induction l as [|a l IH]; cbn [map]; intro H; [constructor|].
  inversion H as [|x m Hx Hm]; subst. constructor; [|now apply IH].
  rewrite Forall_forall in *. intros b Hb. apply Hx. now apply in_map.
Qed.

(** *** The number of cells *)

Lemma axis_from_full (hi g : Q) :
  0 < g ->
  forall (bound : nat) (x : Q),
    (bound = 0%nat \/ nq (pred bound) * g < hi - x) ->
    length (axis_from bound x hi g) = bound.
Proof.
  intros Hg bound. induction bound as [|bound IH]; intros x H.
  - reflexivity.
  - destruct H as [H|H]; [discriminate|]. cbn [pred] in H.
    cbn [axis_from].
    assert (P : 0 <= nq bound * g).
    { apply Qmult_le_0_compat; [|lra]. unfold nq.
      change 0 with (inject_Z 0). rewrite <- Zle_Qle. lia. }
    rewrite (proj2 (Qltb_lt x hi)) by lra.
    cbn [length]. f_equal. apply IH.
    destruct bound as [|b]; [now left|]. right. cbn [pred].
    rewrite nq_S in H. lra.
Qed.

Lemma steps_below (lo hi g : Q) :
  0 < g ->
  steps lo hi g = 0%nat \/ nq (pred (steps lo hi g)) * g < hi - lo.
Proof.
  intro Hg. unfold steps.
  destruct (Z.to_nat (Qceiling ((hi - lo) / g))) as [|n] eqn:E; [now left|].
  right. cbn [pred].
  assert (En : Z.of_nat n = (Qceiling ((hi - lo) / g) - 1)%Z) by lia.
  unfold nq. rewrite En.
  pose proof (Qceiling_lt ((hi - lo) / g)) as Hc.
  assert (Eq : hi - lo == (hi - lo) / g * g)
    by (field; intro Z; rewrite Z in Hg; now apply Qlt_irrefl in Hg).
  apply Qlt_le_trans with ((hi - lo) / g * g).
  - apply Qmult_lt_compat_r; assumption.
  - apply Qle_lteq. right. symmetry. exact Eq.
Qed.

Lemma axis_length (lo hi g : Q) :
  0 < g -> length (axis lo hi g) = steps lo hi g.
Proof.
  intro Hg. unfold axis. apply axis_from_full; [exact Hg|].
  now apply steps_below.
Qed.

Lemma steps_width (lo len g : Q) :
  0 < g -> steps lo (lo + len) g = Z.to_nat (Qceiling (len / g)).
Proof.
  intro Hg. unfold steps. f_equal. apply Qceiling_comp.
  field. intro Z. rewrite Z in Hg. now apply Qlt_irrefl in Hg.
Qed.

Lemma ceiling_one (q : Q) : 0 < q -> q <= 1 -> Qceiling q = 1%Z.
Proof.
  intros H0 H1.
  pose proof (Qle_ceiling q) as Hu. pose proof (Qceiling_lt q) as Hl.
  assert (A : (0 < Qceiling q)%Z).
  { rewrite Zlt_Qlt. change (inject_Z 0) with 0. lra. }
  assert (B : (Qceiling q - 1 < 1)%Z).
  { rewrite Zlt_Qlt. change (inject_Z 1) with 1. lra. }
  lia.
Qed.

Lemma axis_single (lo len g : Q) :
  0 < len -> len <= g -> axis lo (lo + len) g = [lo].
Proof.
  intros H0 H1. assert (Hg : 0 < g) by lra.
  unfold axis. rewrite steps_width by exact Hg.
  rewrite ceiling_one.
  - change (Z.to_nat 1) with 1%nat. cbn [axis_from].
    now rewrite (proj2 (Qltb_lt lo (lo + len))) by lra.
  - apply Qlt_shift_div_l; lra.
  - apply Qle_shift_div_r; lra.
Qed.

Section Runs.

Variable AddPath : list point -> outcome unit.
Variable Execute : list point -> list point -> outcome (list (list point)).

(** *** One polygon in a group *)

Lemma enumerate_self (cells : list clip) :
  map (fun iv : nat * clip =>
         set_payload (snd iv) (flat_map (rings_at (fst iv)) [cells]))
      (enumerate cells)
  = cells.
Proof.
  transitivity (map snd (enumerate cells)); [|apply (enum_map_snd cells 0)].
  apply map_ext_in.
  intros [i c] Hin. cbn [fst snd flat_map]. rewrite app_nil_r.
  apply enum_nth in Hin as [_ Hn]. rewrite Nat.sub_0_r in Hn.
  unfold rings_at. rewrite Hn. apply set_payload_same.
Qed.

Lemma clip_polygons_single (fuel : nat) (vertices : list vertex)
    (bb : BoundingBox) (g : Q) :
  clip_polygons AddPath Execute fuel [vertices] bb g
  = clip_polygon AddPath Execute fuel vertices bb g true.
Proof.
  rewrite clip_polygons_cons, clip_polygon_optimize.
  unfold ClipMerge. cbn [mapM].
  destruct (clip_polygon AddPath Execute fuel vertices bb g false)
    as [cells| |]; cbn [bind]; trivial.
  now rewrite enumerate_self.
Qed.

(** *** Colours *)

Lemma solve_coloured (v0 : vertex) (vs : list vertex) (x y x2 y2 : Q)
    (solution : list ring) :
  solve AddPath Execute (v0 :: vs) x y x2 y2 = Ok solution ->
  Forall (Forall (fun v : vertex => vcolor v = vcolor v0)) solution.
Proof.
  unfold solve. cbv zeta.
  destruct (AddPath [(x, y); (x2, y); (x2, y2); (x, y2)]) as [u1| |];
    try discriminate.
  cbn [bind].
  destruct (AddPath (map (fun verticle : vertex => (vx verticle, vy verticle))
                         (v0 :: vs))) as [u2| |]; try discriminate.
  cbn [bind].
  destruct (Execute _ _) as [s| |]; try discriminate.
  cbn [bind]. rewrite add_color_ok. intro H. injection H as <-.
  apply Forall_forall. intros r Hr. apply in_map_iff in Hr as [o [<- _]].
  apply Forall_forall. intros v Hv. apply in_map_iff in Hv as [p [<- _]].
  reflexivity.
Qed.

Lemma while_y_coloured (v0 : vertex) (vs : list vertex) (bb : BoundingBox)
    (g : Q) (optimize : bool) (x x2 : Q) :
  forall (fuel : nat) (y : Q) (output cells : list clip),
    Forall (cell_coloured (vcolor v0)) output ->
    while_y AddPath Execute (v0 :: vs) bb g optimize fuel x x2 y output = Ok cells ->
    Forall (cell_coloured (vcolor v0)) cells.
Proof.
  induction fuel as [|fuel IH]; intros y output cells Ho E; [discriminate|].
  cbn [while_y] in E.
  destruct (Qltb y (top bb + height bb)); [|now injection E as <-].
  destruct (solve AddPath Execute (v0 :: vs) x y x2 _) as [solution| |] eqn:Es;
    try discriminate.
  cbn [bind] in E. apply (IH _ _ _) in E; trivial.
  destruct (nonempty solution || negb optimize); trivial.
  apply Forall_app. split; trivial. constructor; [|constructor].
  unfold cell_coloured, vertices. cbn [payload].
  now apply solve_coloured in Es.
Qed.

Lemma while_x_coloured (v0 : vertex) (vs : list vertex) (bb : BoundingBox)
    (g : Q) (optimize : bool) :
  forall (fuel : nat) (x : Q) (output cells : list clip),
    Forall (cell_coloured (vcolor v0)) output ->
    while_x AddPath Execute (v0 :: vs) bb g optimize fuel x output = Ok cells ->
    Forall (cell_coloured (vcolor v0)) cells.
Proof.
  induction fuel as [|fuel IH]; intros x output cells Ho E; [discriminate|].
  cbn [while_x] in E.
  destruct (Qltb x (left bb + width bb)); [|now injection E as <-].
  destruct (while_y AddPath Execute (v0 :: vs) bb g optimize fuel x _ _ output)
    as [column| |] eqn:Ey; try discriminate.
  cbn [bind] in E. apply (IH _ _ _) in E; trivial.
  now apply while_y_coloured in Ey.
Qed.

(** *** A box without area *)

Lemma while_y_flat (vertices : list vertex) (bb : BoundingBox) (g : Q)
    (optimize : bool) (fuel : nat) (x x2 : Q) (output : list clip) :
  height bb <= 0 ->
  while_y AddPath Execute vertices bb g optimize (S fuel) x x2 (top bb) output
  = Ok output.
Proof.
  intro H. cbn [while_y].
  now rewrite (proj2 (Qltb_ge (top bb) (top bb + height bb))) by lra.
Qed.

Lemma while_x_flat (vertices : list vertex) (bb : BoundingBox) (g : Q)
    (optimize : bool) :
  0 < g -> height bb <= 0 ->
  forall (bound fuel : nat) (x : Q) (output : list clip),
    left bb + width bb - x <= nq bound * g ->
    (S bound < fuel)%nat ->
    while_x AddPath Execute vertices bb g optimize fuel x output = Ok output.
Proof.
  intros Hg Hh bound. induction bound as [|bound IH];
    intros fuel x output Hb Hf;
    (destruct fuel as [|fuel]; [lia|]); cbn [while_x].
  - change (nq 0) with 0 in Hb.
    now rewrite (proj2 (Qltb_ge x (left bb + width bb))) by lra.
  - destruct (Qltb x (left bb + width bb)); trivial.
    destruct fuel as [|fuel]; [lia|].
    rewrite while_y_flat by exact Hh. cbn [bind].
    apply IH; [|lia]. rewrite nq_S in Hb. lra.
Qed.

End Runs.

Import Reference Reference2.

(** X17: a shape group of one polygon is clipped exactly like the
    polygon alone with [optimize = true], whatever the fuel, the box and
    the grid size. *)
Theorem clip_polygons_of_one :
  forall (AddPath : list point -> outcome unit)
         (Execute : list point -> list point -> outcome (list (list point)))
         (fuel : nat) (vertices : list vertex) (bb : BoundingBox) (g : Q),
    clip_polygons AddPath Execute fuel [vertices] bb g
    = clip_polygon AddPath Execute fuel vertices bb g true.
Proof. intros. apply clip_polygons_single. Qed.

(** X18: neither [clip_polygon] with [optimize = true] nor
    [clip_polygons] ever returns a cell without a ring. *)
Theorem clipped_cells_not_empty :
  forall (AddPath : list point -> outcome unit)
         (Execute : list point -> list point -> outcome (list (list point)))
         (fuel : nat) (bb : BoundingBox) (g : Q) (cells : list clip),
    (forall vertices : list vertex,
       clip_polygon AddPath Execute fuel vertices bb g true = Ok cells ->
       Forall (fun c => Data.vertices c <> []) cells) /\
    (forall polygons : list (list vertex),
       clip_polygons AddPath Execute fuel polygons bb g = Ok cells ->
       Forall (fun c => Data.vertices c <> []) cells).
Proof.
  intros AddPath Execute fuel bb g cells. split.
  - intros vertices E. rewrite clip_polygon_optimize in E.
    destruct (clip_polygon AddPath Execute fuel vertices bb g false)
      as [all| |]; try discriminate.
    cbn [bind] in E. injection E as <-. apply keep_nonempty.
  - intros polygons E. unfold clip_polygons in E.
    destruct (index polygons 0) as [p0| |]; try discriminate.
    cbn [bind] in E.
    destruct (clip_polygon AddPath Execute fuel p0 bb g false)
      as [output1| |]; try discriminate.
    cbn [bind] in E.
    destruct (foldM _ polygons _) as [st| |]; try discriminate.
    cbn [bind] in E. injection E as <-. apply keep_nonempty.
Qed.

Lemma clipped_cells_not_empty_witness :
  exists cells : list clip,
    clip_polygons rect_AddPath rect_Execute 5 [square; far_triangle] box10 5 = Ok cells /\
    Forall (fun c => Data.vertices c <> []) cells.
Proof.
  eexists. split; [vm_compute; reflexivity|].
  apply (proj2 (clipped_cells_not_empty rect_AddPath rect_Execute 5 box10 5 _)
           [square; far_triangle]).
  vm_compute. reflexivity.
Defined.

(** X19: every vertex a run of [clip_polygon] returns carries the colour
    of the polygon's first vertex, whatever colours the other vertices
    of the polygon have. *)
Theorem clip_polygon_first_colour :
  forall (AddPath : list point -> outcome unit)
         (Execute : list point -> list point -> outcome (list (list point)))
         (fuel : nat) (v0 : vertex) (vs : list vertex) (bb : BoundingBox)
         (g : Q) (optimize : bool) (cells : list clip),
    clip_polygon AddPath Execute fuel (v0 :: vs) bb g optimize = Ok cells ->
    Forall (cell_coloured (vcolor v0)) cells.
Proof.
  intros AddPath Execute fuel v0 vs bb g optimize cells E.
  unfold clip_polygon in E.
  apply (while_x_coloured AddPath Execute v0 vs bb g optimize fuel (left bb)
           [] cells); [constructor | exact E].
Qed.

Lemma clip_polygon_first_colour_witness :
  exists cells : list clip,
    clip_polygon rect_AddPath rect_Execute 5 two_tone box10 5 true = Ok cells /\
    length cells = 4%nat /\
    Forall (cell_coloured Colors.red) cells.
Proof.
  eexists. split; [vm_compute; reflexivity|]. split; [reflexivity|].
  apply (clip_polygon_first_colour rect_AddPath rect_Execute 5
           (0, 0, Colors.red)
           [(10, 0, Colors.blue); (10, 10, Colors.blue); (0, 10, Colors.blue)]
           box10 5 true).
  vm_compute. reflexivity.
Defined.

(** X20: a box without area gives no cell. With a width that is not
    positive the call returns the empty list at once, for every grid
    size, polygon and [optimize]; with a height that is not positive and
    a positive grid size it walks the columns and returns the empty
    list. *)
Theorem clip_polygon_flat_box :
  forall (AddPath : list point -> outcome unit)
         (Execute : list point -> list point -> outcome (list (list point)))
         (vertices : list vertex) (bb : BoundingBox) (g : Q) (optimize : bool),
    (width bb <= 0 ->
     forall fuel : nat,
       clip_polygon AddPath Execute (S fuel) vertices bb g optimize = Ok []) /\
    (height bb <= 0 -> 0 < g ->
     forall fuel : nat,
       (steps (left bb) (left bb + width bb) g + 2 <= fuel)%nat ->
       clip_polygon AddPath Execute fuel vertices bb g optimize = Ok []).
Proof.
  intros AddPath Execute vertices bb g optimize. split.
  - intros Hw fuel. unfold clip_polygon. cbn [while_x].
    now rewrite (proj2 (Qltb_ge (left bb) (left bb + width bb))) by lra.
  - intros Hh Hg fuel Hf. unfold clip_polygon.
    apply (while_x_flat AddPath Execute vertices bb g optimize Hg Hh
             (steps (left bb) (left bb + width bb) g)).
    + now apply steps_enough.
    + lia.
Qed.

Lemma clip_polygon_flat_box_witness :
  clip_polygon rect_AddPath rect_Execute 1 square (mkBoundingBox 0 0 0 10) 0 true
  = Ok [] /\
  clip_polygon rect_AddPath rect_Execute 4 square (mkBoundingBox 0 0 10 0) 5 false
  = Ok [].
Proof.
  split.
  - apply (proj1 (clip_polygon_flat_box rect_AddPath rect_Execute square
                    (mkBoundingBox 0 0 0 10) 0 true)).
    discriminate.
  - apply (proj2 (clip_polygon_flat_box rect_AddPath rect_Execute square
                    (mkBoundingBox 0 0 10 0) 5 false)).
    + discriminate.
    + reflexivity.
    + vm_compute. lia.
Defined.

(** X21: with a positive grid size a run with [optimize = false] that
    returns gives ceil(width / grid_size) * ceil(height / grid_size)
    cells, for every polygon; and it returns for a polygon with a vertex
    once pyclipper returns at every cell. *)
Theorem clip_polygon_cell_count :
  forall (AddPath : list point -> outcome unit)
         (Execute : list point -> list point -> outcome (list (list point)))
         (vertices : list vertex) (bb : BoundingBox) (g : Q),
    0 < g ->
    (forall (fuel : nat) (cells : list clip),
       clip_polygon AddPath Execute fuel vertices bb g false = Ok cells ->
       length cells
       = (Z.to_nat (Qceiling (width bb / g))
          * Z.to_nat (Qceiling (height bb / g)))%nat) /\
    (vertices <> [] ->
     pyclipper_returns AddPath Execute vertices bb g = true ->
     forall fuel : nat,
       (fuel_for bb g <= fuel)%nat ->
       exists cells : list clip,
         clip_polygon AddPath Execute fuel vertices bb g false = Ok cells).
Proof.
  intros AddPath Execute vertices bb g Hg. split.
  - intros fuel cells E.
    apply clip_polygon_returned in E as [-> _]; [|exact Hg].
    rewrite grid_cells_length. unfold columns, rows.
    rewrite !axis_length by exact Hg. now rewrite !steps_width by exact Hg.
  - intros Hv Hr fuel Hf. destruct vertices as [|v0 vs]; [congruence|].
    eexists. now apply clip_polygon_grid.
Qed.

Lemma clip_polygon_cell_count_witness :
  exists cells : list clip,
    clip_polygon rect_AddPath rect_Execute 6 square (mkBoundingBox 0 0 10 8) 4
                 false
    = Ok cells /\
    length cells
    = (Z.to_nat (Qceiling (10 / 4)) * Z.to_nat (Qceiling (8 / 4)))%nat.
Proof.
  destruct (clip_polygon_cell_count
              rect_AddPath rect_Execute square (mkBoundingBox 0 0 10 8) 4)
    as [N R]; [reflexivity|].
  destruct (R ltac:(discriminate) eq_refl 6%nat) as [cells E];
    [vm_compute; lia|].
  exists cells. split; [exact E | exact (N 6%nat cells E)].
Defined.

(** X22: when the grid size is at least the width and the height of the
    box, a run with [optimize = false] that returns gives one cell, and
    that cell is the box; this is the case of the exporter's grid size
    100000 for a shape that is not to be cut.  The run returns for a
    polygon with a vertex once pyclipper returns at that one cell. *)
Theorem clip_polygon_single_cell :
  forall (AddPath : list point -> outcome unit)
         (Execute : list point -> list point -> outcome (list (list point)))
         (vertices : list vertex) (bb : BoundingBox) (g : Q),
    0 < width bb -> width bb <= g -> 0 < height bb -> height bb <= g ->
    (forall (fuel : nat) (cells : list clip),
       clip_polygon AddPath Execute fuel vertices bb g false = Ok cells ->
       exists c : clip,
         cells = [c] /\
         boundingBoxX c = left bb /\ boundingBoxY c = top bb /\
         boundingBoxWidth c == width bb /\ boundingBoxHeight c == height bb) /\
    (vertices <> [] ->
     returns_at AddPath Execute vertices (left bb) (top bb)
                (py_min (left bb + g) (left bb + width bb))
                (py_min (top bb + g) (top bb + height bb)) = true ->
     forall fuel : nat,
       (3 <= fuel)%nat ->
       exists c : clip,
         clip_polygon AddPath Execute fuel vertices bb g false = Ok [c]).
Proof.
  intros AddPath Execute vertices bb g Hw Hwg Hh Hhg.
  assert (Hg : 0 < g) by lra.
  assert (G : grid_cells Execute vertices bb g
              = [cell_at bb g (left bb) (top bb)
                         (rings_of Execute vertices bb g (left bb) (top bb))]).
  { unfold grid_cells, columns, rows. now rewrite !axis_single. }
  split.
  - intros fuel cells E.
    apply clip_polygon_returned in E as [-> _]; [|exact Hg].
    rewrite G. eexists. split; [reflexivity|].
    cbn [cell_at boundingBoxX boundingBoxY boundingBoxWidth boundingBoxHeight].
    repeat split.
    + destruct (py_min_cases (left bb + g) (left bb + width bb))
        as [[? ->]|[? ->]]; lra.
    + destruct (py_min_cases (top bb + g) (top bb + height bb))
        as [[? ->]|[? ->]]; lra.
  - intros Hv Hr fuel Hf. destruct vertices as [|v0 vs]; [congruence|].
    eexists. rewrite clip_polygon_grid.
    + now rewrite G.
    + exact Hg.
    + unfold fuel_for, columns, rows. rewrite !axis_single by assumption.
      cbn [length]. lia.
    + unfold pyclipper_returns, columns, rows.
      rewrite !axis_single by assumption. cbn [forallb].
      now rewrite Hr.
Qed.

Lemma clip_polygon_single_cell_witness :
  exists c : clip,
    clip_polygon rect_AddPath rect_Execute 3 square box10 100000 false = Ok [c] /\
    boundingBoxX c = left box10 /\ boundingBoxY c = top box10 /\
    boundingBoxWidth c == width box10 /\ boundingBoxHeight c == height box10.
Proof.
  destruct (clip_polygon_single_cell
              rect_AddPath rect_Execute square box10 100000)
    as [S R]; try reflexivity; try discriminate.
  destruct (R ltac:(discriminate) eq_refl 3%nat) as [c E]; [lia|].
  destruct (S 3%nat [c] E) as [c' [Ec P]].
  injection Ec as <-. exists c. split; [exact E | exact P].
Defined.

(** X23: with a positive grid size the cells [clip_polygons] returns lie
    inside the box, any two of them are separated by a vertical or a
    horizontal line, and each is either [grid_size] long along an axis
    or ends at the box edge; this for every polygon list.  The call
    returns for a non-empty list of polygons with a vertex once pyclipper
    returns at every cell for each of them. *)
Theorem clip_polygons_cells_in_box :
  forall (AddPath : list point -> outcome unit)
         (Execute : list point -> list point -> outcome (list (list point)))
         (polygons : list (list vertex)) (bb : BoundingBox) (g : Q),
    0 < g -> 0 < width bb -> 0 < height bb ->
    (forall (fuel : nat) (cells : list clip),
       clip_polygons AddPath Execute fuel polygons bb g = Ok cells ->
       (forall (c : clip) (px py : Q),
          In c cells -> in_cell c px py -> in_box bb px py) /\
       ForallOrdPairs (@separated (list ring)) cells /\
       Forall (cell_clamped bb g) cells) /\
    (polygons <> [] -> Forall (fun polygon => polygon <> []) polygons ->
     Forall (fun polygon => pyclipper_returns AddPath Execute polygon bb g = true)
            polygons ->
     forall fuel : nat,
       (fuel_for bb g <= fuel)%nat ->
       exists cells : list clip,
         clip_polygons AddPath Execute fuel polygons bb g = Ok cells).
Proof.
  intros AddPath Execute polygons bb g Hg Hw Hh. split.
  - intros fuel cells E.
    destruct polygons as [|p0 ps]; [discriminate|].
    rewrite clip_polygons_cons in E. unfold ClipMerge in E. cbn [mapM] in E.
    destruct (clip_polygon AddPath Execute fuel p0 bb g false)
      as [r0| |] eqn:E0; try discriminate.
    cbn [bind] in E.
    destruct (mapM _ ps) as [rs| |]; try discriminate.
    cbn [bind] in E. injection E as <-.
    apply clip_polygon_returned in E0 as [-> _]; [|exact Hg].
    split; [|split].
    + intros c px py Hc Hin. apply filter_In in Hc as [Hc _].
      apply in_map_iff in Hc as [[i c0] [<- Hc0]].
      apply in_combine_r in Hc0.
      apply (grid_cover Execute p0 bb g Hg Hw Hh px py).
      exists c0. split; [exact Hc0 | exact Hin].
    + apply FOP_filter, FOP_map.
      apply (FOP_unmap (@separated (list ring)) snd).
      unfold enumerate. rewrite enum_map_snd. now apply grid_separated.
    + apply Forall_forall. intros c Hc. apply filter_In in Hc as [Hc _].
      apply in_map_iff in Hc as [[i c0] [<- Hc0]].
      apply in_combine_r in Hc0.
      pose proof (grid_clamped Execute p0 bb g Hg) as Hcl.
      rewrite Forall_forall in Hcl. exact (Hcl c0 Hc0).
  - intros Hne Hall Hr fuel Hf.
    destruct polygons as [|p0 ps]; [congruence|].
    rewrite clip_polygons_cons. unfold ClipMerge.
    rewrite (mapM_grid AddPath Execute bb g fuel Hg Hf _ Hall Hr).
    cbn [map bind]. eexists. reflexivity.
Qed.

Lemma clip_polygons_cells_in_box_witness :
  exists cells : list clip,
    clip_polygons rect_AddPath rect_Execute 5 [square; far_triangle] box10 5
    = Ok cells /\
    (forall (c : clip) (px py : Q),
       In c cells -> in_cell c px py -> in_box box10 px py) /\
    ForallOrdPairs (@separated (list ring)) cells /\
    Forall (cell_clamped box10 5) cells.
Proof.
  destruct (clip_polygons_cells_in_box
              rect_AddPath rect_Execute [square; far_triangle] box10 5)
    as [G R]; try reflexivity.
  destruct (R ltac:(discriminate)
              ltac:(repeat constructor; discriminate)
              ltac:(repeat constructor) 5%nat) as [cells E];
    [vm_compute; lia|].
  exists cells. split; [exact E | exact (G 5%nat cells E)].
Defined.

End ClipperMore.

(* ------------------------------------------------------------------ *)
(** ** Triangulation and the two export paths *)

Module PipelineFacts.
Import Num Data Clipper Triangulator Exporter Pipeline.
Import NumFacts ExporterFacts ClipperFacts ClipperMore.
Open Scope Q_scope.

Lemma mapM_ok {A B : Type} (f : A -> outcome B) (l : list A) (r : list B) :
  mapM f l = Ok r -> Forall2 (fun a b => f a = Ok b) l r.
Proof.
  revert r. induction l as [|a l IH]; intros r H; cbn [mapM] in H.
  - injection H as <-. constructor.
  - destruct (f a) as [b| |] eqn:E; try discriminate. cbn [bind] in H.
    destruct (mapM f l) as [bs| |]; try discriminate. cbn [bind] in H.
    injection H as <-. constructor; [exact E | now apply IH].
Qed.

Lemma mapM_all_ok {A B : Type} (f : A -> outcome B) (l : list A) :
  (forall a, In a l -> exists b, f a = Ok b) -> exists r, mapM f l = Ok r.
Proof.
  induction l as [|a l IH]; intro H; cbn [mapM].
  - now eexists.
  - destruct (H a (or_introl eq_refl)) as [b ->].
    destruct IH as [r ->]; [intros x Hx; apply H; now right|].
    cbn [bind]. now eexists.
Qed.

Lemma point_eqb_refl (p : point) : point_eqb p p = true.
Proof. unfold point_eqb. now rewrite !Qeq_bool_refl. Qed.

Lemma list_index_ok (p : point) (points : list point) (i : nat) :
  list_index p points = Ok i ->
  (i < length points)%nat /\
  (exists q, nth_error points i = Some q /\ point_eqb q p = true) /\
  (forall j q, (j < i)%nat -> nth_error points j = Some q ->
               point_eqb q p = false).
Proof.
  revert i. induction points as [|q points IH]; intros i H; cbn [list_index] in H.
  - discriminate.
  - destruct (point_eqb q p) eqn:E.
    + injection H as <-. cbn [length nth_error]. split; [lia|].
      split; [now exists q|]. intros j q' Hj. lia.
    + destruct (list_index p points) as [k| |]; try discriminate.
      cbn [bind] in H. injection H as <-.
      destruct (IH k eq_refl) as [Hk [Hq Hf]].
      cbn [length nth_error]. split; [lia|]. split; [exact Hq|].
      intros j q' Hj Hn. destruct j as [|j]; cbn [nth_error] in Hn.
      * now injection Hn as <-.
      * apply (Hf j q'); [lia | exact Hn].
Qed.

Lemma list_index_cases (p : point) (points : list point) :
  (exists i, list_index p points = Ok i) \/
  (list_index p points = Raise ValueError /\
   forall q, In q points -> point_eqb q p = false).
Proof.
  induction points as [|q points IH]; cbn [list_index].
  - right. split; trivial. intros q [].
  - destruct (point_eqb q p) eqn:E; [left; now eexists|].
    destruct IH as [[i ->]|[-> Hn]]; cbn [bind].
    + left. now eexists.
    + right. split; trivial. intros q' [<-|Hq]; auto.
Qed.

Lemma list_index_found (p : point) (points : list point) :
  In p points -> exists i, list_index p points = Ok i.
Proof.
  intro H. destruct (list_index_cases p points) as [Hi|[_ Hn]]; trivial.
  specialize (Hn p H). rewrite point_eqb_refl in Hn. discriminate.
Qed.

Lemma mapM_cases {A B : Type} (f : A -> outcome B) (e : exn) (l : list A) :
  (forall a, (exists b, f a = Ok b) \/ f a = Raise e) ->
  (exists r, mapM f l = Ok r) \/ mapM f l = Raise e.
Proof.
  intro H. induction l as [|a l IH]; cbn [mapM].
  - left. now eexists.
  - destruct (H a) as [[b ->]| ->]; cbn [bind]; [|now right].
    destruct IH as [[r ->]| ->]; cbn [bind]; [left; now eexists | now right].
Qed.

Section Triangulate.

Variable earclip : list point -> list (point * point * point).

Lemma triangulate_ring_ok (vertices : ring) (obj : object) :
  triangulate_ring earclip vertices = Ok obj ->
  o_vertices obj = vertices /\ object_in_bounds obj.
Proof.
  unfold triangulate_ring. cbv zeta.
  destruct (mapM _ (earclip _)) as [indicies| |] eqn:E; try discriminate.
  cbn [bind]. intro H. injection H as <-.
  split; [reflexivity|]. unfold object_in_bounds. cbn [o_vertices o_indicies].
  apply mapM_ok in E.
  induction E as [|tri t l r Ht _ IH]; constructor; [|exact IH].
  destruct (list_index (fst (fst tri)) _) as [i0| |] eqn:E0; try discriminate.
  destruct (list_index (snd (fst tri)) _) as [i1| |] eqn:E1; try discriminate.
  destruct (list_index (snd tri) _) as [i2| |] eqn:E2; try discriminate.
  cbn [bind] in Ht. injection Ht as <-.
  apply list_index_ok in E0 as [H0 _], E1 as [H1 _], E2 as [H2 _].
  rewrite length_map in H0, H1, H2. now repeat split.
Qed.

Lemma triangulate_ring_cases (vertices : ring) :
  (exists obj, triangulate_ring earclip vertices = Ok obj) \/
  triangulate_ring earclip vertices = Raise ValueError.
Proof.
  unfold triangulate_ring. cbv zeta.
  destruct (mapM_cases
              (fun triangle : point * point * point =>
                 i0 <- list_index (fst (fst triangle))
                         (map (fun verticle => (vx verticle, vy verticle)) vertices) ;;
                 i1 <- list_index (snd (fst triangle))
                         (map (fun verticle => (vx verticle, vy verticle)) vertices) ;;
                 i2 <- list_index (snd triangle)
                         (map (fun verticle => (vx verticle, vy verticle)) vertices) ;;
                 Ok (i0, i1, i2))
              ValueError
              (earclip (map (fun verticle => (vx verticle, vy verticle)) vertices)))
    as [[r E]|E].
  - intro tri.
    destruct (list_index_cases (fst (fst tri))
                (map (fun verticle => (vx verticle, vy verticle)) vertices))
      as [[i0 ->]|[-> _]]; cbn [bind]; [|now right].
    destruct (list_index_cases (snd (fst tri))
                (map (fun verticle => (vx verticle, vy verticle)) vertices))
      as [[i1 ->]|[-> _]]; cbn [bind]; [|now right].
    destruct (list_index_cases (snd tri)
                (map (fun verticle => (vx verticle, vy verticle)) vertices))
      as [[i2 ->]|[-> _]]; cbn [bind]; [|now right].
    left. now eexists.
  - rewrite E. cbn [bind]. left. now eexists.
  - rewrite E. now right.
Qed.

Lemma triangulate_ring_total (vertices : ring) :
  corners_of_input earclip ->
  exists obj, triangulate_ring earclip vertices = Ok obj.
Proof.
  intro Hc. unfold triangulate_ring. cbv zeta.
  destruct (mapM_all_ok
              (fun triangle : point * point * point =>
                 i0 <- list_index (fst (fst triangle))
                         (map (fun verticle => (vx verticle, vy verticle)) vertices) ;;
                 i1 <- list_index (snd (fst triangle))
                         (map (fun verticle => (vx verticle, vy verticle)) vertices) ;;
                 i2 <- list_index (snd triangle)
                         (map (fun verticle => (vx verticle, vy verticle)) vertices) ;;
                 Ok (i0, i1, i2))
              (earclip (map (fun verticle => (vx verticle, vy verticle)) vertices)))
    as [r E].
  - intros tri Ht. destruct (Hc _ _ Ht) as [H0 [H1 H2]].
    destruct (list_index_found _ _ H0) as [i0 ->].
    destruct (list_index_found _ _ H1) as [i1 ->].
    destruct (list_index_found _ _ H2) as [i2 ->].
    cbn [bind]. now eexists.
  - rewrite E. cbn [bind]. now eexists.
Qed.

(** What [triangulate_polygon] keeps of a cell. *)
Lemma triangulate_polygon_ok (polygon : list clip) (tcs : list tclip) :
  triangulate_polygon earclip polygon = Ok tcs ->
  Forall2 (fun (c : clip) (tc : tclip) =>
             frame tc = frame c /\
             map o_vertices (objects tc) = vertices c /\
             Forall object_in_bounds (objects tc))
          polygon tcs.
Proof.
  intro H. apply mapM_ok in H.
  induction H as [|c tc l r Hc _ IH]; constructor; [|exact IH].
  destruct (mapM (triangulate_ring earclip) (vertices c)) as [objs| |] eqn:E;
    try discriminate.
  cbn [bind] in Hc. injection Hc as <-.
  split; [reflexivity|]. unfold objects. cbn [set_payload payload].
  apply mapM_ok in E. unfold vertices in *.
  induction E as [|v o vs os Hv _ IHE]; cbn [map].
  - split; [reflexivity | constructor].
  - destruct IHE as [Hm Hb]. apply triangulate_ring_ok in Hv as [Hv Ho].
    split; [now rewrite Hv, Hm | now constructor].
Qed.

Lemma triangulate_polygon_cases (polygon : list clip) :
  (exists tcs, triangulate_polygon earclip polygon = Ok tcs) \/
  triangulate_polygon earclip polygon = Raise ValueError.
Proof.
  unfold triangulate_polygon. apply mapM_cases. intro c.
  destruct (mapM_cases (triangulate_ring earclip) ValueError (vertices c)
              triangulate_ring_cases) as [[r ->]| ->]; cbn [bind].
  - left. now eexists.
  - now right.
Qed.

Lemma triangulate_polygon_total (polygon : list clip) :
  corners_of_input earclip ->
  exists tcs, triangulate_polygon earclip polygon = Ok tcs.
Proof.
  intro Hc. unfold triangulate_polygon. apply mapM_all_ok. intros c _.
  destruct (mapM_all_ok (triangulate_ring earclip) (vertices c)) as [r ->].
  - intros v _. now apply triangulate_ring_total.
  - cbn [bind]. now eexists.
Qed.

End Triangulate.

Import Reference.

Lemma fan_corners (l : list point) :
  forall (p0 prev : point) (t : point * point * point),
    In t (fan p0 prev l) ->
    fst (fst t) = p0 /\ In (snd (fst t)) (prev :: l) /\ In (snd t) l.
Proof.
  induction l as [|cur l IH]; intros p0 prev t H; cbn [fan] in H.
  - contradiction.
  - destruct H as [<-|H].
    + cbn. auto.
    + apply IH in H as [H0 [H1 H2]]. repeat split; trivial; now right.
Qed.

Lemma fan_earclip_corners : corners_of_input fan_earclip.
Proof.
  intros points t H. destruct points as [|p0 [|p1 l]]; try contradiction.
  cbn [fan_earclip] in H. apply fan_corners in H as [H0 [H1 H2]].
  rewrite H0. repeat split.
  - now left.
  - now right.
  - right. now right.
Qed.

(** X24: when [triangulate_polygon] returns, every cell keeps its frame,
    holds one object per ring with the ring's vertices unchanged, and
    every index of an object is a position inside its own ring. *)
Theorem triangulate_polygon_keeps :
  forall (earclip : list point -> list (point * point * point))
         (polygon : list clip) (triangulated : list tclip),
    triangulate_polygon earclip polygon = Ok triangulated ->
    map (@frame (list object)) triangulated
    = map (@frame (list ring)) polygon /\
    map (fun tc => map o_vertices (objects tc)) triangulated
    = map vertices polygon /\
    Forall (fun tc => Forall object_in_bounds (objects tc)) triangulated.
Proof.
  intros earclip polygon triangulated H.
  apply triangulate_polygon_ok in H.
  induction H as [|c tc l r [Hf [Hv Hb]] _ [IH1 [IH2 IH3]]]; cbn [map].
  - repeat split. constructor.
  - rewrite Hf, Hv, IH1, IH2. repeat split. now constructor.
Qed.

Lemma triangulate_polygon_keeps_witness :
  map (@frame (list object)) [two_arms]
  = map (@frame (list ring)) [two_arms_clip] /\
  map (fun tc => map o_vertices (objects tc)) [two_arms]
  = map vertices [two_arms_clip] /\
  Forall (fun tc => Forall object_in_bounds (objects tc)) [two_arms].
Proof.
  apply (triangulate_polygon_keeps fan_earclip [two_arms_clip] [two_arms]).
  vm_compute. reflexivity.
Defined.

(** X25: [triangulate_polygon] can fail in one way only, the
    [ValueError] of [points.index] for a corner that is not a point of
    the ring; when ear clipping returns corners of its input it does not
    fail. *)
Theorem triangulate_polygon_failure :
  forall (earclip : list point -> list (point * point * point))
         (polygon : list clip),
    ((exists triangulated, triangulate_polygon earclip polygon = Ok triangulated)
     \/ triangulate_polygon earclip polygon = Raise ValueError) /\
    (corners_of_input earclip ->
     exists triangulated, triangulate_polygon earclip polygon = Ok triangulated).
Proof.
  intros earclip polygon. split.
  - apply triangulate_polygon_cases.
  - apply triangulate_polygon_total.
Qed.

Lemma triangulate_polygon_failure_witness :
  exists triangulated,
    triangulate_polygon fan_earclip [two_arms_clip] = Ok triangulated.
Proof.
  apply (proj2 (triangulate_polygon_failure fan_earclip [two_arms_clip])).
  exact fan_earclip_corners.
Defined.

Example triangulate_foreign_corner :
  triangulate_polygon (fun _ => [((0, 0), (1, 0), (99, 99))])
    [mkCell 0 0 1 1 [[(0, 0, Colors.red); (1, 0, Colors.red); (1, 1, Colors.red)]]]
  = Raise ValueError.
Proof. reflexivity. Qed.

(** *** Flattening *)

Lemma rebased_in_bounds (objs : list object) :
  Forall object_in_bounds objs ->
  forall start : nat,
    Forall (triple_below (start + length (flat_map o_vertices objs)))
           (rebased_from start objs).
Proof.
  induction 1 as [|o objs Ho _ IH]; intro start; cbn [rebased_from flat_map].
  - constructor.
  - apply Forall_app. split.
    + apply Forall_forall. intros t Ht.
      apply in_map_iff in Ht as [[[a b] c] [<- Hin]].
      unfold object_in_bounds in Ho. rewrite Forall_forall in Ho.
      destruct (Ho _ Hin) as [Ha [Hb Hc]]. cbn [fst snd] in *.
      rewrite length_app. unfold triple_below, rebase. cbn [fst snd]. lia.
    + specialize (IH (start + length (o_vertices o))%nat).
      rewrite length_app, Nat.add_assoc. exact IH.
Qed.

Lemma flat_in_bounds (objs : list object) :
  Forall object_in_bounds objs ->
  Forall (triple_below (length (flat_map o_vertices objs)))
         (flat_map o_indicies objs).
Proof.
  induction 1 as [|o objs Ho _ IH]; cbn [flat_map].
  - constructor.
  - rewrite length_app. apply Forall_app. split.
    + eapply Forall_impl; [|exact Ho].
      intros t [Ha [Hb Hc]]. unfold triple_below. lia.
    + eapply Forall_impl; [|exact IH].
      intros t [Ha [Hb Hc]]. unfold triple_below. lia.
Qed.

Lemma flatten_in_bounds (tc : tclip) :
  Forall object_in_bounds (objects tc) ->
  indices_in_bounds (flatten_shape tc) /\
  indices_in_bounds (flatten_shape_group tc).
Proof.
  intro H. unfold indices_in_bounds. split.
  - unfold flatten_shape, mesh_vertices, mesh_indicies.
    cbn [set_payload payload fst snd]. now apply flat_in_bounds.
  - destruct (flatten_shape_group_rebased tc) as [-> ->].
    apply (rebased_in_bounds _ H 0%nat).
Qed.

Lemma flatten_same_one_ring (tc : tclip) :
  (length (objects tc) <= 1)%nat ->
  flatten_shape tc = flatten_shape_group tc.
Proof.
  intro H. unfold flatten_shape, flatten_shape_group, group_indicies.
  destruct (objects tc) as [|o [|o' objs]]; cbn [length] in H; try lia.
  - reflexivity.
  - cbn [flat_map fold_left fst]. rewrite rebase_fold, !app_nil_r.
    cbn [app]. do 2 f_equal.
    induction (o_indicies o) as [|[[a b] c] l IH]; cbn [map]; trivial.
    rewrite <- IH. unfold rebase. now rewrite !Nat.add_0_r.
Qed.

Lemma triangulated_in_bounds
    (earclip : list point -> list (point * point * point))
    (polygon : list clip) (tcs : list tclip) :
  triangulate_polygon earclip polygon = Ok tcs ->
  Forall (fun tc => Forall object_in_bounds (objects tc)) tcs.
Proof.
  intro H. apply triangulate_polygon_ok in H.
  induction H as [|c tc l r [_ [_ Hb]] _ IH]; constructor; trivial.
Qed.

Lemma triangulated_ring_count
    (earclip : list point -> list (point * point * point))
    (polygon : list clip) (tcs : list tclip) (n : nat) :
  triangulate_polygon earclip polygon = Ok tcs ->
  Forall (fun c => (length (vertices c) <= n)%nat) polygon ->
  Forall (fun tc => (length (objects tc) <= n)%nat) tcs.
Proof.
  intro H. apply triangulate_polygon_ok in H.
  induction H as [|c tc l r [_ [Hv _]] _ IH]; intro Hn; constructor.
  - inversion Hn as [|x m Hc Hm]; subst.
    rewrite <- Hv, length_map in Hc. exact Hc.
  - apply IH. now inversion Hn.
Qed.

(** X26: no export path produces an index outside its cell's vertex
    buffer: whenever the single-shape or the shape-group pipeline
    returns, every component of every index triple of a cell is a
    position of that cell's vertex list. *)
Theorem sub_shapes_indices_in_bounds :
  forall (AddPath : list point -> outcome unit)
         (Execute : list point -> list point -> outcome (list (list point)))
         (earclip : list point -> list (point * point * point))
         (fuel : nat) (bb : BoundingBox) (g : Q) (meshes : list mesh),
    (forall vertices : list vertex,
       shape_sub_shapes AddPath Execute earclip fuel vertices bb g = Ok meshes ->
       Forall indices_in_bounds meshes) /\
    (forall shapes : list (list vertex),
       group_sub_shapes AddPath Execute earclip fuel shapes bb g = Ok meshes ->
       Forall indices_in_bounds meshes).
Proof.
  intros AddPath Execute earclip fuel bb g meshes. split.
  - intros vertices E. unfold shape_sub_shapes in E.
    destruct (clip_polygon AddPath Execute fuel vertices bb g true)
      as [clipped| |]; try discriminate. cbn [bind] in E.
    destruct (triangulate_polygon earclip clipped) as [tcs| |] eqn:Et;
      try discriminate. cbn [bind] in E. injection E as <-.
    apply triangulated_in_bounds in Et. apply Forall_map.
    eapply Forall_impl; [|exact Et]. intros tc Hb.
    now apply flatten_in_bounds.
  - intros shapes E. unfold group_sub_shapes in E.
    destruct (clip_polygons AddPath Execute fuel shapes bb g)
      as [clipped| |]; try discriminate. cbn [bind] in E.
    destruct (triangulate_polygon earclip clipped) as [tcs| |] eqn:Et;
      try discriminate. cbn [bind] in E. injection E as <-.
    apply triangulated_in_bounds in Et. apply Forall_map.
    eapply Forall_impl; [|exact Et]. intros tc Hb.
    now apply flatten_in_bounds.
Qed.

Lemma sub_shapes_indices_in_bounds_witness :
  exists meshes : list mesh,
    group_sub_shapes rect_AddPath rect_Execute fan_earclip 5
                     [square; far_triangle; square] box10 5
    = Ok meshes /\
    length meshes = 4%nat /\
    Forall indices_in_bounds meshes.
Proof.
  eexists. split; [vm_compute; reflexivity|]. split; [reflexivity|].
  apply (proj2 (sub_shapes_indices_in_bounds rect_AddPath rect_Execute fan_earclip
                  5 box10 5 _) [square; far_triangle; square]).
  vm_compute. reflexivity.
Defined.

(** X27: the shape-group flattening makes every triangle point at the
    vertices its ring named: the triple of a ring, shifted by the number
    of vertices of the rings before it, is in the cell's index list, and
    each shifted index finds in the cell's vertex list the vertex the
    ring's own index found in the ring. *)
Theorem flatten_shape_group_references :
  forall (tc : tclip) (pre post : list object) (o : object) (t : triple),
    objects tc = pre ++ o :: post ->
    object_in_bounds o -> In t (o_indicies o) ->
    In (rebase (length (flat_map o_vertices pre)) t)
       (mesh_indicies (flatten_shape_group tc)) /\
    nth_error (mesh_vertices (flatten_shape_group tc))
              (fst (fst (rebase (length (flat_map o_vertices pre)) t)))
    = nth_error (o_vertices o) (fst (fst t)) /\
    nth_error (mesh_vertices (flatten_shape_group tc))
              (snd (fst (rebase (length (flat_map o_vertices pre)) t)))
    = nth_error (o_vertices o) (snd (fst t)) /\
    nth_error (mesh_vertices (flatten_shape_group tc))
              (snd (rebase (length (flat_map o_vertices pre)) t))
    = nth_error (o_vertices o) (snd t).
Proof.
  intros tc pre post o t Hobj Hb Ht.
  destruct (flatten_shape_group_rebased tc) as [-> ->]. rewrite Hobj.
  unfold object_in_bounds in Hb. rewrite Forall_forall in Hb.
  destruct (Hb t Ht) as [Ha [Hbb Hc]].
  split.
  - unfold rebased. rewrite rebased_from_app. cbn [rebased_from Nat.add].
    apply in_or_app. right. apply in_or_app. left. now apply in_map.
  - destruct t as [[a b] c]. cbn [rebase fst snd] in *.
    repeat split; now apply rebased_lookup.
Qed.

Lemma flatten_shape_group_references_witness :
  In (rebase (length (flat_map o_vertices [mkObject left_arm [(0, 1, 2); (0, 2, 3)]%nat]))
             (0, 2, 3)%nat)
     (mesh_indicies (flatten_shape_group two_arms)) /\
  nth_error (mesh_vertices (flatten_shape_group two_arms))
            (fst (fst (rebase (length (flat_map o_vertices
                                         [mkObject left_arm [(0, 1, 2); (0, 2, 3)]%nat]))
                              (0, 2, 3)%nat)))
  = nth_error right_arm (fst (fst (0, 2, 3)%nat)) /\
  nth_error (mesh_vertices (flatten_shape_group two_arms))
            (snd (fst (rebase (length (flat_map o_vertices
                                         [mkObject left_arm [(0, 1, 2); (0, 2, 3)]%nat]))
                              (0, 2, 3)%nat)))
  = nth_error right_arm (snd (fst (0, 2, 3)%nat)) /\
  nth_error (mesh_vertices (flatten_shape_group two_arms))
            (snd (rebase (length (flat_map o_vertices
                                    [mkObject left_arm [(0, 1, 2); (0, 2, 3)]%nat]))
                         (0, 2, 3)%nat))
  = nth_error right_arm (snd (0, 2, 3)%nat).
Proof.
  apply (flatten_shape_group_references two_arms
           [mkObject left_arm [(0, 1, 2); (0, 2, 3)]%nat] []
           (mkObject right_arm [(0, 1, 2); (0, 2, 3)]%nat) (0, 2, 3)%nat).
  - reflexivity.
  - repeat constructor.
  - cbn. auto.
Defined.

(** X28: a shape exported alone and the same shape exported as a group
    of one give cells with the same frames and the same vertex lists;
    they give the same cells, index lists included, whenever no clipped
    cell holds more than one ring. *)
Theorem single_shape_as_group :
  forall (AddPath : list point -> outcome unit)
         (Execute : list point -> list point -> outcome (list (list point)))
         (earclip : list point -> list (point * point * point))
         (fuel : nat) (vertices : list vertex) (bb : BoundingBox) (g : Q)
         (alone : list mesh),
    shape_sub_shapes AddPath Execute earclip fuel vertices bb g = Ok alone ->
    exists (clipped : list clip) (grouped : list mesh),
      clip_polygon AddPath Execute fuel vertices bb g true = Ok clipped /\
      group_sub_shapes AddPath Execute earclip fuel [vertices] bb g = Ok grouped /\
      map (@frame (list vertex * list triple)) grouped
      = map (@frame (list vertex * list triple)) alone /\
      map mesh_vertices grouped = map mesh_vertices alone /\
      (Forall (fun c => (length (Data.vertices c) <= 1)%nat) clipped ->
       grouped = alone).
Proof.
  intros AddPath Execute earclip fuel vertices bb g alone E.
  unfold shape_sub_shapes in E. unfold group_sub_shapes.
  rewrite clip_polygons_single.
  destruct (clip_polygon AddPath Execute fuel vertices bb g true)
    as [clipped| |]; try discriminate. cbn [bind] in E |- *.
  destruct (triangulate_polygon earclip clipped) as [tcs| |] eqn:Et;
    try discriminate. cbn [bind] in E |- *. injection E as <-.
  exists clipped, (map flatten_shape_group tcs).
  split; [reflexivity|]. split; [reflexivity|].
  split; [|split].
  - rewrite !map_map. now apply map_ext.
  - rewrite !map_map. now apply map_ext.
  - intro Hone. apply map_ext_in. intros tc Htc. symmetry.
    apply flatten_same_one_ring.
    pose proof (triangulated_ring_count earclip clipped tcs 1 Et Hone) as Hc.
    rewrite Forall_forall in Hc. now apply Hc.
Qed.

Lemma single_shape_as_group_witness :
  exists (alone : list mesh) (clipped : list clip) (grouped : list mesh),
    shape_sub_shapes rect_AddPath rect_Execute fan_earclip 5 square box10 5 = Ok alone /\
    clip_polygon rect_AddPath rect_Execute 5 square box10 5 true = Ok clipped /\
    group_sub_shapes rect_AddPath rect_Execute fan_earclip 5 [square] box10 5
    = Ok grouped /\
    map (@frame (list vertex * list triple)) grouped
    = map (@frame (list vertex * list triple)) alone /\
    map mesh_vertices grouped = map mesh_vertices alone /\
    (Forall (fun c => (length (Data.vertices c) <= 1)%nat) clipped ->
     grouped = alone).
Proof.
  eexists. 
  assert (E : shape_sub_shapes rect_AddPath rect_Execute fan_earclip 5 square box10 5
              = Ok (match shape_sub_shapes rect_AddPath rect_Execute fan_earclip 5
                            square box10 5 with
                    | Ok a => a
                    | _ => []
                    end)) by (vm_compute; reflexivity).
  destruct (single_shape_as_group rect_AddPath rect_Execute fan_earclip 5 square
              box10 5 _ E) as [clipped [grouped H]].
  exists clipped, grouped. split; [exact E | exact H].
Defined.

End PipelineFacts.

